(** * Multi-stream ingestion and distribution engine: a shallow embedding

    The development embeds the stream processors of the CCTV service
    - [src/local_app/simple_service.py]   (OptimizedStreamProcessor and its
      HTTP / WebSocket adapters),
    - [src/packages/local_app/enhanced_main.py] (EnhancedStreamProcessor),
    - [src/local_app/main.py]             (StreamProcessor.set_stream_quality),
    - [src/local_app/ai_processor.py]     (AIProcessor.preprocess_frame),
    and states the properties of the specification over them.

    Python dictionaries are [gmap]s, Python sets are [gset]s, numpy arrays
    live in a store of array objects and are referred to by their index, so
    that [frame.copy()] allocates and aliasing is visible.  Python floats are
    the kernel's binary64 floats. *)

From Stdlib Require Import ZArith Floats Lia Ascii.
From stdpp Require Import gmap strings list.

Local Open Scope Z_scope.

(** ** Python numbers *)

(** [float(n)] for a Python int in the range of array dimensions and clock
    readings (exact below 2^53). *)
Definition float_of_int (z : Z) : float :=
  match z with
  | Zneg p => PrimFloat.opp (PrimFloat.of_uint63 (Uint63.of_Z (Zpos p)))
  | _ => PrimFloat.of_uint63 (Uint63.of_Z z)
  end.

(** [int(x)] truncates toward zero; it raises on NaN and the infinities
    ([None]). *)
Definition int_of_float (x : float) : option Z :=
  match Prim2SF x with
  | S754_zero _ => Some 0
  | S754_finite s m e =>
      let mag := if 0 <=? e then Z.shiftl (Zpos m) e
                 else Z.shiftr (Zpos m) (- e) in
      Some (if s then - mag else mag)
  | _ => None
  end.

(** ** Frames, the array store and the OpenCV interface *)

(** A decoded frame: [shape[0]] rows, [shape[1]] columns, and its samples. *)
Record ndarray := Ndarray {
  shape0 : Z;
  shape1 : Z;
  pixels : list Byte.byte
}.

Abbreviation bytes := (list Byte.byte).

(** The part of OpenCV and of [urllib] the services call into.
    [imencode a q] is [cv2.imencode('.jpg', a, [IMWRITE_JPEG_QUALITY, q])]
    followed by [tobytes()], [None] when OpenCV raises; [resample a w h] are
    the interpolated samples [cv2.resize] computes for the target size;
    [urlparse_hostname u] is [urlparse(u).hostname], the outer [None] when
    parsing raises, and then [urlparse_error u] is the [str(e)] of the
    exception raised; [unquote] is [urllib.parse.unquote]. *)
Class Lib := {
  imencode : ndarray -> Z -> option bytes;
  resample : ndarray -> Z -> Z -> list Byte.byte;
  urlparse_hostname : string -> option (option string);
  urlparse_error : string -> string;
  unquote : string -> string
}.

(** [cv2.resize(a, (w, h))]: the result has [h] rows and [w] columns; OpenCV
    raises on an empty target size. *)
Definition cv2_resize `{Lib} (a : ndarray) (w h : Z) : option ndarray :=
  if (0 <? w) && (0 <? h) then Some (Ndarray h w (resample a w h)) else None.

(** A [cv2.VideoCapture] object: whether it is opened, the results its next
    [read()] calls will give ([None] for [(False, None)]), and the frame size
    it reports. *)
Record VideoCapture := Capture {
  isOpened : bool;
  feed : list (option ndarray);
  frame_width : Z;
  frame_height : Z
}.

Definition release (c : VideoCapture) : VideoCapture :=
  Capture false (feed c) (frame_width c) (frame_height c).

(** What [get_stream_info] returns: the error dictionary or the metrics (the
    wall-clock [timestamp] text is left out). *)
Inductive StreamInfo :=
  | InfoError (detail : string)
  | Info (stream_id : string) (is_opened : bool) (fps : Z)
         (width height : Z) (active_websocket_connections : nat).

(** A message sent over a WebSocket. *)
Inductive Message :=
  | Text (s : string)
  | JsonInfo (data : StreamInfo)      (* {"type": "info", "data": ...} *)
  | JsonHeartbeat                     (* {"type": "heartbeat"} *)
  | Binary (b : bytes).

(** A WebSocket: whether the peer is still there, and what was sent to it.
    Sending to a peer that is gone raises. *)
Record Socket := Sock {
  connected : bool;
  outbox : list Message
}.

(** The world outside the processor object. *)
Record Env := MkEnv {
  heap : list ndarray;                       (* numpy arrays, by reference *)
  caps : list VideoCapture;                  (* capture objects, by handle *)
  camera : nat -> string -> VideoCapture;    (* what the n-th open of a URL yields *)
  clock : nat -> float;                      (* the n-th reading of time.time() *)
  ticks : nat;
  threads : list string;                     (* worker threads started, by target *)
  sockets : list Socket;                     (* WebSocket objects, by handle *)
  closing : list nat;                        (* connection.close() tasks created *)
  running_loop : bool                        (* the caller of the processor's methods
                                                runs inside an asyncio event loop *)
}.

Definition set_heap (e : Env) (h : list ndarray) : Env :=
  MkEnv h (caps e) (camera e) (clock e) (ticks e) (threads e) (sockets e) (closing e)
    (running_loop e).
Definition set_caps (e : Env) (c : list VideoCapture) : Env :=
  MkEnv (heap e) c (camera e) (clock e) (ticks e) (threads e) (sockets e) (closing e)
    (running_loop e).
Definition set_ticks (e : Env) (n : nat) : Env :=
  MkEnv (heap e) (caps e) (camera e) (clock e) n (threads e) (sockets e) (closing e)
    (running_loop e).
Definition set_threads (e : Env) (t : list string) : Env :=
  MkEnv (heap e) (caps e) (camera e) (clock e) (ticks e) t (sockets e) (closing e)
    (running_loop e).
Definition set_sockets (e : Env) (s : list Socket) : Env :=
  MkEnv (heap e) (caps e) (camera e) (clock e) (ticks e) (threads e) s (closing e)
    (running_loop e).
Definition set_closing (e : Env) (c : list nat) : Env :=
  MkEnv (heap e) (caps e) (camera e) (clock e) (ticks e) (threads e) (sockets e) c
    (running_loop e).
Definition set_running_loop (e : Env) (b : bool) : Env :=
  MkEnv (heap e) (caps e) (camera e) (clock e) (ticks e) (threads e) (sockets e) (closing e) b.

(** [time.time()] *)
Definition time_time (e : Env) : float * Env :=
  (clock e (ticks e), set_ticks e (S (ticks e))).

(** A new array object holding [a]; its reference is returned. *)
Definition alloc (e : Env) (a : ndarray) : nat * Env :=
  (length (heap e), set_heap e (heap e ++ [a])).

(** [frame.copy()] *)
Definition ndarray_copy (e : Env) (r : nat) : option (nat * Env) :=
  match heap e !! r with
  | Some a => Some (alloc e a)
  | None => None
  end.

(** [cv2.VideoCapture(url, cv2.CAP_FFMPEG)] *)
Definition VideoCapture_open (e : Env) (url : string) : nat * Env :=
  (length (caps e), set_caps e (caps e ++ [camera e (length (caps e)) url])).

(** [cap.isOpened()] *)
Definition cap_isOpened (e : Env) (h : nat) : bool :=
  match caps e !! h with
  | Some c => isOpened c
  | None => false
  end.

(** [cap.release()] *)
Definition cap_release (e : Env) (h : nat) : Env :=
  match caps e !! h with
  | Some c => set_caps e (<[h := release c]> (caps e))
  | None => e
  end.

(** [cap.read()]: [(True, frame)] with a fresh array, or [(False, None)]. *)
Definition cap_read (e : Env) (h : nat) : option nat * Env :=
  match caps e !! h with
  | Some c =>
      if isOpened c then
        match feed c with
        | Some a :: rest =>
            let e1 := set_caps e (<[h := Capture true rest (frame_width c) (frame_height c)]> (caps e)) in
            let '(r, e2) := alloc e1 a in
            (Some r, e2)
        | None :: rest =>
            (None, set_caps e (<[h := Capture true rest (frame_width c) (frame_height c)]> (caps e)))
        | [] => (None, e)
        end
      else (None, e)
  | None => (None, e)
  end.

(** ** [queue.Queue] *)

Record Queue := MkQueue {
  maxsize : Z;
  items : list bytes
}.

Definition Queue_new (n : Z) : Queue := MkQueue n [].

(** [q.full()] *)
Definition full (q : Queue) : bool :=
  (0 <? maxsize q) && (maxsize q <=? Z.of_nat (length (items q))).

(** [q.get_nowait()]; [None] is [queue.Empty]. *)
Definition get_nowait (q : Queue) : option (bytes * Queue) :=
  match items q with
  | [] => None
  | x :: rest => Some (x, MkQueue (maxsize q) rest)
  end.

(** [q.put_nowait(x)]; [None] is [queue.Full]. *)
Definition put_nowait (q : Queue) (x : bytes) : option Queue :=
  if full q then None else Some (MkQueue (maxsize q) (items q ++ [x])).

(** A queue of capacity 2 holding at most two items: the queue [add_stream]
    creates, as the operations keep it. *)
Definition bounded (q : Queue) : Prop :=
  maxsize q = 2 ∧ (length (items q) ≤ 2)%nat.

(** ** [src/local_app/main.py]: the per-stream JPEG quality *)

Module Quality.

Record StreamProcessor := MkProcessor {
  streams : gmap string string;
  stream_qualities : gmap string Z
}.

(** [max(1, min(100, quality))] *)
Definition clamp (quality : Z) : Z := Z.max 1 (Z.min 100 quality).

Definition set_stream_quality (p : StreamProcessor) (stream_id : string) (quality : Z)
  : StreamProcessor * bool :=
  if decide (stream_id ∈ dom (streams p)) then
    let quality := clamp quality in
    (MkProcessor (streams p) (<[stream_id := quality]> (stream_qualities p)), true)
  else (p, false).

(** The module's instance, with its test stream. *)
Definition stream_processor : StreamProcessor :=
  MkProcessor (<["test_stream" := "Test Stream"]> ∅) ∅.

(** The [/set_quality] endpoint: it registers an unknown stream before
    storing; the reply carries the clamped quality. *)
Definition set_quality (p : StreamProcessor) (stream_id : string) (quality : Z)
  : StreamProcessor * (bool * string * Z) :=
  let quality := clamp quality in
  let p1 :=
    if decide (stream_id ∈ dom (streams p)) then p
    else MkProcessor (<[stream_id := ("Stream " +:+ stream_id)%string]> (streams p))
                     (stream_qualities p) in
  let '(p2, _) := set_stream_quality p1 stream_id quality in
  (p2, (true, stream_id, quality)).

(** Every stored quality is a valid JPEG quality. *)
Definition qualities_valid (p : StreamProcessor) : Prop :=
  ∀ id q, stream_qualities p !! id = Some q → 1 ≤ q ≤ 100.

(** The states of the module's processor: the instance as created, then any
    calls of the method and of the endpoint. *)
Inductive reachable : StreamProcessor -> Prop :=
  | reachable_init : reachable stream_processor
  | reachable_method p stream_id quality :
      reachable p -> reachable (fst (set_stream_quality p stream_id quality))
  | reachable_endpoint p stream_id quality :
      reachable p -> reachable (fst (set_quality p stream_id quality)).

End Quality.

(** ** HTTP replies of the adapters *)

Inductive Response :=
  | JpegResponse (body : bytes)                    (* 200, image/jpeg, no-cache *)
  | JsonResult (success : bool) (message : string) (* 200 with a JSON body *)
  | HTTPException (status_code : Z) (detail : string)
  | UnhandledError.                                (* an exception left the handler *)

(** ** [src/local_app/simple_service.py]: the optimized processor *)

Module Optimized.

(** The attributes of [OptimizedStreamProcessor].  [frame_locks] keeps the
    keys of the lock dictionary: a lock is taken and given back inside one
    operation. *)
Record StreamProcessor := MkProcessor {
  streams : gmap string nat;
  stream_urls : gmap string string;
  latest_frames : gmap string nat;
  frame_locks : gset string;
  processing_threads : gmap string nat;
  running : bool;
  jpeg_quality : Z;
  max_fps : Z;
  frame_queues : gmap string Queue;
  active_connections : gmap string (gset nat);
  fps_counters : gmap string Z;
  last_fps_time : gmap string float;
  consecutive_failures : gmap string Z;
  max_consecutive_failures : Z
}.

Definition set_streams (p : StreamProcessor) v : StreamProcessor :=
  MkProcessor v (stream_urls p) (latest_frames p) (frame_locks p) (processing_threads p)
    (running p) (jpeg_quality p) (max_fps p) (frame_queues p) (active_connections p)
    (fps_counters p) (last_fps_time p) (consecutive_failures p) (max_consecutive_failures p).
Definition set_stream_urls (p : StreamProcessor) v : StreamProcessor :=
  MkProcessor (streams p) v (latest_frames p) (frame_locks p) (processing_threads p)
    (running p) (jpeg_quality p) (max_fps p) (frame_queues p) (active_connections p)
    (fps_counters p) (last_fps_time p) (consecutive_failures p) (max_consecutive_failures p).
Definition set_latest_frames (p : StreamProcessor) v : StreamProcessor :=
  MkProcessor (streams p) (stream_urls p) v (frame_locks p) (processing_threads p)
    (running p) (jpeg_quality p) (max_fps p) (frame_queues p) (active_connections p)
    (fps_counters p) (last_fps_time p) (consecutive_failures p) (max_consecutive_failures p).
Definition set_frame_locks (p : StreamProcessor) v : StreamProcessor :=
  MkProcessor (streams p) (stream_urls p) (latest_frames p) v (processing_threads p)
    (running p) (jpeg_quality p) (max_fps p) (frame_queues p) (active_connections p)
    (fps_counters p) (last_fps_time p) (consecutive_failures p) (max_consecutive_failures p).
Definition set_processing_threads (p : StreamProcessor) v : StreamProcessor :=
  MkProcessor (streams p) (stream_urls p) (latest_frames p) (frame_locks p) v
    (running p) (jpeg_quality p) (max_fps p) (frame_queues p) (active_connections p)
    (fps_counters p) (last_fps_time p) (consecutive_failures p) (max_consecutive_failures p).
Definition set_frame_queues (p : StreamProcessor) v : StreamProcessor :=
  MkProcessor (streams p) (stream_urls p) (latest_frames p) (frame_locks p) (processing_threads p)
    (running p) (jpeg_quality p) (max_fps p) v (active_connections p)
    (fps_counters p) (last_fps_time p) (consecutive_failures p) (max_consecutive_failures p).
Definition set_active_connections (p : StreamProcessor) v : StreamProcessor :=
  MkProcessor (streams p) (stream_urls p) (latest_frames p) (frame_locks p) (processing_threads p)
    (running p) (jpeg_quality p) (max_fps p) (frame_queues p) v
    (fps_counters p) (last_fps_time p) (consecutive_failures p) (max_consecutive_failures p).
Definition set_fps_counters (p : StreamProcessor) v : StreamProcessor :=
  MkProcessor (streams p) (stream_urls p) (latest_frames p) (frame_locks p) (processing_threads p)
    (running p) (jpeg_quality p) (max_fps p) (frame_queues p) (active_connections p)
    v (last_fps_time p) (consecutive_failures p) (max_consecutive_failures p).
Definition set_last_fps_time (p : StreamProcessor) v : StreamProcessor :=
  MkProcessor (streams p) (stream_urls p) (latest_frames p) (frame_locks p) (processing_threads p)
    (running p) (jpeg_quality p) (max_fps p) (frame_queues p) (active_connections p)
    (fps_counters p) v (consecutive_failures p) (max_consecutive_failures p).
Definition set_consecutive_failures (p : StreamProcessor) v : StreamProcessor :=
  MkProcessor (streams p) (stream_urls p) (latest_frames p) (frame_locks p) (processing_threads p)
    (running p) (jpeg_quality p) (max_fps p) (frame_queues p) (active_connections p)
    (fps_counters p) (last_fps_time p) v (max_consecutive_failures p).

(** [__init__] *)
Definition init : StreamProcessor :=
  MkProcessor ∅ ∅ ∅ ∅ ∅ true 40 30 ∅ ∅ ∅ ∅ ∅ 30.

(** [if k in d: del d[k]] *)
Definition del_if_in {V} (k : string) (d : gmap string V) : gmap string V :=
  if decide (k ∈ dom d) then delete k d else d.

(** [add_stream]: the CUDA probe only prints, and no call in the body is
    modelled as raising, so the handler of the outer [try] is not reached. *)
Definition add_stream (p : StreamProcessor) (e : Env) (stream_id rtsp_url : string)
  : StreamProcessor * Env * bool :=
  if decide (stream_id ∈ dom (streams p)) then (p, e, true)
  else
    let p := set_stream_urls p (<[stream_id := rtsp_url]> (stream_urls p)) in
    let p := set_frame_locks p ({[stream_id]} ∪ frame_locks p) in
    let p := set_frame_queues p (<[stream_id := Queue_new 2]> (frame_queues p)) in
    let p := set_active_connections p (<[stream_id := ∅]> (active_connections p)) in
    let '(cap, e) := VideoCapture_open e rtsp_url in
    if negb (cap_isOpened e cap) then (p, e, false)
    else
      let p := set_streams p (<[stream_id := cap]> (streams p)) in
      let p := set_fps_counters p (<[stream_id := 0]> (fps_counters p)) in
      let '(now, e) := time_time e in
      let p := set_last_fps_time p (<[stream_id := now]> (last_fps_time p)) in
      let p := set_consecutive_failures p (<[stream_id := 0]> (consecutive_failures p)) in
      let thread := length (threads e) in
      let e := set_threads e (threads e ++ [stream_id]) in
      let p := set_processing_threads p (<[stream_id := thread]> (processing_threads p)) in
      (p, e, true).

(** [remove_stream]: every connection of the stream gets a close task.
    [asyncio.create_task] raises where no event loop is running: called from
    outside the loop for a stream that has a connection, the method ends in
    its [except] at the first connection and returns [False]; what it has
    deleted by then stays deleted, the consumer set stays. *)
Definition remove_stream (p : StreamProcessor) (e : Env) (stream_id : string)
  : StreamProcessor * Env * bool :=
  let '(p, e) :=
    match streams p !! stream_id with
    | Some cap => (set_streams p (delete stream_id (streams p)), cap_release e cap)
    | None => (p, e)
    end in
  let p := set_latest_frames p (del_if_in stream_id (latest_frames p)) in
  let p := set_frame_locks p
             (if decide (stream_id ∈ frame_locks p) then frame_locks p ∖ {[stream_id]}
              else frame_locks p) in
  let p := set_processing_threads p (del_if_in stream_id (processing_threads p)) in
  let p := set_stream_urls p (del_if_in stream_id (stream_urls p)) in
  let p := set_frame_queues p (del_if_in stream_id (frame_queues p)) in
  match active_connections p !! stream_id with
  | Some conns =>
      if running_loop e || bool_decide (conns = ∅) then
        (set_active_connections p (delete stream_id (active_connections p)),
         set_closing e (closing e ++ elements conns), true)
      else (p, e, false)
  | None => (p, e, true)
  end.

(** [_reconnect_stream]; [time.sleep(1)] leaves no trace in the state. *)
Definition _reconnect_stream (p : StreamProcessor) (e : Env) (stream_id : string)
  : StreamProcessor * Env * bool :=
  match stream_urls p !! stream_id with
  | None => (p, e, false)
  | Some rtsp_url =>
      let '(p, e) :=
        match streams p !! stream_id with
        | Some old_cap => (set_streams p (delete stream_id (streams p)), cap_release e old_cap)
        | None => (p, e)
        end in
      let '(cap, e) := VideoCapture_open e rtsp_url in
      if negb (cap_isOpened e cap) then (p, e, false)
      else
        let p := set_streams p (<[stream_id := cap]> (streams p)) in
        let p := set_consecutive_failures p (<[stream_id := 0]> (consecutive_failures p)) in
        (p, e, true)
  end.

(** [get_latest_frame]: the reference returned is to a fresh copy. *)
Definition get_latest_frame (p : StreamProcessor) (e : Env) (stream_id : string)
  : option nat * Env :=
  if decide (stream_id ∈ frame_locks p) then
    match latest_frames p !! stream_id with
    | Some r =>
        match ndarray_copy e r with
        | Some (r', e') => (Some r', e')
        | None => (None, e)
        end
    | None => (None, e)
    end
  else (None, e).

(** *** The ingestion worker, [_process_stream] *)

(** The local variables of a worker thread. *)
Record Locals := MkLocals {
  frame_count : Z;
  last_successful_frame_time : float;
  reconnect_cooldown : float;
  last_frame_time : float
}.

(** The locals when the thread enters its loop. *)
Definition process_stream_start (e : Env) : Locals * Env :=
  let '(t1, e) := time_time e in
  let '(t2, e) := time_time e in
  (MkLocals 0 t1 0%float t2, e).

(** What one turn of the loop did. *)
Inductive Outcome :=
  | Exited                                  (* the loop condition failed *)
  | Skipped                                 (* [continue] before any read *)
  | Raised                                  (* outer [except], before any read *)
  | ReadFailed                              (* [cap.read()] gave no frame *)
  | FrameRead (frame : nat) (raised : bool) (* a frame was read; [raised]: the
                                               outer [except] ended the turn *).

(** The guarded reconnection the loop performs in three places:
    [if time.time() - reconnect_cooldown > gap:] reconnect, on failure note
    the time in [reconnect_cooldown]; the two later places also note a success
    in [last_successful_frame_time] ([mark]). *)
Definition try_reconnect (gap : float) (mark : bool)
    (l : Locals) (p : StreamProcessor) (e : Env) (stream_id : string)
  : Locals * StreamProcessor * Env :=
  let '(now, e) := time_time e in
  if PrimFloat.ltb gap (PrimFloat.sub now (reconnect_cooldown l)) then
    let '(p, e, ok) := _reconnect_stream p e stream_id in
    if negb ok then
      let '(t, e) := time_time e in
      (MkLocals (frame_count l) (last_successful_frame_time l) t (last_frame_time l), p, e)
    else if mark then
      let '(t, e) := time_time e in
      (MkLocals (frame_count l) t (reconnect_cooldown l) (last_frame_time l), p, e)
    else (l, p, e)
  else (l, p, e).

(** Lines 277-282: a frame wider than 1280 columns is resized to width 1280,
    its height scaled by [1280 / width] in float arithmetic and truncated.
    [None]: [int] or [cv2.resize] raised. *)
Definition resize_for_queue `{Lib} (a : ndarray) : option ndarray :=
  if 1280 <? shape1 a then
    let scale := PrimFloat.div (float_of_int 1280) (float_of_int (shape1 a)) in
    let new_width := 1280 in
    match int_of_float (PrimFloat.mul (float_of_int (shape0 a)) scale) with
    | Some new_height => cv2_resize a new_width new_height
    | None => None
    end
  else Some a.

(** Lines 268-292: make room in the stream's queue, encode, enqueue.  A missing
    queue, a failed resize and a failed encode end in [except Exception], a
    full queue in [except queue.Full]: the frame is dropped, an eviction
    already done stays. *)
Definition enqueue_frame `{Lib} (p : StreamProcessor) (a : ndarray) (stream_id : string)
  : StreamProcessor :=
  match frame_queues p !! stream_id with
  | None => p
  | Some q =>
      let q1 := if full q then
                  match get_nowait q with
                  | Some (_, q') => q'
                  | None => q
                  end
                else q in
      let p1 := set_frame_queues p (<[stream_id := q1]> (frame_queues p)) in
      match resize_for_queue a with
      | None => p1
      | Some a' =>
          match imencode a' (jpeg_quality p) with
          | None => p1
          | Some buffer =>
              match put_nowait q1 buffer with
              | Some q2 => set_frame_queues p (<[stream_id := q2]> (frame_queues p))
              | None => p1
              end
          end
      end
  end.

(** Lines 294-300, after [frame_count += 1]; [None]: [KeyError]. *)
Definition update_fps (l : Locals) (p : StreamProcessor) (e : Env) (stream_id : string)
  : option (Locals * StreamProcessor) * Env :=
  let '(current_time, e) := time_time e in
  match last_fps_time p !! stream_id with
  | None => (None, e)
  | Some last =>
      if PrimFloat.leb 1%float (PrimFloat.sub current_time last) then
        let p := set_fps_counters p (<[stream_id := frame_count l]> (fps_counters p)) in
        let p := set_last_fps_time p (<[stream_id := current_time]> (last_fps_time p)) in
        (Some (MkLocals 0 (last_successful_frame_time l) (reconnect_cooldown l)
                 (last_frame_time l), p), e)
      else (Some (l, p), e)
  end.

(** Lines 260-300: what follows a successful read of [frame]. *)
Definition on_frame `{Lib} (l : Locals) (p : StreamProcessor) (e : Env)
    (stream_id : string) (frame : nat)
  : Locals * StreamProcessor * Env * Outcome :=
  let p := set_consecutive_failures p (<[stream_id := 0]> (consecutive_failures p)) in
  let '(t, e) := time_time e in
  let l := MkLocals (frame_count l) t (reconnect_cooldown l) (last_frame_time l) in
  if decide (stream_id ∈ frame_locks p) then
    match ndarray_copy e frame with
    | Some (c, e) =>
        let p := set_latest_frames p (<[stream_id := c]> (latest_frames p)) in
        let p := match heap e !! frame with
                 | Some a => enqueue_frame p a stream_id
                 | None => p
                 end in
        let l := MkLocals (frame_count l + 1) (last_successful_frame_time l)
                   (reconnect_cooldown l) (last_frame_time l) in
        match update_fps l p e stream_id with
        | (Some (l, p), e) => (l, p, e, FrameRead frame false)
        | (None, e) => (l, p, e, FrameRead frame true)
        end
    | None => (l, p, e, FrameRead frame true)
    end
  else (l, p, e, FrameRead frame true).

(** Lines 247-258: [cap.read()] gave no frame. *)
Definition on_read_failure (l : Locals) (p : StreamProcessor) (e : Env)
    (stream_id : string)
  : Locals * StreamProcessor * Env * Outcome :=
  let n := default 0 (consecutive_failures p !! stream_id) + 1 in
  let p := set_consecutive_failures p (<[stream_id := n]> (consecutive_failures p)) in
  if max_consecutive_failures p <=? n then
    let '(l, p, e) := try_reconnect 10%float true l p e stream_id in
    (l, p, e, ReadFailed)
  else (l, p, e, ReadFailed).

(** One turn of [while self.running and stream_id in self.streams].  The
    sleeps leave no trace; [1.0 / self.max_fps] raises when [max_fps] is 0. *)
Definition process_stream_iter `{Lib} (l : Locals) (p : StreamProcessor) (e : Env)
    (stream_id : string)
  : Locals * StreamProcessor * Env * Outcome :=
  if negb (running p && bool_decide (stream_id ∈ dom (streams p))) then (l, p, e, Exited)
  else
    match streams p !! stream_id with
    | None => (l, p, e, Skipped)
    | Some cap =>
        if negb (cap_isOpened e cap) then
          let '(l, p, e) := try_reconnect 5%float false l p e stream_id in
          (l, p, e, Skipped)
        else
          let '(now, e) := time_time e in
          if PrimFloat.ltb 30%float (PrimFloat.sub now (last_successful_frame_time l)) then
            let '(l, p, e) := try_reconnect 10%float true l p e stream_id in
            (l, p, e, Skipped)
          else
            let '(current_time, e) := time_time e in
            if max_fps p =? 0 then (l, p, e, Raised)
            else if PrimFloat.ltb (PrimFloat.sub current_time (last_frame_time l))
                      (PrimFloat.div 1%float (float_of_int (max_fps p)))
            then (l, p, e, Skipped)
            else
              let l := MkLocals (frame_count l) (last_successful_frame_time l)
                         (reconnect_cooldown l) current_time in
              match cap_read e cap with
              | (None, e) => on_read_failure l p e stream_id
              | (Some frame, e) => on_frame l p e stream_id frame
              end
    end.

(** *** Consumers *)

Definition cap_get_width (e : Env) (h : nat) : Z :=
  match caps e !! h with Some c => frame_width c | None => 0 end.
Definition cap_get_height (e : Env) (h : nat) : Z :=
  match caps e !! h with Some c => frame_height c | None => 0 end.

Definition get_stream_info (p : StreamProcessor) (e : Env) (stream_id : string)
  : StreamInfo :=
  match streams p !! stream_id with
  | None => InfoError "Stream not found"
  | Some cap =>
      Info stream_id (cap_isOpened e cap) (default 0 (fps_counters p !! stream_id))
        (cap_get_width e cap) (cap_get_height e cap)
        (size (default ∅ (active_connections p !! stream_id)))
  end.

Definition register_websocket (p : StreamProcessor) (stream_id : string) (websocket : nat)
  : StreamProcessor :=
  let p := if decide (stream_id ∈ dom (active_connections p)) then p
           else set_active_connections p (<[stream_id := ∅]> (active_connections p)) in
  match active_connections p !! stream_id with
  | Some conns =>
      set_active_connections p (<[stream_id := {[websocket]} ∪ conns]> (active_connections p))
  | None => p
  end.

Definition unregister_websocket (p : StreamProcessor) (stream_id : string) (websocket : nat)
  : StreamProcessor :=
  match active_connections p !! stream_id with
  | Some conns =>
      set_active_connections p (<[stream_id := conns ∖ {[websocket]}]> (active_connections p))
  | None => p
  end.

(** [websocket.send_*]: [None] when the send raises. *)
Definition ws_send (e : Env) (websocket : nat) (m : Message) : option Env :=
  match sockets e !! websocket with
  | Some s =>
      if connected s then
        Some (set_sockets e (<[websocket := Sock true (outbox s ++ [m])]> (sockets e)))
      else None
  | None => None
  end.

(** [websocket.close()] *)
Definition ws_close (e : Env) (websocket : nat) : Env :=
  match sockets e !! websocket with
  | Some s => set_sockets e (<[websocket := Sock false (outbox s)]> (sockets e))
  | None => e
  end.

(** Where the handler of one connection stands. *)
Inductive Handler :=
  | Accepted        (* after [websocket.accept()] *)
  | Streaming       (* at the head of [while True] *)
  | Finished.       (* the coroutine has returned *)

(** From [accept] to the head of the loop: the existence check, the
    registration and the info message.  A send that raises before the [try]
    leaves the handler at once; inside the [try] it ends in [finally]. *)
Definition websocket_open (p : StreamProcessor) (e : Env) (stream_id : string)
    (websocket : nat) : StreamProcessor * Env * Handler :=
  if decide (stream_id ∈ dom (streams p)) then
    let p := register_websocket p stream_id websocket in
    let info := get_stream_info p e stream_id in
    match ws_send e websocket (JsonInfo info) with
    | Some e => (p, e, Streaming)
    | None => (unregister_websocket p stream_id websocket, e, Finished)
    end
  else
    match ws_send e websocket (Text ("Error: Stream " +:+ stream_id +:+ " not found")) with
    | Some e => (p, ws_close e websocket, Finished)
    | None => (p, e, Finished)
    end.

(** One turn of [while True]; [get(timeout=1.0)] is taken at the moment it
    returns: an item if the queue has one, [queue.Empty] otherwise. *)
Definition websocket_iter (p : StreamProcessor) (e : Env) (stream_id : string)
    (websocket : nat) : StreamProcessor * Env * Handler :=
  if decide (stream_id ∈ dom (streams p)) then
    match frame_queues p !! stream_id with
    | Some q =>
        match get_nowait q with
        | Some (frame_data, q') =>
            let p := set_frame_queues p (<[stream_id := q']> (frame_queues p)) in
            match ws_send e websocket (Binary frame_data) with
            | Some e => (p, e, Streaming)
            | None => (p, e, Streaming)        (* except Exception: print, sleep *)
            end
        | None =>
            match ws_send e websocket JsonHeartbeat with
            | Some e => (p, e, Streaming)
            | None => (p, e, Streaming)        (* except Exception: print, sleep *)
            end
        end
    | None => (p, e, Streaming)
    end
  else
    let e := match ws_send e websocket (Text "Stream ended") with
             | Some e => e
             | None => e                       (* outer except *)
             end in
    (unregister_websocket p stream_id websocket, e, Finished).

(** The handler [websocket_stream], one step at a time. *)
Definition websocket_stream (h : Handler) (p : StreamProcessor) (e : Env)
    (stream_id : string) (websocket : nat) : StreamProcessor * Env * Handler :=
  match h with
  | Accepted => websocket_open p e stream_id websocket
  | Streaming => websocket_iter p e stream_id websocket
  | Finished => (p, e, Finished)
  end.

(** *** The HTTP endpoints *)

Module Api.

Definition add_stream `{Lib} (p : StreamProcessor) (e : Env) (stream_id rtsp_url : string)
  : StreamProcessor * Env * Response :=
  let decoded_rtsp_url := unquote rtsp_url in
  let '(p, e, success) := Optimized.add_stream p e stream_id decoded_rtsp_url in
  (p, e, if success then JsonResult true "Stream added successfully"
         else HTTPException 400 "Failed to add stream").

(** [DELETE /remove_stream/{stream_id}]: the coroutine runs inside the
    event loop of the server, whatever the other callers of the processor
    do. *)
Definition remove_stream (p : StreamProcessor) (e : Env) (stream_id : string)
  : StreamProcessor * Env * Response :=
  let '(p, e', success) :=
    Optimized.remove_stream p (set_running_loop e true) stream_id in
  (p, set_running_loop e' (running_loop e),
   if success then JsonResult true "Stream removed successfully"
   else HTTPException 404 "Stream not found").

Definition get_stream_frame `{Lib} (p : StreamProcessor) (e : Env) (stream_id : string)
    (quality : option Z) : Response * Env :=
  match get_latest_frame p e stream_id with
  | (None, e) => (HTTPException 404 "Stream not found or no frame available", e)
  | (Some frame, e) =>
      let jpeg_quality := match quality with
                          | Some q => q
                          | None => jpeg_quality p
                          end in
      match heap e !! frame with
      | Some a =>
          match imencode a jpeg_quality with
          | Some buffer => (JpegResponse buffer, e)
          | None => (UnhandledError, e)
          end
      | None => (UnhandledError, e)
      end
  end.

End Api.

(** *** The service as a whole

    The operations that run against one processor object, each taken as one
    atomic step: the registry calls, a worker thread entering its function,
    a turn of some worker thread (with whatever locals it has), a reader of
    the frame cache, a step of the handler of some WebSocket, and a peer
    going away. *)

Inductive Action :=
  | AddStream (stream_id rtsp_url : string)
  | RemoveStream (stream_id : string)
  | WorkerStart
  | WorkerTurn (stream_id : string) (l : Locals)
  | ReadFrame (stream_id : string)
  | HandlerStep (h : Handler) (stream_id : string) (websocket : nat)
  | Disconnect (websocket : nat).

Definition act `{Lib} (a : Action) (w : StreamProcessor * Env) : StreamProcessor * Env :=
  let '(p, e) := w in
  match a with
  | AddStream stream_id rtsp_url =>
      let '(p, e, _) := add_stream p e stream_id rtsp_url in (p, e)
  | RemoveStream stream_id =>
      let '(p, e, _) := remove_stream p e stream_id in (p, e)
  | WorkerStart => (p, snd (process_stream_start e))
  | WorkerTurn stream_id l =>
      let '(_, p, e, _) := process_stream_iter l p e stream_id in (p, e)
  | ReadFrame stream_id =>
      let '(_, e) := get_latest_frame p e stream_id in (p, e)
  | HandlerStep h stream_id websocket =>
      let '(p, e, _) := websocket_stream h p e stream_id websocket in (p, e)
  | Disconnect websocket => (p, ws_close e websocket)
  end.

(** The states the service can be in: those reached from a new processor. *)
Inductive reachable `{Lib} : StreamProcessor * Env -> Prop :=
  | reachable_init (e : Env) : heap e = [] -> reachable (init, e)
  | reachable_act (a : Action) (w : StreamProcessor * Env) :
      reachable w -> reachable (act a w).

(** The handler of [websocket] for [stream_id] run against the rest of the
    service: [None] is a step of the handler, [Some a] a step of the rest. *)
Fixpoint run `{Lib} (schedule : list (option Action)) (stream_id : string) (websocket : nat)
    (h : Handler) (w : StreamProcessor * Env) : Handler * (StreamProcessor * Env) :=
  match schedule with
  | [] => (h, w)
  | None :: rest =>
      let '(p, e, h) := websocket_stream h (fst w) (snd w) stream_id websocket in
      run rest stream_id websocket h (p, e)
  | Some a :: rest => run rest stream_id websocket h (act a w)
  end.

(** An action of the rest of the service does not run the handler of
    [websocket]: that connection object belongs to its own handler. *)
Definition foreign (websocket : nat) (a : option Action) : Prop :=
  match a with
  | Some (HandlerStep _ _ ws) => ws ≠ websocket
  | _ => True
  end.

(** [websocket] is not in the consumer set of [sid], and it is in none. *)
Definition unregistered_at (p : StreamProcessor) (websocket : nat) (sid : string) : Prop :=
  ∀ conns, active_connections p !! sid = Some conns → websocket ∉ conns.

Definition unregistered (p : StreamProcessor) (websocket : nat) : Prop :=
  ∀ sid, unregistered_at p websocket sid.

(** Where the handler of [websocket] for [stream_id] stands, and what then
    holds of the consumer sets: before the registration and after the return
    the connection is in no set, in between it is in no set of another
    stream. *)
Definition handler_inv (stream_id : string) (websocket : nat)
    (h : Handler) (p : StreamProcessor) : Prop :=
  match h with
  | Streaming => ∀ sid, sid ≠ stream_id → unregistered_at p websocket sid
  | _ => unregistered p websocket
  end.

(** The stream has an open capture: it is in state Streaming. *)
Definition streaming (p : StreamProcessor) (e : Env) (stream_id : string) : Prop :=
  ∃ cap, streams p !! stream_id = Some cap ∧ cap_isOpened e cap = true.

(** What holds of every state of the service: a registered stream has its
    lock, every queue is within its capacity, and every cached frame is an
    array of the store. *)
Record consistent (w : StreamProcessor * Env) : Prop := {
  streams_locked : ∀ id, id ∈ dom (streams (fst w)) → id ∈ frame_locks (fst w);
  queues_bounded : ∀ id q, frame_queues (fst w) !! id = Some q → bounded q;
  frames_stored : ∀ id r, latest_frames (fst w) !! id = Some r →
                          (r < length (heap (snd w)))%nat
}.

End Optimized.

(** ** [src/packages/local_app/enhanced_main.py]: the enhanced processor *)

Module Enhanced.

Record StreamProcessor := MkProcessor {
  streams : gmap string nat;
  stream_urls : gmap string string;
  latest_frames : gmap string nat;
  latest_detections : gmap string (list unit);
  frame_locks : gset string;
  processing_threads : gmap string nat;
  running : bool;
  fps_counters : gmap string Z;
  last_fps_time : gmap string float;
  detection_fps : gmap string Z;
  ai_enabled : bool;
  detection_interval : Z;
  frame_counters : gmap string Z
}.

Definition init : StreamProcessor :=
  MkProcessor ∅ ∅ ∅ ∅ ∅ ∅ true ∅ ∅ ∅ true 5 ∅.

Definition del_if_in {V} (k : string) (d : gmap string V) : gmap string V :=
  if decide (k ∈ dom d) then delete k d else d.

(** [add_stream]; no call in the body is modelled as raising. *)
Definition add_stream (p : StreamProcessor) (e : Env) (stream_id rtsp_url : string)
    (enable_ai : bool) : StreamProcessor * Env * bool :=
  let locks := {[stream_id]} ∪ frame_locks p in
  let '(cap, e) := VideoCapture_open e rtsp_url in
  if negb (cap_isOpened e cap) then
    (MkProcessor (streams p) (stream_urls p) (latest_frames p) (latest_detections p)
       locks (processing_threads p) (running p) (fps_counters p) (last_fps_time p)
       (detection_fps p) (ai_enabled p) (detection_interval p) (frame_counters p),
     e, false)
  else
    let '(now, e) := time_time e in
    let thread := length (threads e) in
    let e := set_threads e (threads e ++ [stream_id]) in
    (MkProcessor (<[stream_id := cap]> (streams p))
       (<[stream_id := rtsp_url]> (stream_urls p))
       (latest_frames p)
       (<[stream_id := []]> (latest_detections p))
       locks
       (<[stream_id := thread]> (processing_threads p))
       (running p)
       (<[stream_id := 0]> (fps_counters p))
       (<[stream_id := now]> (last_fps_time p))
       (detection_fps p) (ai_enabled p) (detection_interval p)
       (<[stream_id := 0]> (frame_counters p)),
     e, true).

Definition remove_stream (p : StreamProcessor) (e : Env) (stream_id : string)
  : StreamProcessor * Env * bool :=
  let e := match streams p !! stream_id with
           | Some cap => cap_release e cap
           | None => e
           end in
  (MkProcessor (del_if_in stream_id (streams p))
     (del_if_in stream_id (stream_urls p))
     (del_if_in stream_id (latest_frames p))
     (del_if_in stream_id (latest_detections p))
     (if decide (stream_id ∈ frame_locks p) then frame_locks p ∖ {[stream_id]}
      else frame_locks p)
     (del_if_in stream_id (processing_threads p))
     (running p)
     (del_if_in stream_id (fps_counters p))
     (del_if_in stream_id (last_fps_time p))
     (del_if_in stream_id (detection_fps p))
     (ai_enabled p) (detection_interval p)
     (del_if_in stream_id (frame_counters p)),
   e, true).

(** [_reconnect_stream]: the old capture is released but stays registered
    until a new one has opened and given a trial frame. *)
Definition _reconnect_stream (p : StreamProcessor) (e : Env) (stream_id : string)
  : StreamProcessor * Env * bool :=
  match stream_urls p !! stream_id with
  | None => (p, e, false)
  | Some rtsp_url =>
      let e := match streams p !! stream_id with
               | Some old => cap_release e old
               | None => e
               end in
      let '(cap, e) := VideoCapture_open e rtsp_url in
      if negb (cap_isOpened e cap) then (p, e, false)
      else
        match cap_read e cap with
        | (None, e) => (p, cap_release e cap, false)
        | (Some _, e) =>
            (MkProcessor (<[stream_id := cap]> (streams p))
               (stream_urls p) (latest_frames p) (latest_detections p) (frame_locks p)
               (processing_threads p) (running p) (fps_counters p) (last_fps_time p)
               (detection_fps p) (ai_enabled p) (detection_interval p) (frame_counters p),
             e, true)
        end
  end.

Definition streaming (p : StreamProcessor) (e : Env) (stream_id : string) : Prop :=
  ∃ cap, streams p !! stream_id = Some cap ∧ cap_isOpened e cap = true.

Module Api.

(** [s.split(sep)] for a one-character separator. *)
Fixpoint split_on (sep : Ascii.ascii) (s acc : string) : list string :=
  match s with
  | EmptyString => [acc]
  | String c s' =>
      if Ascii.eqb c sep then acc :: split_on sep s' ""
      else split_on sep s' (acc +:+ String c "")
  end.

(** [sep in s] *)
Fixpoint contains (sep : Ascii.ascii) (s : string) : bool :=
  match s with
  | EmptyString => false
  | String c s' => Ascii.eqb c sep || contains sep s'
  end.

(** The private-network test on the dotted parts of the host name. *)
Definition incomplete_ip (parts : list string) : bool :=
  match parts with
  | p0 :: p1 :: _ =>
      let short := Nat.ltb (length parts) 4 in
      if String.eqb p0 "192" && String.eqb p1 "168" && short then true
      else if String.eqb p0 "10" && short then true
      else if String.eqb p0 "172" && short then true
      else false
  | _ => false
  end.

(** The checks of the endpoint before it looks at the registry: [Some] is
    the 400 reply. *)
Definition validate `{Lib} (stream_id rtsp_url : string) : option Response :=
  if negb (String.prefix "rtsp://" rtsp_url) then
    Some (HTTPException 400 "Invalid RTSP URL format. URL must start with 'rtsp://'")
  else if String.eqb stream_id "" then
    Some (HTTPException 400 "Stream ID is required")
  else
    match urlparse_hostname rtsp_url with
    | None =>
        Some (HTTPException 400 ("Invalid RTSP URL format: " +:+ urlparse_error rtsp_url))
    | Some None => Some (HTTPException 400 "Invalid RTSP URL: Missing hostname")
    | Some (Some hostname) =>
        if String.eqb hostname "" then
          Some (HTTPException 400 "Invalid RTSP URL: Missing hostname")
        else if contains "."%char hostname && incomplete_ip (split_on "."%char hostname "") then
          Some (HTTPException 400 "Invalid RTSP URL: Incomplete IP address")
        else None
    end.

Definition add_stream `{Lib} (p : StreamProcessor) (e : Env) (stream_id rtsp_url : string)
    (enable_ai : bool) : StreamProcessor * Env * Response :=
  match validate stream_id rtsp_url with
  | Some err => (p, e, err)
  | None =>
      if decide (stream_id ∈ dom (streams p)) then
        (p, e, JsonResult false "Stream already exists")
      else
        let '(p, e, success) := Enhanced.add_stream p e stream_id rtsp_url enable_ai in
        (p, e,
         if success then JsonResult true "Stream added successfully"
         else HTTPException 400
                "Failed to add stream. Please check the RTSP URL and network connectivity.")
  end.

Definition remove_stream (p : StreamProcessor) (e : Env) (stream_id : string)
  : StreamProcessor * Env * Response :=
  let '(p, e, success) := Enhanced.remove_stream p e stream_id in
  (p, e, if success then JsonResult true "Stream removed successfully"
         else HTTPException 404 "Stream not found").

End Api.

End Enhanced.

(** ** [src/local_app/ai_processor.py]: the frame handed to inference *)

Module AIProcessor.

(** [preprocess_frame]: the long edge is capped at 1280, both dimensions
    scaled by the same factor. [None]: [int] or [cv2.resize] raised. *)
Definition preprocess_frame `{Lib} (frame : ndarray) : option ndarray :=
  let height := shape0 frame in
  let width := shape1 frame in
  let max_size := 1280 in
  if max_size <? Z.max height width then
    let scale := PrimFloat.div (float_of_int max_size) (float_of_int (Z.max height width)) in
    match int_of_float (PrimFloat.mul (float_of_int width) scale),
          int_of_float (PrimFloat.mul (float_of_int height) scale) with
    | Some new_width, Some new_height => cv2_resize frame new_width new_height
    | _, _ => None
    end
  else Some frame.

End AIProcessor.

(** ** [src/local_app/ai_processor.py]: detection and its metrics *)

Module Inference.

(** One box of a result, as the tensors hold it. *)
Record Box := MkBox {
  x1 : float;
  y1 : float;
  x2 : float;
  y2 : float;
  conf : float;
  cls : float
}.

(** The loaded YOLO model: what [self.model(frame, conf=..., verbose=False)]
    gives ([None]: the call raises), per result its boxes or [None], and the
    class names ([None]: [KeyError]). *)
Class Yolo := {
  model : ndarray -> float -> option (list (option (list Box)));
  names : Z -> option string
}.

Record Detection := MkDetection {
  bbox : Z * Z * Z * Z;
  confidence : float;
  class_id : Z;
  class_name : string;
  timestamp : float
}.

(** The attributes of [AIProcessor] that detection reads and writes. *)
Record AIProcessor := MkAI {
  model_loaded : bool;                (* [self.model is not None] *)
  inference_times : list float;
  total_inferences : Z
}.

(** [__init__] *)
Definition init : AIProcessor := MkAI false [] 0.

(** [load_model]; [loaded] tells whether [YOLO(self.model_path)] returned. *)
Definition load_model (s : AIProcessor) (loaded : bool) : AIProcessor * bool :=
  if loaded then (MkAI true (inference_times s) (total_inferences s), true)
  else (s, false).

(** Lines 101-113: one box becomes one detection; [None]: an [int] or the
    name lookup raised. *)
Definition detection_of `{Yolo} (b : Box) (e : Env) : option Detection * Env :=
  match int_of_float (cls b) with
  | None => (None, e)
  | Some class_id =>
      match names class_id with
      | None => (None, e)
      | Some class_name =>
          match int_of_float (x1 b), int_of_float (y1 b),
                int_of_float (x2 b), int_of_float (y2 b) with
          | Some a1, Some b1, Some a2, Some b2 =>
              let '(t, e) := time_time e in
              (Some (MkDetection (a1, b1, a2, b2) (conf b) class_id class_name t), e)
          | _, _, _, _ => (None, e)
          end
      end
  end.

(** [for box in boxes] *)
Fixpoint boxes_detections `{Yolo} (boxes : list Box) (e : Env)
  : option (list Detection) * Env :=
  match boxes with
  | [] => (Some [], e)
  | b :: rest =>
      match detection_of b e with
      | (Some d, e) =>
          match boxes_detections rest e with
          | (Some ds, e) => (Some (d :: ds), e)
          | (None, e) => (None, e)
          end
      | (None, e) => (None, e)
      end
  end.

(** [for result in results] *)
Fixpoint results_detections `{Yolo} (results : list (option (list Box))) (e : Env)
  : option (list Detection) * Env :=
  match results with
  | [] => (Some [], e)
  | None :: rest => results_detections rest e
  | Some boxes :: rest =>
      match boxes_detections boxes e with
      | (Some ds, e) =>
          match results_detections rest e with
          | (Some ds', e) => (Some (ds ++ ds'), e)
          | (None, e) => (None, e)
          end
      | (None, e) => (None, e)
      end
  end.

(** Lines 117-124: the metrics after a detection that went through. *)
Definition record_inference (s : AIProcessor) (inference_time : float) : AIProcessor :=
  let times := inference_times s ++ [inference_time] in
  MkAI (model_loaded s)
    (if Nat.ltb 100 (length times) then drop (length times - 100) times else times)
    (total_inferences s + 1).

(** [frame.size == 0]: the frame has no row or no column. *)
Definition empty_frame (frame : ndarray) : bool := shape0 frame * shape1 frame =? 0.

(** [detect_objects]: any exception inside the [try] gives the empty list
    and leaves the metrics alone. *)
Definition detect_objects `{Lib} `{Yolo} (s : AIProcessor) (e : Env)
    (frame : option ndarray) (confidence_threshold : float)
  : list Detection * AIProcessor * Env :=
  if negb (model_loaded s) then ([], s, e)
  else
    match frame with
    | None => ([], s, e)
    | Some frame =>
        if empty_frame frame then ([], s, e)
        else
          let '(start_time, e) := time_time e in
          match AIProcessor.preprocess_frame frame with
          | None => ([], s, e)
          | Some processed_frame =>
              match model processed_frame confidence_threshold with
              | None => ([], s, e)
              | Some results =>
                  match results_detections results e with
                  | (None, e) => ([], s, e)
                  | (Some detections, e) =>
                      let '(now, e) := time_time e in
                      (detections, record_inference s (PrimFloat.sub now start_time), e)
                  end
              end
          end
    end.

(** The calls a client makes on one processor. *)
Inductive Call :=
  | LoadModel (loaded : bool)
  | DetectObjects (frame : option ndarray) (confidence_threshold : float).

Definition call `{Lib} `{Yolo} (c : Call) (w : AIProcessor * Env) : AIProcessor * Env :=
  match c with
  | LoadModel loaded => (fst (load_model (fst w) loaded), snd w)
  | DetectObjects frame confidence_threshold =>
      let '(_, s, e) := detect_objects (fst w) (snd w) frame confidence_threshold in (s, e)
  end.

End Inference.

(** ** [src/packages/local_app/enhanced_main.py]: the worker, the readers
    and the service as a whole *)

Module EnhancedService.

Definition set_streams (p : Enhanced.StreamProcessor) v : Enhanced.StreamProcessor :=
  Enhanced.MkProcessor v (Enhanced.stream_urls p) (Enhanced.latest_frames p)
    (Enhanced.latest_detections p) (Enhanced.frame_locks p) (Enhanced.processing_threads p)
    (Enhanced.running p) (Enhanced.fps_counters p) (Enhanced.last_fps_time p)
    (Enhanced.detection_fps p) (Enhanced.ai_enabled p) (Enhanced.detection_interval p)
    (Enhanced.frame_counters p).
Definition set_latest_frames (p : Enhanced.StreamProcessor) v : Enhanced.StreamProcessor :=
  Enhanced.MkProcessor (Enhanced.streams p) (Enhanced.stream_urls p) v
    (Enhanced.latest_detections p) (Enhanced.frame_locks p) (Enhanced.processing_threads p)
    (Enhanced.running p) (Enhanced.fps_counters p) (Enhanced.last_fps_time p)
    (Enhanced.detection_fps p) (Enhanced.ai_enabled p) (Enhanced.detection_interval p)
    (Enhanced.frame_counters p).
Definition set_latest_detections (p : Enhanced.StreamProcessor) v : Enhanced.StreamProcessor :=
  Enhanced.MkProcessor (Enhanced.streams p) (Enhanced.stream_urls p) (Enhanced.latest_frames p)
    v (Enhanced.frame_locks p) (Enhanced.processing_threads p)
    (Enhanced.running p) (Enhanced.fps_counters p) (Enhanced.last_fps_time p)
    (Enhanced.detection_fps p) (Enhanced.ai_enabled p) (Enhanced.detection_interval p)
    (Enhanced.frame_counters p).
Definition set_ai_enabled (p : Enhanced.StreamProcessor) v : Enhanced.StreamProcessor :=
  Enhanced.MkProcessor (Enhanced.streams p) (Enhanced.stream_urls p) (Enhanced.latest_frames p)
    (Enhanced.latest_detections p) (Enhanced.frame_locks p) (Enhanced.processing_threads p)
    (Enhanced.running p) (Enhanced.fps_counters p) (Enhanced.last_fps_time p)
    (Enhanced.detection_fps p) v (Enhanced.detection_interval p)
    (Enhanced.frame_counters p).
(** The three assignments of the fps update. *)
Definition set_fps (p : Enhanced.StreamProcessor) fps dfps t : Enhanced.StreamProcessor :=
  Enhanced.MkProcessor (Enhanced.streams p) (Enhanced.stream_urls p) (Enhanced.latest_frames p)
    (Enhanced.latest_detections p) (Enhanced.frame_locks p) (Enhanced.processing_threads p)
    (Enhanced.running p) fps t dfps (Enhanced.ai_enabled p) (Enhanced.detection_interval p)
    (Enhanced.frame_counters p).

(** [_run_ai_detection_sync]: no AI processor is available; an empty list is
    stored under the stream's lock.  Without the lock the [KeyError] is
    caught inside and nothing is stored. *)
Definition _run_ai_detection_sync (p : Enhanced.StreamProcessor) (stream_id : string)
    (frame : nat) : Enhanced.StreamProcessor :=
  if decide (stream_id ∈ Enhanced.frame_locks p) then
    set_latest_detections p (<[stream_id := []]> (Enhanced.latest_detections p))
  else p.

(** The local variables of a worker thread. *)
Record Locals := MkLocals {
  cap : nat;
  frame_count : Z;
  detection_count : Z;
  consecutive_failures : Z;
  frame_counter : Z
}.

Definition max_consecutive_failures : Z := 10.
Definition frame_skip : Z := 2.

(** The locals when the thread enters its loop; [None]: the stream is not
    registered and the thread returns. *)
Definition process_stream_start (p : Enhanced.StreamProcessor) (stream_id : string)
  : option Locals :=
  match Enhanced.streams p !! stream_id with
  | Some cap => Some (MkLocals cap 0 0 0 0)
  | None => None
  end.

(** What one turn of the loop did. *)
Inductive Outcome :=
  | Exited                                  (* the loop condition failed *)
  | Waited                                  (* [continue] after a failed reconnection *)
  | ReadFailed                              (* [cap.read()] gave no frame *)
  | FrameRead (frame : nat) (raised : bool) (* a frame was read; [raised]: the
                                               outer [except] ended the turn *)
  | Raised                                  (* outer [except], before any read *)
  | Died.                                   (* an exception left the handler *)

(** [if self._reconnect_stream(stream_id): cap = self.streams[stream_id];
    consecutive_failures = 0]: [inl] after a success, [inr true] after a
    failure, [inr false] when the lookup raised [KeyError]. *)
Definition reconnect (l : Locals) (p : Enhanced.StreamProcessor) (e : Env)
    (stream_id : string) : Enhanced.StreamProcessor * Env * (Locals + bool) :=
  let '(p, e, ok) := Enhanced._reconnect_stream p e stream_id in
  if ok then
    match Enhanced.streams p !! stream_id with
    | Some c => (p, e, inl (MkLocals c (frame_count l) (detection_count l) 0 (frame_counter l)))
    | None => (p, e, inr false)
    end
  else (p, e, inr true).

(** Lines 297-314, the handler of the outer [try]; the flag tells whether
    an exception left it. *)
Definition on_exception (l : Locals) (p : Enhanced.StreamProcessor) (e : Env)
    (stream_id : string) : Locals * Enhanced.StreamProcessor * Env * bool :=
  let l := MkLocals (cap l) (frame_count l) (detection_count l)
             (consecutive_failures l + 1) (frame_counter l) in
  if max_consecutive_failures <=? consecutive_failures l then
    match reconnect l p e stream_id with
    | (p, e, inl l) => (l, p, e, false)
    | (p, e, inr true) => (l, p, e, false)
    | (p, e, inr false) => (l, p, e, true)
    end
  else (l, p, e, false).

(** The outer [except] after a frame was read, or before. *)
Definition raise_after (frame : option nat) (l : Locals) (p : Enhanced.StreamProcessor)
    (e : Env) (stream_id : string) : Locals * Enhanced.StreamProcessor * Env * Outcome :=
  let '(l, p, e, died) := on_exception l p e stream_id in
  (l, p, e, if died then Died
            else match frame with
                 | Some frame => FrameRead frame true
                 | None => Raised
                 end).

(** Lines 284-292: the fps update. *)
Definition update_fps (l : Locals) (p : Enhanced.StreamProcessor) (e : Env)
    (stream_id : string) (frame : nat)
  : Locals * Enhanced.StreamProcessor * Env * Outcome :=
  let l := MkLocals (cap l) (frame_count l + 1) (detection_count l)
             (consecutive_failures l) (frame_counter l) in
  let '(current_time, e) := time_time e in
  match Enhanced.last_fps_time p !! stream_id with
  | None => raise_after (Some frame) l p e stream_id
  | Some last =>
      if PrimFloat.leb 1%float (PrimFloat.sub current_time last) then
        let p := set_fps p (<[stream_id := frame_count l]> (Enhanced.fps_counters p))
                   (<[stream_id := detection_count l]> (Enhanced.detection_fps p))
                   (<[stream_id := current_time]> (Enhanced.last_fps_time p)) in
        (MkLocals (cap l) 0 0 (consecutive_failures l) (frame_counter l), p, e,
         FrameRead frame false)
      else (l, p, e, FrameRead frame false)
  end.

(** Lines 262-292: what follows a successful read of [frame]. *)
Definition on_frame (l : Locals) (p : Enhanced.StreamProcessor) (e : Env)
    (stream_id : string) (enable_ai : bool) (frame : nat)
  : Locals * Enhanced.StreamProcessor * Env * Outcome :=
  let l := MkLocals (cap l) (frame_count l) (detection_count l) 0 (frame_counter l) in
  if decide (stream_id ∈ Enhanced.frame_locks p) then
    match ndarray_copy e frame with
    | Some (c, e) =>
        let p := set_latest_frames p (<[stream_id := c]> (Enhanced.latest_frames p)) in
        if enable_ai && Enhanced.ai_enabled p then
          let l := MkLocals (cap l) (frame_count l) (detection_count l)
                     (consecutive_failures l) (frame_counter l + 1) in
          if frame_counter l `mod` frame_skip =? 0 then
            match ndarray_copy e frame with
            | Some (c', e) =>
                let p := _run_ai_detection_sync p stream_id c' in
                let l := MkLocals (cap l) (frame_count l) (detection_count l + 1)
                           (consecutive_failures l) (frame_counter l) in
                update_fps l p e stream_id frame
            | None =>                       (* inner except: logged *)
                let l := MkLocals (cap l) (frame_count l) (detection_count l + 1)
                           (consecutive_failures l) (frame_counter l) in
                update_fps l p e stream_id frame
            end
          else update_fps l p e stream_id frame
        else update_fps l p e stream_id frame
    | None => raise_after (Some frame) l p e stream_id
    end
  else raise_after (Some frame) l p e stream_id.

(** Lines 242-261: the read and what follows a failed one. *)
Definition read_frame (l : Locals) (p : Enhanced.StreamProcessor) (e : Env)
    (stream_id : string) (enable_ai : bool)
  : Locals * Enhanced.StreamProcessor * Env * Outcome :=
  match cap_read e (cap l) with
  | (Some frame, e) => on_frame l p e stream_id enable_ai frame
  | (None, e) =>
      let l := MkLocals (cap l) (frame_count l) (detection_count l)
                 (consecutive_failures l + 1) (frame_counter l) in
      if max_consecutive_failures <=? consecutive_failures l then
        match reconnect l p e stream_id with
        | (p, e, inl l) => (l, p, e, ReadFailed)
        | (p, e, inr true) => (l, p, e, Waited)
        | (p, e, inr false) => raise_after None l p e stream_id
        end
      else (l, p, e, ReadFailed)
  end.

(** One turn of [while self.running and stream_id in self.streams]; the
    sleeps leave no trace. *)
Definition process_stream_iter (l : Locals) (p : Enhanced.StreamProcessor) (e : Env)
    (stream_id : string) (enable_ai : bool)
  : Locals * Enhanced.StreamProcessor * Env * Outcome :=
  if negb (Enhanced.running p && bool_decide (stream_id ∈ dom (Enhanced.streams p)))
  then (l, p, e, Exited)
  else if negb (cap_isOpened e (cap l)) then
    match reconnect l p e stream_id with
    | (p, e, inl l) => read_frame l p e stream_id enable_ai
    | (p, e, inr true) => (l, p, e, Waited)
    | (p, e, inr false) => raise_after None l p e stream_id
    end
  else read_frame l p e stream_id enable_ai.

(** [get_latest_frame]: the reference returned is to a fresh copy. *)
Definition get_latest_frame (p : Enhanced.StreamProcessor) (e : Env) (stream_id : string)
  : option nat * Env :=
  if decide (stream_id ∈ Enhanced.frame_locks p) then
    match Enhanced.latest_frames p !! stream_id with
    | Some r =>
        match ndarray_copy e r with
        | Some (r', e') => (Some r', e')
        | None => (None, e)
        end
    | None => (None, e)
    end
  else (None, e).

(** [get_latest_detections] *)
Definition get_latest_detections (p : Enhanced.StreamProcessor) (stream_id : string)
  : list unit :=
  if decide (stream_id ∈ Enhanced.frame_locks p) then
    default [] (Enhanced.latest_detections p !! stream_id)
  else [].

(** [GET /stream/{stream_id}/frame]: the quality is fixed at 60, and an
    encoder that raises gives a 500. *)
Definition get_stream_frame `{Lib} (p : Enhanced.StreamProcessor) (e : Env)
    (stream_id : string) : Response * Env :=
  match get_latest_frame p e stream_id with
  | (None, e) => (HTTPException 404 "Stream not found or no frame available", e)
  | (Some frame, e) =>
      match heap e !! frame with
      | Some a =>
          match imencode a 60 with
          | Some buffer => (JpegResponse buffer, e)
          | None => (HTTPException 500 "Error encoding frame", e)
          end
      | None => (HTTPException 500 "Error encoding frame", e)
      end
  end.

(** [GET /stream/{stream_id}/detections]: the id, the detections and their
    count.  The list is never [None], so the 404 of the source is never
    raised. *)
Definition get_stream_detections (p : Enhanced.StreamProcessor) (stream_id : string)
  : string * list unit * nat :=
  let detections := get_latest_detections p stream_id in
  (stream_id, detections, length detections).

(** [POST /toggle_ai] *)
Definition toggle_ai (p : Enhanced.StreamProcessor) (enabled : bool)
  : Enhanced.StreamProcessor * (bool * bool) :=
  (set_ai_enabled p enabled, (true, enabled)).

(** The operations that run against one enhanced processor, each taken as
    one atomic step. *)
Inductive Action :=
  | AddStream (stream_id rtsp_url : string) (enable_ai : bool)
  | PostAddStream (stream_id rtsp_url : string) (enable_ai : bool)
  | RemoveStream (stream_id : string)
  | WorkerTurn (stream_id : string) (enable_ai : bool) (l : Locals)
  | ReadFrame (stream_id : string)
  | ToggleAi (enabled : bool).

Definition act `{Lib} (a : Action) (w : Enhanced.StreamProcessor * Env)
  : Enhanced.StreamProcessor * Env :=
  let '(p, e) := w in
  match a with
  | AddStream stream_id rtsp_url enable_ai =>
      let '(p, e, _) := Enhanced.add_stream p e stream_id rtsp_url enable_ai in (p, e)
  | PostAddStream stream_id rtsp_url enable_ai =>
      let '(p, e, _) := Enhanced.Api.add_stream p e stream_id rtsp_url enable_ai in (p, e)
  | RemoveStream stream_id =>
      let '(p, e, _) := Enhanced.remove_stream p e stream_id in (p, e)
  | WorkerTurn stream_id enable_ai l =>
      let '(_, p, e, _) := process_stream_iter l p e stream_id enable_ai in (p, e)
  | ReadFrame stream_id =>
      let '(_, e) := get_latest_frame p e stream_id in (p, e)
  | ToggleAi enabled => (fst (toggle_ai p enabled), e)
  end.

(** The states the enhanced service can be in. *)
Inductive reachable `{Lib} : Enhanced.StreamProcessor * Env -> Prop :=
  | reachable_init (e : Env) : heap e = [] -> reachable (Enhanced.init, e)
  | reachable_act (a : Action) (w : Enhanced.StreamProcessor * Env) :
      reachable w -> reachable (act a w).

End EnhancedService.

(** ** [src/local_app/simple_service.py]: the listing, the info endpoint and
    the MJPEG stream *)

Module Adapters.

(** [get_all_streams_info]: one entry per key of [self.streams].  The order
    of the entries is that of the dictionary and is not modelled. *)
Definition get_all_streams_info (p : Optimized.StreamProcessor) (e : Env) : list StreamInfo :=
  (λ stream_id, Optimized.get_stream_info p e stream_id)
    <$> elements (dom (Optimized.streams p)).

(** [GET /streams]: the entries and [len(stream_processor.streams)]. *)
Definition list_streams (p : Optimized.StreamProcessor) (e : Env) : list StreamInfo * nat :=
  (get_all_streams_info p e, size (Optimized.streams p)).

(** The reply of [GET /stream/{stream_id}/info]. *)
Inductive InfoReply :=
  | InfoBody (info : StreamInfo)
  | InfoException (status_code : Z) (detail : string).

Definition get_stream_info (p : Optimized.StreamProcessor) (e : Env) (stream_id : string)
  : InfoReply :=
  match Optimized.get_stream_info p e stream_id with
  | InfoError detail => InfoException 404 detail
  | info => InfoBody info
  end.

(** [bytes.decode('latin1')] and [str.encode('latin1')]: one character per
    byte.  The strings encoded here hold no character above 255. *)
Definition decode_latin1 (b : bytes) : string := String.string_of_list_byte b.
Definition encode_latin1 (s : string) : bytes := String.list_byte_of_string s.

Definition crlf : string := String "013" (String "010" "").

Definition boundary : string := "frame".

Definition mjpeg_header : string :=
  "--" +:+ boundary +:+ crlf +:+ "Content-Type: image/jpeg" +:+ crlf +:+ crlf.

(** [GET /stream/{stream_id}/mjpeg]: [Some] is the exception raised, [None]
    the streaming response over [generate_mjpeg]. *)
Definition mjpeg_stream (p : Optimized.StreamProcessor) (stream_id : string)
  : option Response :=
  if decide (stream_id ∈ dom (Optimized.streams p)) then None
  else Some (HTTPException 404 "Stream not found").

(** How a turn of the generator's loop ends. *)
Inductive Next :=
  | Continue      (* the sleep returned *)
  | Break         (* the stream is gone *)
  | Raise.        (* an exception left the generator *)

(** One turn of [while True] in [generate_mjpeg]: the part yielded, if any.
    [cv2.imencode] may raise before the yield, [1.0 / max_fps] after it. *)
Definition generate_mjpeg_iter `{Lib} (p : Optimized.StreamProcessor) (e : Env)
    (stream_id : string) : option bytes * Env * Next :=
  if decide (stream_id ∈ dom (Optimized.streams p)) then
    match Optimized.get_latest_frame p e stream_id with
    | (Some frame, e) =>
        match heap e !! frame with
        | Some a =>
            match imencode a (Optimized.jpeg_quality p) with
            | Some frame_bytes =>
                (Some (encode_latin1 (mjpeg_header +:+ decode_latin1 frame_bytes +:+ crlf)),
                 e, if Optimized.max_fps p =? 0 then Raise else Continue)
            | None => (None, e, Raise)
            end
        | None => (None, e, Raise)
        end
    | (None, e) => (None, e, if Optimized.max_fps p =? 0 then Raise else Continue)
    end
  else (None, e, Break).

End Adapters.

(** ** A concrete service, for runs of the operations *)

Module Scenario.

Definition byte_of (z : Z) : Byte.byte :=
  default Byte.x00 (Byte.of_nat (Z.to_nat (z `mod` 256))).

(** A stand-in codec: the "JPEG" of a frame is its quality, its height and
    width (two bytes each) and its samples; a resize keeps the first sample. *)
Definition lib : Lib := {|
  imencode a q :=
    Some (byte_of q :: byte_of (shape0 a / 256) :: byte_of (shape0 a)
            :: byte_of (shape1 a / 256) :: byte_of (shape1 a) :: pixels a);
  resample a w h := take 1 (pixels a);
  urlparse_hostname u :=
    if String.prefix "rtsp://" u then Some (Some "camera.local") else Some None;
  urlparse_error u := "";
  unquote u := u
|}.

Definition small : ndarray := Ndarray 2 3 [Byte.x01; Byte.x02; Byte.x03; Byte.x04; Byte.x05; Byte.x06].
Definition tiny : ndarray := Ndarray 1 1 [Byte.x2a].
Definition landscape : ndarray := Ndarray 1080 1920 [Byte.x10].
Definition portrait : ndarray := Ndarray 1920 720 [Byte.x20].

(** The stand-in JPEG of a frame at the processor's quality. *)
Definition jpeg (a : ndarray) : bytes := default [] (@imencode lib a 40).

Definition url : string := "rtsp://camera.local/h264Preview_01_sub".

(** The camera at [url] opens and delivers four frames, then a failed read;
    under any other address nothing opens.  The clock advances 40 ms per
    reading. *)
Definition env : Env :=
  MkEnv [] []
    (λ _ u, if String.eqb u url
            then Capture true [Some small; Some tiny; Some landscape; Some portrait; None] 3 2
            else Capture false [] 0 0)
    (λ n, PrimFloat.div (float_of_int (Z.of_nat n)) 25%float)
    0 [] [Sock true []; Sock false []] [] true.

(** A world whose cameras open but never deliver a frame. *)
Definition mute_env : Env :=
  MkEnv [] [] (λ _ _, Capture true [] 0 0) (λ n, float_of_int (Z.of_nat n)) 0 [] [] [] true.

(** The service after [add_stream("cam1", url)]. *)
Definition added : Optimized.StreamProcessor * Env :=
  Optimized.act (H := lib) (Optimized.AddStream "cam1" url) (Optimized.init, env).

(** The locals of the worker of "cam1" when it enters its loop, and the
    state then. *)
Definition started : Optimized.Locals * (Optimized.StreamProcessor * Env) :=
  (fst (Optimized.process_stream_start (snd added)),
   Optimized.act (H := lib) Optimized.WorkerStart added).

(** [n] turns of the worker of "cam1". *)
Fixpoint turns (n : nat) (s : Optimized.Locals * (Optimized.StreamProcessor * Env))
  : Optimized.Locals * (Optimized.StreamProcessor * Env) :=
  match n with
  | O => s
  | S n =>
      let s := turns n s in
      (fst (fst (fst (Optimized.process_stream_iter (H := lib)
                        (fst s) (fst (snd s)) (snd (snd s)) "cam1"))),
       Optimized.act (H := lib) (Optimized.WorkerTurn "cam1" (fst s)) (snd s))
  end.

(** A consumer connects to "cam1" on socket 0 and gets the info message;
    then its peer goes away. *)
Definition subscribed : Optimized.Handler * (Optimized.StreamProcessor * Env) :=
  Optimized.run (H := lib) [None] "cam1" 0 Optimized.Accepted added.

Definition gone : Optimized.StreamProcessor * Env :=
  Optimized.act (H := lib) (Optimized.Disconnect 0) (snd subscribed).

End Scenario.

(** ** More concrete states *)

Module Runs.

(** Two streams from the same camera address: "cam1" with its worker
    started, and "cam2". *)
Definition two : Optimized.StreamProcessor * Env :=
  Optimized.act (H := Scenario.lib) (Optimized.AddStream "cam2" Scenario.url)
    (snd Scenario.started).

(** A camera that opens once, delivers one frame and then closes, and
    cannot be opened again. *)
Definition flaky_env : Env :=
  MkEnv [] []
    (λ n _, if (n =? 0)%nat then Capture true [Some Scenario.small] 3 2
            else Capture false [] 0 0)
    (λ n, float_of_int (Z.of_nat n))
    0 [] [Sock true []] [] true.

(** "door" added on the flaky camera, and the same after the camera has
    closed the capture. *)
Definition door : Optimized.StreamProcessor * Env :=
  Optimized.act (H := Scenario.lib) (Optimized.AddStream "door" Scenario.url)
    (Optimized.init, flaky_env).

Definition door_closed : Optimized.StreamProcessor * Env :=
  (fst door, cap_release (snd door) 0).

(** A client that percent-encodes the colon of the scheme: [unquote] gives
    back the address of the camera. *)
Definition encoded_url : string := "rtsp%3A//camera.local/h264Preview_01_sub".

Definition decoding_lib : Lib := {|
  imencode := @imencode Scenario.lib;
  resample := @resample Scenario.lib;
  urlparse_hostname := @urlparse_hostname Scenario.lib;
  urlparse_error := @urlparse_error Scenario.lib;
  unquote u := if String.eqb u encoded_url then Scenario.url else u
|}.

(** A model that finds one car and one person in every frame, and knows
    the names of these two classes only. *)
Definition yolo : Inference.Yolo := {|
  Inference.model _ _ :=
    Some [Some [Inference.MkBox 10.5 20.25 110.75 220 0.875 2;
                Inference.MkBox 1 2 3 4 0.5 0]];
  Inference.names c := if c =? 2 then Some "car"%string
                       else if c =? 0 then Some "person"%string else None
|}.

(** The enhanced service with "lobby" added, AI requested, and [n] turns of
    its worker. *)
Definition lobby : Enhanced.StreamProcessor * Env :=
  EnhancedService.act (H := Scenario.lib)
    (EnhancedService.AddStream "lobby" Scenario.url true) (Enhanced.init, Scenario.env).

Fixpoint lobby_turns (n : nat) : EnhancedService.Locals * (Enhanced.StreamProcessor * Env) :=
  match n with
  | O => (default (EnhancedService.MkLocals 0 0 0 0 0)
            (EnhancedService.process_stream_start (fst lobby) "lobby"), lobby)
  | S n =>
      let s := lobby_turns n in
      (fst (fst (fst (EnhancedService.process_stream_iter
                        (fst s) (fst (snd s)) (snd (snd s)) "lobby" true))),
       EnhancedService.act (H := Scenario.lib)
         (EnhancedService.WorkerTurn "lobby" true (fst s)) (snd s))
  end.

End Runs.

(** ** Vocabulary for the independence of streams *)

(** Everything the optimized processor holds under the id [other] is in [p']
    as it is in [p]. *)
Definition untouched (other : string) (p p' : Optimized.StreamProcessor) : Prop :=
  Optimized.streams p' !! other = Optimized.streams p !! other ∧
  Optimized.stream_urls p' !! other = Optimized.stream_urls p !! other ∧
  Optimized.latest_frames p' !! other = Optimized.latest_frames p !! other ∧
  (other ∈ Optimized.frame_locks p' ↔ other ∈ Optimized.frame_locks p) ∧
  Optimized.processing_threads p' !! other = Optimized.processing_threads p !! other ∧
  Optimized.frame_queues p' !! other = Optimized.frame_queues p !! other ∧
  Optimized.active_connections p' !! other = Optimized.active_connections p !! other ∧
  Optimized.fps_counters p' !! other = Optimized.fps_counters p !! other ∧
  Optimized.last_fps_time p' !! other = Optimized.last_fps_time p !! other ∧
  Optimized.consecutive_failures p' !! other = Optimized.consecutive_failures p !! other.

(** ** Vocabulary for ids the processor does not know *)

(** No registry of the optimized processor has an entry for [stream_id]
    (the three counter dictionaries apart). *)
Definition absent (stream_id : string) (p : Optimized.StreamProcessor) : Prop :=
  Optimized.streams p !! stream_id = None ∧
  Optimized.stream_urls p !! stream_id = None ∧
  Optimized.latest_frames p !! stream_id = None ∧
  (stream_id ∉ Optimized.frame_locks p) ∧
  Optimized.processing_threads p !! stream_id = None ∧
  Optimized.frame_queues p !! stream_id = None ∧
  Optimized.active_connections p !! stream_id = None.

(** No dictionary of the enhanced processor has an entry for [stream_id]. *)
Definition absent_enhanced (stream_id : string) (p : Enhanced.StreamProcessor) : Prop :=
  Enhanced.streams p !! stream_id = None ∧
  Enhanced.stream_urls p !! stream_id = None ∧
  Enhanced.latest_frames p !! stream_id = None ∧
  Enhanced.latest_detections p !! stream_id = None ∧
  (stream_id ∉ Enhanced.frame_locks p) ∧
  Enhanced.processing_threads p !! stream_id = None ∧
  Enhanced.fps_counters p !! stream_id = None ∧
  Enhanced.last_fps_time p !! stream_id = None ∧
  Enhanced.detection_fps p !! stream_id = None ∧
  Enhanced.frame_counters p !! stream_id = None.

(** ** Checking the long edge [preprocess_frame] produces *)

Module Bounds.

(** [int(x * scale)] with [scale = 1280 / long_edge], as [preprocess_frame]
    computes it. *)
Definition scaled (x long_edge : Z) : option Z :=
  int_of_float (PrimFloat.mul (float_of_int x)
                  (PrimFloat.div (float_of_int 1280) (float_of_int long_edge))).

(** The long edge scales to 1280, or to 1279; up to 2138 to 1280. *)
Definition edge_ok (long_edge : Z) : bool :=
  match scaled long_edge long_edge with
  | Some z => (z =? 1280) || ((z =? 1279) && (2138 <? long_edge))
  | None => false
  end.

Fixpoint edges_ok (fuel : nat) (long_edge : Z) : bool :=
  match fuel with
  | O => true
  | S n => edge_ok long_edge && edges_ok n (long_edge + 1)
  end.

End Bounds.

(** ** Vocabulary for the enhanced service *)

(** Every detection list the enhanced processor stores is empty. *)
Definition no_detections (p : Enhanced.StreamProcessor) : Prop :=
  ∀ id ds, Enhanced.latest_detections p !! id = Some ds → ds = [].

(** What a worker of the enhanced processor leaves as it is: the set of
    registered streams, the addresses, the locks, the two switches; and a
    detection list it stores is empty. *)
Definition worker_keeps (p p' : Enhanced.StreamProcessor) : Prop :=
  dom (Enhanced.streams p') = dom (Enhanced.streams p) ∧
  Enhanced.stream_urls p' = Enhanced.stream_urls p ∧
  Enhanced.frame_locks p' = Enhanced.frame_locks p ∧
  Enhanced.running p' = Enhanced.running p ∧
  Enhanced.ai_enabled p' = Enhanced.ai_enabled p ∧
  ∀ id ds, Enhanced.latest_detections p' !! id = Some ds →
           ds = [] ∨ Enhanced.latest_detections p !! id = Some ds.

(** * Properties *)

(** ** The per-stream JPEG quality *)

Lemma clamp_range (quality : Z) : 1 ≤ Quality.clamp quality ≤ 100.
Proof. unfold Quality.clamp. lia. Qed.

Lemma set_stream_quality_valid p stream_id quality :
  Quality.qualities_valid p →
  Quality.qualities_valid (fst (Quality.set_stream_quality p stream_id quality)).
Proof.
  intros Hv. unfold Quality.set_stream_quality.
  destruct (decide (stream_id ∈ dom (Quality.streams p))) as [Hin|Hout]; simpl; [|exact Hv].
  intros id q. simpl. rewrite lookup_insert.
  destruct (decide (stream_id = id)) as [->|Hne]; simpl.
  - intros [= <-]. apply clamp_range.
  - apply Hv.
Qed.

Lemma set_quality_valid p stream_id quality :
  Quality.qualities_valid p →
  Quality.qualities_valid (fst (Quality.set_quality p stream_id quality)).
Proof.
  intros Hv. unfold Quality.set_quality.
  set (p1 := if decide (stream_id ∈ dom (Quality.streams p)) then p else _).
  assert (Hv1 : Quality.qualities_valid p1).
  { subst p1. destruct (decide _); [exact Hv|]. exact Hv. }
  pose proof (set_stream_quality_valid p1 stream_id (Quality.clamp quality) Hv1) as H.
  destruct (Quality.set_stream_quality p1 stream_id (Quality.clamp quality)) as [p2 b].
  exact H.
Qed.

Lemma reachable_qualities_valid p : Quality.reachable p → Quality.qualities_valid p.
Proof.
  induction 1 as [|p id q _ IH|p id q _ IH].
  - intros id q. unfold Quality.stream_processor. simpl. rewrite lookup_empty. discriminate.
  - by apply set_stream_quality_valid.
  - by apply set_quality_valid.
Qed.

(** C10: in every state of the quality service, [set_stream_quality] on a
    registered stream returns true and stores exactly
    [max(1, min(100, quality))] for it, leaving every other entry as it was;
    on an unregistered stream it returns false and changes nothing; and in
    the state it leaves every stored quality lies between 1 and 100. *)
Theorem C10_set_stream_quality_clamped (p : Quality.StreamProcessor)
    (stream_id : string) (quality : Z) :
  Quality.reachable p →
  let '(p', ok) := Quality.set_stream_quality p stream_id quality in
  (stream_id ∈ dom (Quality.streams p) →
     ok = true ∧
     Quality.stream_qualities p' !! stream_id = Some (Z.max 1 (Z.min 100 quality)) ∧
     1 ≤ Z.max 1 (Z.min 100 quality) ≤ 100 ∧
     Quality.streams p' = Quality.streams p ∧
     ∀ other, other ≠ stream_id →
       Quality.stream_qualities p' !! other = Quality.stream_qualities p !! other) ∧
  (stream_id ∉ dom (Quality.streams p) → ok = false ∧ p' = p) ∧
  (∀ id q, Quality.stream_qualities p' !! id = Some q → 1 ≤ q ≤ 100).
Proof.
  intros Hr.
  pose proof (set_stream_quality_valid p stream_id quality
                (reachable_qualities_valid p Hr)) as Hv.
  unfold Quality.set_stream_quality in *.
  destruct (decide (stream_id ∈ dom (Quality.streams p))) as [Hin|Hout]; simpl in *.
  - split; [|split]; [|tauto|exact Hv].
    intros _. repeat split; try lia.
    + by rewrite lookup_insert_eq.
    + intros other Hne. by rewrite lookup_insert_ne.
  - split; [tauto|]. split; [done|exact Hv].
Qed.

(** A run of the quality service: the test stream gets quality 250, stored
    as 100. *)
Lemma C10_set_stream_quality_clamped_witness :
  let '(p', ok) := Quality.set_stream_quality Quality.stream_processor "test_stream" 250 in
  ok = true ∧ Quality.stream_qualities p' !! "test_stream" = Some 100.
Proof.
  pose proof (C10_set_stream_quality_clamped Quality.stream_processor "test_stream" 250
                Quality.reachable_init) as H.
  destruct (Quality.set_stream_quality Quality.stream_processor "test_stream" 250)
    as [p' ok] eqn:E.
  destruct H as [H _].
  assert (Hin : "test_stream" ∈ dom (Quality.streams Quality.stream_processor)).
  { vm_compute. reflexivity. }
  destruct (H Hin) as (Hok & Hq & _).
  split; [exact Hok|exact Hq].
Defined.

(** ** The world outside the processor: what each primitive leaves alone *)

Lemma heap_cap_release e h : heap (cap_release e h) = heap e.
Proof. unfold cap_release. by destruct (caps e !! h). Qed.

(** A read either leaves the store alone or appends the frame it returns. *)
Lemma cap_read_heap e h :
  match cap_read e h with
  | (Some r, e') => r = length (heap e) ∧ ∃ a, heap e' = heap e ++ [a]
  | (None, e') => heap e' = heap e
  end.
Proof.
  unfold cap_read. destruct (caps e !! h) as [c|]; [|done].
  destruct (isOpened c); [|done]. destruct (feed c) as [|[a|] rest]; simpl; eauto.
Qed.

(** A released capture reads nothing and is not opened. *)
Lemma cap_isOpened_release e h : cap_isOpened (cap_release e h) h = false.
Proof.
  unfold cap_isOpened, cap_release.
  destruct (caps e !! h) as [c|] eqn:Hc; simpl; [|by rewrite Hc].
  rewrite list_lookup_insert_eq; [done|]. by eapply lookup_lt_Some.
Qed.

Lemma cap_isOpened_open_new e url :
  cap_isOpened (snd (VideoCapture_open e url)) (fst (VideoCapture_open e url))
  = isOpened (camera e (length (caps e)) url).
Proof.
  unfold cap_isOpened, VideoCapture_open. simpl.
  rewrite lookup_app_r; [|lia]. by rewrite Nat.sub_diag.
Qed.

(** [frame.copy()] appends an equal array and returns the new reference. *)
Lemma ndarray_copy_spec e r a :
  heap e !! r = Some a →
  ndarray_copy e r = Some (length (heap e), set_heap e (heap e ++ [a])).
Proof. intros Hr. unfold ndarray_copy, alloc. by rewrite Hr. Qed.

(** ** The bounded queue *)

Lemma full_iff q :
  full q = true ↔ 0 < maxsize q ∧ maxsize q ≤ Z.of_nat (length (items q)).
Proof. unfold full. rewrite andb_true_iff, Z.ltb_lt, Z.leb_le. tauto. Qed.

Lemma bounded_new : bounded (Queue_new 2).
Proof. split; simpl; [done|lia]. Qed.

Lemma get_nowait_bounded q x q' :
  get_nowait q = Some (x, q') → bounded q → bounded q'.
Proof.
  unfold get_nowait, bounded. destruct q as [m its]. simpl.
  destruct its as [|y rest]; [done|]. intros [= _ <-] [-> Hl]. simpl in *. split; [done|lia].
Qed.

(** Making room and then inserting, as lines 271-275 and 288 do: on a full
    queue the oldest item goes, and the insertion never meets a full queue. *)
Lemma evict_then_put q x :
  bounded q →
  let q1 := if full q then
              match get_nowait q with
              | Some (_, q') => q'
              | None => q
              end
            else q in
  bounded q1 ∧
  put_nowait q1 x =
    Some (MkQueue 2 (match items q with
                     | [x1; x2] => [x2; x]
                     | its => its ++ [x]
                     end)).
Proof.
  intros [Hm Hl]. destruct q as [m its]. simpl in *. subst m.
  destruct its as [|x1 [|x2 [|x3 its]]]; simpl in Hl; try lia;
    vm_compute; repeat split; lia.
Qed.

(** ** The optimized processor: what each operation leaves alone *)

Lemma enqueue_frame_only_queues `{Lib} p a stream_id :
  ∃ qs, Optimized.enqueue_frame p a stream_id = Optimized.set_frame_queues p qs.
Proof.
  unfold Optimized.enqueue_frame.
  destruct (Optimized.frame_queues p !! stream_id) as [q|].
  - destruct (Optimized.resize_for_queue a) as [a'|]; [|eauto].
    destruct (imencode a' _) as [b|]; [|eauto].
    destruct (put_nowait _ b); eauto.
  - exists (Optimized.frame_queues p). by destruct p.
Qed.

Lemma enqueue_frame_bounded `{Lib} p a stream_id :
  (∀ id q, Optimized.frame_queues p !! id = Some q → bounded q) →
  ∀ id q, Optimized.frame_queues (Optimized.enqueue_frame p a stream_id) !! id = Some q →
          bounded q.
Proof.
  intros Hb id q. unfold Optimized.enqueue_frame.
  destruct (Optimized.frame_queues p !! stream_id) as [q0|] eqn:Hq0; [|apply Hb].
  pose proof (Hb _ _ Hq0) as Hb0.
  set (q1 := if full q0 then _ else q0).
  assert (Hb1 : bounded q1).
  { subst q1. destruct (full q0); [|done].
    destruct (get_nowait q0) as [[x q']|] eqn:Hg; [|done].
    by eapply get_nowait_bounded. }
  assert (Hstay : ∀ id q,
    Optimized.frame_queues
      (Optimized.set_frame_queues p (<[stream_id := q1]> (Optimized.frame_queues p))) !! id
      = Some q → bounded q).
  { intros id' q'. simpl. rewrite lookup_insert.
    destruct (decide (stream_id = id')); simpl; [by intros [= <-]|apply Hb]. }
  destruct (Optimized.resize_for_queue a) as [a'|]; [|apply Hstay].
  destruct (imencode a' _) as [b|]; [|apply Hstay].
  destruct (put_nowait q1 b) as [q2|] eqn:Hp; [|apply Hstay].
  simpl. rewrite lookup_insert.
  destruct (decide (stream_id = id)); simpl; [|apply Hb].
  intros [= <-]. unfold put_nowait in Hp. destruct (full q1) eqn:Hf; [done|].
  injection Hp as <-. destruct Hb1 as [Hm Hl]. split; [done|]. simpl.
  rewrite length_app. simpl.
  assert (¬ (0 < maxsize q1 ∧ maxsize q1 ≤ Z.of_nat (length (items q1)))) as Hn.
  { rewrite <- full_iff. by rewrite Hf. }
  lia.
Qed.

(** When the frame encodes, the queue of the stream ends with the new item,
    and a queue that was full has lost exactly its oldest item. *)
Lemma enqueue_frame_pushes `{Lib} p a stream_id q a' b :
  Optimized.frame_queues p !! stream_id = Some q → bounded q →
  Optimized.resize_for_queue a = Some a' →
  imencode a' (Optimized.jpeg_quality p) = Some b →
  Optimized.enqueue_frame p a stream_id =
    Optimized.set_frame_queues p
      (<[stream_id := MkQueue 2 (match items q with
                                 | [x1; x2] => [x2; b]
                                 | its => its ++ [b]
                                 end)]> (Optimized.frame_queues p)).
Proof.
  intros Hq Hb Hr He. unfold Optimized.enqueue_frame. rewrite Hq, Hr, He.
  destruct (evict_then_put q b Hb) as [_ Hput]. simpl in Hput. by rewrite Hput.
Qed.

Lemma del_if_in_delete {V} (k : string) (d : gmap string V) :
  Optimized.del_if_in k d = delete k d.
Proof.
  unfold Optimized.del_if_in. destruct (decide (k ∈ dom d)) as [|Hn]; [done|].
  symmetry. apply delete_id. by apply not_elem_of_dom.
Qed.

(** A reconnection touches the registry entry of its own stream, the failure
    counter and the captures, nothing else. *)
Lemma reconnect_frame p e stream_id :
  let '(p', e', _) := Optimized._reconnect_stream p e stream_id in
  Optimized.frame_locks p' = Optimized.frame_locks p ∧
  Optimized.frame_queues p' = Optimized.frame_queues p ∧
  Optimized.latest_frames p' = Optimized.latest_frames p ∧
  Optimized.active_connections p' = Optimized.active_connections p ∧
  heap e' = heap e ∧
  ∀ id, id ∈ dom (Optimized.streams p') → id = stream_id ∨ id ∈ dom (Optimized.streams p).
Proof.
  unfold Optimized._reconnect_stream.
  destruct (Optimized.stream_urls p !! stream_id) as [url|]; [|by auto 10].
  destruct (Optimized.streams p !! stream_id) as [old|] eqn:Hs; simpl.
  - destruct (negb _); simpl; rewrite ?heap_cap_release; repeat split; try done.
    + intros id. rewrite dom_delete_L, elem_of_difference. tauto.
    + intros id. rewrite dom_insert_L, dom_delete_L, elem_of_union, elem_of_singleton,
        elem_of_difference. tauto.
  - destruct (negb _); simpl; repeat split; try done; auto.
    intros id. rewrite dom_insert_L, elem_of_union, elem_of_singleton. tauto.
Qed.

Lemma try_reconnect_frame gap mark l p e stream_id :
  let '(_, p', e') := Optimized.try_reconnect gap mark l p e stream_id in
  Optimized.frame_locks p' = Optimized.frame_locks p ∧
  Optimized.frame_queues p' = Optimized.frame_queues p ∧
  Optimized.latest_frames p' = Optimized.latest_frames p ∧
  Optimized.active_connections p' = Optimized.active_connections p ∧
  heap e' = heap e ∧
  ∀ id, id ∈ dom (Optimized.streams p') → id = stream_id ∨ id ∈ dom (Optimized.streams p).
Proof.
  unfold Optimized.try_reconnect. simpl.
  destruct (PrimFloat.ltb _ _); [|by auto 10].
  pose proof (reconnect_frame p (set_ticks e (S (ticks e))) stream_id) as H.
  destruct (Optimized._reconnect_stream _ _ _) as [[p' e'] ok].
  destruct ok; simpl; [destruct mark|]; simpl; exact H.
Qed.

Lemma consistent_frame (p p' : Optimized.StreamProcessor) (e e' : Env) stream_id :
  Optimized.consistent (p, e) →
  stream_id ∈ Optimized.frame_locks p →
  Optimized.frame_locks p' = Optimized.frame_locks p →
  Optimized.frame_queues p' = Optimized.frame_queues p →
  Optimized.latest_frames p' = Optimized.latest_frames p →
  heap e' = heap e →
  (∀ id, id ∈ dom (Optimized.streams p') → id = stream_id ∨ id ∈ dom (Optimized.streams p)) →
  Optimized.consistent (p', e').
Proof.
  intros [Hl Hq Hf] Hin El Eq Ef Eh Hs. split; simpl in *.
  - intros id Hid. rewrite El. destruct (Hs id Hid) as [->|Hd]; [done|by apply Hl].
  - rewrite Eq. exact Hq.
  - rewrite Ef, Eh. exact Hf.
Qed.

(** The store only grows: a consistent state stays so when arrays are added. *)
Lemma consistent_grow (p : Optimized.StreamProcessor) (e e' : Env) ext :
  Optimized.consistent (p, e) → heap e' = heap e ++ ext → Optimized.consistent (p, e').
Proof.
  intros [Hl Hq Hf] Eh. split; simpl in *; [done|done|].
  intros id r Hr. rewrite Eh, length_app. specialize (Hf id r Hr). lia.
Qed.

Lemma try_reconnect_consistent gap mark l p e stream_id :
  Optimized.consistent (p, e) → stream_id ∈ Optimized.frame_locks p →
  let '(_, p', e') := Optimized.try_reconnect gap mark l p e stream_id in
  Optimized.consistent (p', e').
Proof.
  intros Hc Hin. pose proof (try_reconnect_frame gap mark l p e stream_id) as H.
  destruct (Optimized.try_reconnect _ _ _ _ _ _) as [[l' p'] e'].
  destruct H as (El & Eq & Ef & _ & Eh & Hs). by eapply consistent_frame.
Qed.

Lemma on_read_failure_consistent l p e stream_id :
  Optimized.consistent (p, e) → stream_id ∈ Optimized.frame_locks p →
  let '(_, p', e', _) := Optimized.on_read_failure l p e stream_id in
  Optimized.consistent (p', e').
Proof.
  intros Hc Hin. unfold Optimized.on_read_failure.
  set (p1 := Optimized.set_consecutive_failures p _).
  assert (Hc1 : Optimized.consistent (p1, e)) by (by destruct Hc).
  destruct (_ <=? _); [|exact Hc1].
  pose proof (try_reconnect_consistent 10%float true l p1 e stream_id Hc1 Hin) as H.
  by destruct (Optimized.try_reconnect _ _ _ _ _ _) as [[l' p'] e'].
Qed.

Lemma update_fps_frame l p e stream_id l' p' e' :
  Optimized.update_fps l p e stream_id = (Some (l', p'), e') →
  Optimized.streams p' = Optimized.streams p ∧
  Optimized.frame_locks p' = Optimized.frame_locks p ∧
  Optimized.frame_queues p' = Optimized.frame_queues p ∧
  Optimized.latest_frames p' = Optimized.latest_frames p ∧
  Optimized.active_connections p' = Optimized.active_connections p ∧
  heap e' = heap e.
Proof.
  unfold Optimized.update_fps. simpl.
  destruct (Optimized.last_fps_time p !! stream_id) as [last|]; [|done].
  destruct (PrimFloat.leb _ _); intros [= <- <- <-]; done.
Qed.

Lemma update_fps_heap l p e stream_id : heap (snd (Optimized.update_fps l p e stream_id)) = heap e.
Proof.
  unfold Optimized.update_fps. simpl.
  destruct (Optimized.last_fps_time p !! stream_id) as [last|]; [|done].
  by destruct (PrimFloat.leb _ _).
Qed.

(** What the success path does to the cache: with the lock present and the
    frame in the store, the cache entry of the stream becomes a fresh copy. *)
Lemma on_frame_publishes `{Lib} l p e stream_id frame a :
  stream_id ∈ Optimized.frame_locks p →
  heap e !! frame = Some a →
  let '(_, p', e', _) := Optimized.on_frame l p e stream_id frame in
  Optimized.latest_frames p' = <[stream_id := length (heap e)]> (Optimized.latest_frames p) ∧
  heap e' = heap e ++ [a] ∧
  Optimized.frame_locks p' = Optimized.frame_locks p ∧
  Optimized.streams p' = Optimized.streams p ∧
  Optimized.active_connections p' = Optimized.active_connections p ∧
  Optimized.frame_queues p' =
    Optimized.frame_queues
      (Optimized.enqueue_frame
         (Optimized.set_latest_frames
            (Optimized.set_consecutive_failures p
               (<[stream_id := 0]> (Optimized.consecutive_failures p)))
            (<[stream_id := length (heap e)]> (Optimized.latest_frames p)))
         a stream_id).
Proof.
  intros Hin Ha. unfold Optimized.on_frame. simpl.
  destruct (decide (stream_id ∈ Optimized.frame_locks p)) as [_|]; [|done].
  unfold ndarray_copy. simpl. rewrite Ha. simpl.
  rewrite lookup_app_l by (by eapply lookup_lt_Some). rewrite Ha.
  set (p1 := Optimized.set_latest_frames _ _).
  destruct (enqueue_frame_only_queues p1 a stream_id) as [qs Eqs].
  set (l1 := Optimized.MkLocals _ _ _ _).
  pose proof (update_fps_heap l1 (Optimized.enqueue_frame p1 a stream_id)
                (set_heap (set_ticks e (S (ticks e))) (heap e ++ [a])) stream_id) as Hh.
  destruct (Optimized.update_fps _ _ _ _) as [[[l' p']|] e'] eqn:Hu; simpl in Hh.
  - apply update_fps_frame in Hu as (Es & El & Eq & Ef & Ec & _).
    rewrite Es, El, Eq, Ef, Ec, Eqs. simpl. done.
  - rewrite Eqs. simpl. done.
Qed.

Lemma on_frame_consistent `{Lib} l p e stream_id frame :
  Optimized.consistent (p, e) → (frame < length (heap e))%nat →
  let '(_, p', e', _) := Optimized.on_frame l p e stream_id frame in
  Optimized.consistent (p', e').
Proof.
  intros Hc Hlt.
  destruct (decide (stream_id ∈ Optimized.frame_locks p)) as [Hin|Hout].
  - destruct (lookup_lt_is_Some_2 _ _ Hlt) as [a Ha].
    pose proof (on_frame_publishes l p e stream_id frame a Hin Ha) as H0.
    destruct (Optimized.on_frame _ _ _ _ _) as [[[l' p'] e'] o].
    destruct H0 as (Ef & Eh & El & Es & _ & Eq). destruct Hc as [Hl Hq Hf].
    split; simpl in *.
    + rewrite Es, El. exact Hl.
    + rewrite Eq. by apply enqueue_frame_bounded.
    + intros id r. rewrite Ef, Eh, length_app, lookup_insert. simpl.
      destruct (decide (stream_id = id)); simpl.
      * intros [= <-]. lia.
      * intros Hr. specialize (Hf id r Hr). lia.
  - unfold Optimized.on_frame. simpl.
    destruct (decide (stream_id ∈ Optimized.frame_locks p)); [done|].
    by destruct Hc.
Qed.

(** A turn of a worker keeps the service consistent. *)
Lemma process_stream_iter_consistent `{Lib} l p e stream_id :
  Optimized.consistent (p, e) →
  let '(_, p', e', _) := Optimized.process_stream_iter l p e stream_id in
  Optimized.consistent (p', e').
Proof.
  intros Hc. unfold Optimized.process_stream_iter.
  destruct (negb _) eqn:Hloop; [exact Hc|].
  apply negb_false_iff, andb_true_iff in Hloop as [_ Hd]. apply bool_decide_eq_true in Hd.
  assert (Hin : stream_id ∈ Optimized.frame_locks p) by (by apply (Optimized.streams_locked _ Hc)).
  destruct (Optimized.streams p !! stream_id) as [cap|]; [|exact Hc].
  destruct (negb (cap_isOpened e cap)).
  { pose proof (try_reconnect_consistent 5%float false l p e stream_id Hc Hin) as H0.
    by destruct (Optimized.try_reconnect _ _ _ _ _ _) as [[l' p'] e']. }
  simpl.
  assert (Hc1 : ∀ n, Optimized.consistent (p, set_ticks e n)) by (intros n; by destruct Hc).
  destruct (PrimFloat.ltb _ _).
  { pose proof (try_reconnect_consistent 10%float true l p _ stream_id (Hc1 (S (ticks e))) Hin) as H0.
    by destruct (Optimized.try_reconnect _ _ _ _ _ _) as [[l' p'] e']. }
  destruct (_ =? 0); [apply Hc1|].
  destruct (PrimFloat.ltb _ _); [apply Hc1|].
  set (e2 := set_ticks (set_ticks e (S (ticks e))) _).
  set (l2 := Optimized.MkLocals _ _ _ _).
  pose proof (cap_read_heap e2 cap) as Hread.
  destruct (cap_read e2 cap) as [[frame|] e3].
  - destruct Hread as [-> [a Ea]].
    assert (Hc3 : Optimized.consistent (p, e3)).
    { eapply consistent_grow; [apply (Hc1 (S (S (ticks e))))|exact Ea]. }
    apply (on_frame_consistent l2 p e3 stream_id (length (heap e2)) Hc3).
    rewrite Ea, length_app. simpl. lia.
  - assert (Hc3 : Optimized.consistent (p, e3)).
    { eapply (consistent_grow _ _ _ []); [apply (Hc1 (S (S (ticks e))))|].
      by rewrite app_nil_r. }
    apply (on_read_failure_consistent l2 p e3 stream_id Hc3 Hin).
Qed.

Lemma add_stream_consistent p e stream_id rtsp_url :
  Optimized.consistent (p, e) →
  let '(p', e', _) := Optimized.add_stream p e stream_id rtsp_url in
  Optimized.consistent (p', e').
Proof.
  intros [Hl Hq Hf]. unfold Optimized.add_stream.
  destruct (decide (stream_id ∈ dom (Optimized.streams p))); [by split|].
  simpl in *. destruct (negb _); split; simpl.
  - intros id Hid. apply elem_of_union_r. by apply Hl.
  - intros id q. rewrite lookup_insert.
    destruct (decide (stream_id = id)); simpl; [intros [= <-]; apply bounded_new|apply Hq].
  - exact Hf.
  - intros id. rewrite dom_insert_L. intros [->%elem_of_singleton|Hid]%elem_of_union.
    + apply elem_of_union_l. by apply elem_of_singleton.
    + apply elem_of_union_r. by apply Hl.
  - intros id q. rewrite lookup_insert.
    destruct (decide (stream_id = id)); simpl; [intros [= <-]; apply bounded_new|apply Hq].
  - exact Hf.
Qed.

(** After [remove_stream] the stream has no capture, frame, lock, thread,
    address or queue, and the capture it had is released; the entries of the
    other streams are as before.  Unless the call failed at its close tasks
    (no event loop, and a connection to close), the consumer set is deleted
    too and a close task exists for each of its connections. *)
Lemma remove_stream_spec p e stream_id :
  let '(p', e', ok) := Optimized.remove_stream p e stream_id in
  let conns := default ∅ (Optimized.active_connections p !! stream_id) in
  let fails := negb (running_loop e) && negb (bool_decide (conns = ∅)) in
  ok = negb fails ∧
  Optimized.streams p' = delete stream_id (Optimized.streams p) ∧
  Optimized.latest_frames p' = delete stream_id (Optimized.latest_frames p) ∧
  Optimized.frame_locks p' = Optimized.frame_locks p ∖ {[stream_id]} ∧
  Optimized.processing_threads p' = delete stream_id (Optimized.processing_threads p) ∧
  Optimized.stream_urls p' = delete stream_id (Optimized.stream_urls p) ∧
  Optimized.frame_queues p' = delete stream_id (Optimized.frame_queues p) ∧
  Optimized.active_connections p'
  = (if fails then Optimized.active_connections p
     else delete stream_id (Optimized.active_connections p)) ∧
  heap e' = heap e ∧
  (∀ cap, Optimized.streams p !! stream_id = Some cap → cap_isOpened e' cap = false) ∧
  closing e' = (if fails then closing e else closing e ++ elements conns).
Proof.
  unfold Optimized.remove_stream.
  assert (Hlocks : ∀ L : gset string,
    (if decide (stream_id ∈ L) then L ∖ {[stream_id]} else L) = L ∖ {[stream_id]}).
  { intros L. destruct (decide (stream_id ∈ L)) as [|Hn]; [done|].
    apply set_eq. intros x. rewrite elem_of_difference, elem_of_singleton.
    split; [|tauto]. intros Hx. split; [done|]. by intros ->. }
  assert (Hempty : bool_decide ((∅ : gset nat) = ∅) = true) by (by apply bool_decide_eq_true_2).
  assert (Hloop : ∀ cap, running_loop (cap_release e cap) = running_loop e).
  { intros cap. unfold cap_release. by destruct (caps e !! cap). }
  assert (Hclosing : ∀ cap, closing (cap_release e cap) = closing e).
  { intros cap. unfold cap_release. by destruct (caps e !! cap). }
  destruct (Optimized.streams p !! stream_id) as [cap|] eqn:Hs;
    destruct (Optimized.active_connections p !! stream_id) as [conns|] eqn:Ha;
    simpl; rewrite ?Ha, ?Hloop, ?Hempty, ?andb_false_r; simpl;
    try (destruct (running_loop e); simpl; [|destruct (bool_decide (conns = ∅)); simpl]);
    rewrite ?Hlocks, ?del_if_in_delete, ?heap_cap_release, ?Hclosing; simpl;
    repeat split; try done;
    try (symmetry; by apply delete_id);
    try (intros ? [= <-]; apply cap_isOpened_release);
    try (by rewrite app_nil_r).
Qed.

Lemma remove_stream_consistent p e stream_id :
  Optimized.consistent (p, e) →
  let '(p', e', _) := Optimized.remove_stream p e stream_id in
  Optimized.consistent (p', e').
Proof.
  intros [Hl Hq Hf]. pose proof (remove_stream_spec p e stream_id) as H.
  destruct (Optimized.remove_stream p e stream_id) as [[p' e'] ok].
  destruct H as (_ & Es & Ef & El & _ & _ & Eq & _ & Eh & _). split; simpl in *.
  - intros id. rewrite Es, El, dom_delete_L.
    intros [Hid Hne]%elem_of_difference. apply elem_of_difference. split; [by apply Hl|done].
  - intros id q. rewrite Eq. intros Hid%lookup_delete_Some. destruct Hid as [_ Hid]. by eapply Hq.
  - intros id r. rewrite Ef, Eh. intros Hid%lookup_delete_Some. destruct Hid as [_ Hid].
    by eapply Hf.
Qed.

(** [get_latest_frame] leaves the processor alone; when it returns a frame
    the store has grown by that one array. *)
Lemma get_latest_frame_heap p e stream_id :
  ∃ ext, heap (snd (Optimized.get_latest_frame p e stream_id)) = heap e ++ ext.
Proof.
  unfold Optimized.get_latest_frame.
  destruct (decide _); [|exists []; by rewrite app_nil_r].
  destruct (Optimized.latest_frames p !! stream_id) as [r|]; [|exists []; by rewrite app_nil_r].
  unfold ndarray_copy. destruct (heap e !! r) as [a|]; simpl; [by exists [a]|].
  exists []. by rewrite app_nil_r.
Qed.

Lemma unregister_websocket_frame p stream_id websocket :
  let p' := Optimized.unregister_websocket p stream_id websocket in
  Optimized.streams p' = Optimized.streams p ∧
  Optimized.frame_locks p' = Optimized.frame_locks p ∧
  Optimized.frame_queues p' = Optimized.frame_queues p ∧
  Optimized.latest_frames p' = Optimized.latest_frames p.
Proof. unfold Optimized.unregister_websocket. by destruct (_ !! _). Qed.

Lemma register_websocket_frame p stream_id websocket :
  let p' := Optimized.register_websocket p stream_id websocket in
  Optimized.streams p' = Optimized.streams p ∧
  Optimized.frame_locks p' = Optimized.frame_locks p ∧
  Optimized.frame_queues p' = Optimized.frame_queues p ∧
  Optimized.latest_frames p' = Optimized.latest_frames p.
Proof.
  unfold Optimized.register_websocket.
  destruct (decide _); simpl; by destruct (_ !! _).
Qed.


Lemma heap_ws_send e websocket m e' :
  Optimized.ws_send e websocket m = Some e' → heap e' = heap e.
Proof.
  unfold Optimized.ws_send. destruct (sockets e !! websocket) as [s|]; [|done].
  destruct (connected s); [|done]. by intros [= <-].
Qed.

Lemma heap_ws_close e websocket : heap (Optimized.ws_close e websocket) = heap e.
Proof. unfold Optimized.ws_close. by destruct (sockets e !! websocket). Qed.

Lemma consistent_same (p p' : Optimized.StreamProcessor) (e e' : Env) :
  Optimized.consistent (p, e) →
  Optimized.streams p' = Optimized.streams p →
  Optimized.frame_locks p' = Optimized.frame_locks p →
  Optimized.frame_queues p' = Optimized.frame_queues p →
  Optimized.latest_frames p' = Optimized.latest_frames p →
  heap e' = heap e →
  Optimized.consistent (p', e').
Proof.
  intros [Hl Hq Hf] Es El Eq Ef Eh. split; simpl in *.
  - by rewrite Es, El.
  - by rewrite Eq.
  - by rewrite Ef, Eh.
Qed.

Lemma websocket_open_consistent p e stream_id websocket :
  Optimized.consistent (p, e) →
  let '(p', e', _) := Optimized.websocket_open p e stream_id websocket in
  Optimized.consistent (p', e').
Proof.
  intros Hc. unfold Optimized.websocket_open.
  pose proof (register_websocket_frame p stream_id websocket) as (Es & El & Eq & Ef).
  pose proof (unregister_websocket_frame
                (Optimized.register_websocket p stream_id websocket) stream_id websocket)
    as (Es' & El' & Eq' & Ef').
  destruct (decide _).
  - destruct (Optimized.ws_send _ _ _) as [e1|] eqn:Hsend.
    + apply heap_ws_send in Hsend. by eapply consistent_same.
    + eapply consistent_same; [exact Hc|..]; congruence.
  - destruct (Optimized.ws_send _ _ _) as [e1|] eqn:Hsend; [|done].
    apply heap_ws_send in Hsend.
    eapply consistent_same; [exact Hc|..]; try done. by rewrite heap_ws_close.
Qed.

Lemma websocket_iter_consistent p e stream_id websocket :
  Optimized.consistent (p, e) →
  let '(p', e', _) := Optimized.websocket_iter p e stream_id websocket in
  Optimized.consistent (p', e').
Proof.
  intros Hc. unfold Optimized.websocket_iter.
  destruct (decide _).
  - destruct (Optimized.frame_queues p !! stream_id) as [q|] eqn:Hq; [|done].
    destruct (get_nowait q) as [[x q']|] eqn:Hg.
    + assert (Hc' : ∀ e', heap e' = heap e →
        Optimized.consistent
          (Optimized.set_frame_queues p (<[stream_id := q']> (Optimized.frame_queues p)), e')).
      { intros e' Eh. destruct Hc as [Hl Hqs Hf]. split; simpl in *; [done| |by rewrite Eh].
        intros id q0. rewrite lookup_insert. destruct (decide (stream_id = id)); simpl.
        - intros [= <-]. eapply get_nowait_bounded; [exact Hg|]. by eapply Hqs.
        - apply Hqs. }
      destruct (Optimized.ws_send _ _ _) as [e1|] eqn:Hsend; apply Hc'; [|done].
      by eapply heap_ws_send.
    + destruct (Optimized.ws_send _ _ _) as [e1|] eqn:Hsend; [|done].
      apply heap_ws_send in Hsend. by eapply consistent_same.
  - pose proof (unregister_websocket_frame p stream_id websocket) as (Es & El & Eq & Ef).
    eapply consistent_same; [exact Hc|..]; try done.
    destruct (Optimized.ws_send _ _ _) as [e1|] eqn:Hsend; [|done].
    by eapply heap_ws_send.
Qed.

Lemma websocket_stream_consistent h p e stream_id websocket :
  Optimized.consistent (p, e) →
  let '(p', e', _) := Optimized.websocket_stream h p e stream_id websocket in
  Optimized.consistent (p', e').
Proof.
  intros Hc. destruct h; simpl.
  - by apply websocket_open_consistent.
  - by apply websocket_iter_consistent.
  - exact Hc.
Qed.

Lemma act_consistent `{Lib} a w :
  Optimized.consistent w → Optimized.consistent (Optimized.act a w).
Proof.
  destruct w as [p e]. intros Hc. destruct a as [id url|id| |id l|id|h id ws|ws]; simpl.
  - pose proof (add_stream_consistent p e id url Hc) as H0.
    by destruct (Optimized.add_stream p e id url) as [[p' e'] ok].
  - pose proof (remove_stream_consistent p e id Hc) as H0.
    by destruct (Optimized.remove_stream p e id) as [[p' e'] ok].
  - by destruct Hc.
  - pose proof (process_stream_iter_consistent l p e id Hc) as H0.
    by destruct (Optimized.process_stream_iter l p e id) as [[[l' p'] e'] o].
  - destruct (get_latest_frame_heap p e id) as [ext Hext].
    destruct (Optimized.get_latest_frame p e id) as [r e']. by eapply consistent_grow.
  - pose proof (websocket_stream_consistent h p e id ws Hc) as H0.
    by destruct (Optimized.websocket_stream h p e id ws) as [[p' e'] h'].
  - eapply consistent_same; [exact Hc|..]; try done. apply heap_ws_close.
Qed.

(** Every state of the service is consistent. *)
Lemma reachable_consistent `{Lib} w : Optimized.reachable w → Optimized.consistent w.
Proof.
  induction 1 as [e He|a w _ IH]; [|by apply act_consistent].
  split; simpl.
  - intros id Hid. by rewrite dom_empty_L in Hid.
  - intros id q Hq. by rewrite lookup_empty in Hq.
  - intros id r Hr. by rewrite lookup_empty in Hr.
Qed.

(** ** The frame cache *)

Lemma get_latest_frame_copy p e stream_id c a :
  stream_id ∈ Optimized.frame_locks p →
  Optimized.latest_frames p !! stream_id = Some c →
  heap e !! c = Some a →
  Optimized.get_latest_frame p e stream_id
  = (Some (length (heap e)), set_heap e (heap e ++ [a])).
Proof.
  intros Hin Hc Ha. unfold Optimized.get_latest_frame.
  destruct (decide _); [|done]. rewrite Hc. by rewrite (ndarray_copy_spec e c a Ha).
Qed.

Lemma get_latest_frame_absent p e stream_id :
  stream_id ∉ Optimized.frame_locks p ∨ Optimized.latest_frames p !! stream_id = None →
  Optimized.get_latest_frame p e stream_id = (None, e).
Proof.
  intros Hno. unfold Optimized.get_latest_frame.
  destruct (decide _) as [Hin|]; [|done].
  destruct Hno as [Hout|Hnone]; [done|]. by rewrite Hnone.
Qed.

Lemma on_frame_outcome `{Lib} l p e stream_id frame :
  ∃ raised, snd (Optimized.on_frame l p e stream_id frame) = Optimized.FrameRead frame raised.
Proof.
  unfold Optimized.on_frame. simpl.
  destruct (decide _); [|by eexists].
  destruct (ndarray_copy _ _) as [[c e4]|]; [|by eexists].
  destruct (Optimized.update_fps _ _ _ _) as [[[? ?]|] ?]; by eexists.
Qed.

(** A turn that read a frame got it from the capture of the stream, as a new
    array of the store, and went on with the success path. *)
Lemma process_stream_iter_read `{Lib} l p e stream_id l' p' e' frame raised :
  Optimized.process_stream_iter l p e stream_id = (l', p', e', Optimized.FrameRead frame raised) →
  ∃ l2 e2 a,
    stream_id ∈ dom (Optimized.streams p) ∧
    frame = length (heap e) ∧ heap e2 = heap e ++ [a] ∧
    Optimized.on_frame l2 p e2 stream_id frame
    = (l', p', e', Optimized.FrameRead frame raised).
Proof.
  unfold Optimized.process_stream_iter.
  destruct (negb _) eqn:Hloop; [done|].
  apply negb_false_iff, andb_true_iff in Hloop as [_ Hd]. apply bool_decide_eq_true in Hd.
  destruct (Optimized.streams p !! stream_id) as [cap|]; [|done].
  destruct (negb (cap_isOpened e cap)).
  { by destruct (Optimized.try_reconnect _ _ _ _ _ _) as [[? ?] ?]. }
  simpl. destruct (PrimFloat.ltb _ _).
  { by destruct (Optimized.try_reconnect _ _ _ _ _ _) as [[? ?] ?]. }
  destruct (_ =? 0); [done|]. destruct (PrimFloat.ltb _ _); [done|].
  set (e2 := set_ticks (set_ticks e (S (ticks e))) _).
  set (l2 := Optimized.MkLocals _ _ _ _).
  pose proof (cap_read_heap e2 cap) as Hread.
  destruct (cap_read e2 cap) as [[fr|] e3].
  - destruct Hread as [-> [a Ea]]. intros Hon.
    destruct (on_frame_outcome l2 p e3 stream_id (length (heap e2))) as [r0 Ho].
    rewrite Hon in Ho. simpl in Ho. injection Ho as -> _.
    exists l2, e3, a. done.
  - unfold Optimized.on_read_failure. destruct (_ <=? _); [|done].
    by destruct (Optimized.try_reconnect _ _ _ _ _ _) as [[? ?] ?].
Qed.

(** C1: in every state of the service, when a turn of the ingestion worker
    of a stream has read a frame, [get_latest_frame] for that stream returns
    a frame equal to the frame read; the array returned is a new one, neither
    the cached array nor the array the worker read, so whatever the caller
    writes into it afterwards leaves the cached frame as it was, and a later
    [get_latest_frame] still returns the frame read.  For an id without a
    lock (unknown) or without a cached frame, [get_latest_frame] returns
    [None] and changes nothing. *)
Theorem C1_latest_frame_is_copy_of_last_read `{Lib}
    (w : Optimized.StreamProcessor * Env) (l : Optimized.Locals) (stream_id : string) :
  Optimized.reachable w →
  let '(_, p1, e1, outcome) := Optimized.process_stream_iter l (fst w) (snd w) stream_id in
  (∀ frame raised, outcome = Optimized.FrameRead frame raised →
     ∃ a c r e2,
       heap e1 !! frame = Some a ∧
       Optimized.latest_frames p1 !! stream_id = Some c ∧
       Optimized.get_latest_frame p1 e1 stream_id = (Some r, e2) ∧
       heap e2 !! r = Some a ∧ heap e2 !! c = Some a ∧
       r ≠ c ∧ r ≠ frame ∧ c ≠ frame ∧
       ∀ a', let e3 := set_heap e2 (<[r := a']> (heap e2)) in
             heap e3 !! c = Some a ∧
             ∃ r' e4, Optimized.get_latest_frame p1 e3 stream_id = (Some r', e4) ∧
                      heap e4 !! r' = Some a) ∧
  (∀ p e id,
     id ∉ Optimized.frame_locks p ∨ Optimized.latest_frames p !! id = None →
     Optimized.get_latest_frame p e id = (None, e)).
Proof.
  intros Hr. destruct w as [p e]. simpl.
  pose proof (reachable_consistent _ Hr) as Hc.
  destruct (Optimized.process_stream_iter l p e stream_id) as [[[l' p1] e1] outcome] eqn:Hit.
  split; [|intros; by apply get_latest_frame_absent].
  intros frame raised ->.
  apply process_stream_iter_read in Hit as (l2 & e2 & a & Hd & -> & Eh & Hon).
  assert (Hin : stream_id ∈ Optimized.frame_locks p) by (by apply (Optimized.streams_locked _ Hc)).
  assert (Ha : heap e2 !! length (heap e) = Some a).
  { rewrite Eh. by apply list_lookup_middle. }
  pose proof (on_frame_publishes l2 p e2 stream_id (length (heap e)) a Hin Ha) as Hp.
  rewrite Hon in Hp. destruct Hp as (Ef & Eh1 & El & _).
  set (c := length (heap e2)) in *.
  assert (Hlen2 : c = S (length (heap e))).
  { subst c. rewrite Eh, length_app. simpl. lia. }
  assert (Hc1 : heap e1 !! c = Some a).
  { rewrite Eh1. by apply list_lookup_middle. }
  assert (Hf1 : heap e1 !! length (heap e) = Some a).
  { rewrite Eh1, lookup_app_l; [done|]. by eapply lookup_lt_Some. }
  assert (Hl1 : length (heap e1) = S c).
  { rewrite Eh1, length_app. simpl. lia. }
  assert (Hlat : Optimized.latest_frames p1 !! stream_id = Some c).
  { by rewrite Ef, lookup_insert_eq. }
  assert (Hin1 : stream_id ∈ Optimized.frame_locks p1) by (by rewrite El).
  exists a, c, (length (heap e1)), (set_heap e1 (heap e1 ++ [a])).
  split; [done|]. split; [done|].
  split; [by apply (get_latest_frame_copy p1 e1 stream_id c a)|]. simpl.
  split; [by apply list_lookup_middle|].
  split; [rewrite lookup_app_l; [done|lia]|].
  split; [lia|]. split; [lia|]. split; [lia|].
  intros a'. simpl.
  assert (Hc3 : <[length (heap e1) := a']> (heap e1 ++ [a]) !! c = Some a).
  { rewrite list_lookup_insert_ne by lia. rewrite lookup_app_l; [done|lia]. }
  split; [exact Hc3|].
  eexists _, _. split.
  - apply get_latest_frame_copy with (c := c) (a := a); done.
  - simpl. by apply list_lookup_middle.
Qed.

Lemma reachable_added : Optimized.reachable (H := Scenario.lib) Scenario.added.
Proof. apply Optimized.reachable_act, Optimized.reachable_init. reflexivity. Qed.

Lemma reachable_turns n :
  Optimized.reachable (H := Scenario.lib) (snd (Scenario.turns n Scenario.started)).
Proof.
  induction n as [|n IH]; simpl.
  - apply Optimized.reachable_act, reachable_added.
  - by apply Optimized.reachable_act.
Qed.

(** The first turn of the worker of "cam1" reads the frame [small]; the
    snapshot then taken is a copy of it. *)
Lemma C1_latest_frame_is_copy_of_last_read_witness :
  let '(_, p1, e1, outcome) :=
    Optimized.process_stream_iter (H := Scenario.lib) (fst Scenario.started)
      (fst (snd Scenario.started)) (snd (snd Scenario.started)) "cam1" in
  outcome = Optimized.FrameRead 0 false ∧
  ∃ r e2, Optimized.get_latest_frame p1 e1 "cam1" = (Some r, e2) ∧
          heap e2 !! r = Some Scenario.small.
Proof.
  pose proof (C1_latest_frame_is_copy_of_last_read (H := Scenario.lib)
                (snd Scenario.started) (fst Scenario.started) "cam1"
                (reachable_turns 0)) as Hc.
  destruct (Optimized.process_stream_iter _ _ _ _) as [[[l1 p1] e1] outcome] eqn:E.
  assert (Ho : outcome = Optimized.FrameRead 0 false).
  { apply (f_equal snd) in E. simpl in E. rewrite <- E. vm_compute. reflexivity. }
  assert (Hh : heap e1 !! 0%nat = Some Scenario.small).
  { apply (f_equal (λ x, heap (snd (fst x)) !! 0%nat)) in E. simpl in E. rewrite <- E.
    vm_compute. reflexivity. }
  split; [exact Ho|].
  destruct Hc as [Hc _]. destruct (Hc 0%nat false Ho) as (a & c & r & e2 & Ha & _ & Hg & Hr & _).
  exists r, e2. split; [exact Hg|]. rewrite Hr. rewrite <- Ha. exact Hh.
Defined.

(** ** The distribution queue *)

(** C2: in every state of the service the queue of a stream has capacity 2
    and holds at most two items; enqueueing an encoded frame never fails for
    lack of room and leaves the new item last in a queue of at most two
    items; a queue with room keeps what it had, and a full queue [x1; x2]
    becomes [x2; b], so that the next two pops yield x2 and then b, and the
    third finds the queue empty. *)
Theorem C2_queue_drops_oldest `{Lib} (w : Optimized.StreamProcessor * Env)
    (stream_id : string) (q : Queue) (a a' : ndarray) (b : bytes) :
  Optimized.reachable w →
  Optimized.frame_queues (fst w) !! stream_id = Some q →
  Optimized.resize_for_queue a = Some a' →
  imencode a' (Optimized.jpeg_quality (fst w)) = Some b →
  maxsize q = 2 ∧ (length (items q) ≤ 2)%nat ∧
  ∃ q', Optimized.frame_queues (Optimized.enqueue_frame (fst w) a stream_id) !! stream_id
        = Some q' ∧
        maxsize q' = 2 ∧ (length (items q') ≤ 2)%nat ∧ last (items q') = Some b ∧
        ((length (items q) < 2)%nat → items q' = items q ++ [b]) ∧
        (∀ x1 x2, items q = [x1; x2] →
           items q' = [x2; b] ∧
           ∃ q2 q3, get_nowait q' = Some (x2, q2) ∧ get_nowait q2 = Some (b, q3) ∧
                    get_nowait q3 = None).
Proof.
  intros Hr Hq Hres Henc. destruct w as [p e]. simpl in *.
  pose proof (Optimized.queues_bounded _ (reachable_consistent _ Hr) _ _ Hq) as Hb.
  destruct Hb as [Hm Hl]. split; [done|]. split; [done|].
  rewrite (enqueue_frame_pushes p a stream_id q a' b Hq (conj Hm Hl) Hres Henc). simpl.
  rewrite lookup_insert_eq. eexists. split; [reflexivity|]. simpl.
  destruct q as [m its]. simpl in *.
  destruct its as [|y1 [|y2 [|y3 its]]]; simpl in Hl; try lia; simpl;
    (split; [done|]); (split; [lia|]); (split; [done|]); (split; [intros; (done || lia)|]);
    intros x1 x2 Hx; try discriminate.
  injection Hx as <- <-. split; [done|]. by eexists _, _.
Qed.

(** After two turns the queue of "cam1" is full; enqueueing the third frame
    (1920 wide, resized to 1280 by 720) drops the first. *)
Lemma C2_queue_drops_oldest_witness :
  let w := snd (Scenario.turns 2 Scenario.started) in
  let scaled := Ndarray 720 1280 [Byte.x10] in
  Optimized.frame_queues (fst w) !! "cam1"
    = Some (MkQueue 2 [Scenario.jpeg Scenario.small; Scenario.jpeg Scenario.tiny]) ∧
  ∃ q', Optimized.frame_queues
          (Optimized.enqueue_frame (H := Scenario.lib) (fst w) Scenario.landscape "cam1")
          !! "cam1" = Some q' ∧
        items q' = [Scenario.jpeg Scenario.tiny; Scenario.jpeg scaled].
Proof.
  intros w scaled.
  assert (Hq : Optimized.frame_queues (fst w) !! "cam1"
               = Some (MkQueue 2 [Scenario.jpeg Scenario.small; Scenario.jpeg Scenario.tiny])).
  { vm_compute. reflexivity. }
  assert (Hres : Optimized.resize_for_queue (H := Scenario.lib) Scenario.landscape = Some scaled).
  { vm_compute. reflexivity. }
  assert (Henc : @imencode Scenario.lib scaled (Optimized.jpeg_quality (fst w))
                 = Some (Scenario.jpeg scaled)).
  { vm_compute. reflexivity. }
  split; [exact Hq|].
  destruct (C2_queue_drops_oldest (H := Scenario.lib) w "cam1" _ Scenario.landscape scaled _
              (reachable_turns 2) Hq Hres Henc)
    as (_ & _ & q' & Hq' & _ & _ & _ & _ & Hfull).
  exists q'. split; [exact Hq'|]. by destruct (Hfull _ _ eq_refl) as [Hits _].
Defined.

(** ** The downscale before encoding *)

(** C9, as claimed, fails: the fourth frame of the camera is 720 wide and
    1920 high, its long edge exceeds 1280, and the worker enqueues it at full
    size (the queue then holds the resized third frame and the fourth as it
    was read). *)
Lemma C9_portrait_frame_enqueued_unscaled :
  let a := Scenario.portrait in
  1280 < Z.max (shape0 a) (shape1 a) ∧
  Optimized.resize_for_queue (H := Scenario.lib) a = Some a ∧
  Optimized.frame_queues (fst (snd (Scenario.turns 4 Scenario.started))) !! "cam1"
  = Some (MkQueue 2 [Scenario.jpeg (Ndarray 720 1280 [Byte.x10]); Scenario.jpeg a]).
Proof. vm_compute. repeat split; reflexivity. Qed.

(** The frame handed to inference is capped on its long edge: the same
    portrait frame comes out 480 wide and 1280 high. *)
Example preprocess_frame_portrait :
  AIProcessor.preprocess_frame (H := Scenario.lib) Scenario.portrait
  = Some (Ndarray 1280 480 [Byte.x20]).
Proof. vm_compute. reflexivity. Qed.

Example resize_for_queue_landscape :
  Optimized.resize_for_queue (H := Scenario.lib) Scenario.landscape
  = Some (Ndarray 720 1280 [Byte.x10]).
Proof. vm_compute. reflexivity. Qed.

(** A frame so flat that its scaled height truncates to 0 cannot be resized:
    the turn drops it. *)
Example resize_for_queue_flat :
  Optimized.resize_for_queue (H := Scenario.lib) (Ndarray 1 5000 [Byte.x30]) = None.
Proof. vm_compute. reflexivity. Qed.

(** C9, amended: what the worker does with a frame before it encodes it is
    decided by the width alone.  A frame wider than 1280 columns is resized
    to width exactly 1280 and to the height [int(height * (1280 / width))]
    of float arithmetic (the same factor for both dimensions) whenever that
    height is at least 1; where it is 0 or [int] raises, the resize fails.
    A frame at most 1280 wide is left as it is, whatever its height.  With
    the queue of the stream in place, the encoding of the frame so obtained
    is enqueued last, behind what the queue keeps (all it had, or all but
    the oldest item if it was full); a frame whose resize or encoding fails
    is dropped, the queue holding what it keeps and nothing more. *)
Theorem C9_wide_frames_resized_to_width_1280 `{Lib} (a : ndarray) :
  let new_height :=
    int_of_float (PrimFloat.mul (float_of_int (shape0 a))
                    (PrimFloat.div (float_of_int 1280) (float_of_int (shape1 a)))) in
  (1280 < shape1 a →
   Optimized.resize_for_queue a
   = match new_height with
     | Some h => if 0 <? h then Some (Ndarray h 1280 (resample a 1280 h)) else None
     | None => None
     end) ∧
  (shape1 a ≤ 1280 → Optimized.resize_for_queue a = Some a) ∧
  (∀ p stream_id q,
     Optimized.frame_queues p !! stream_id = Some q → bounded q →
     let kept := match items q with
                 | [x1; x2] => [x2]
                 | its => its
                 end in
     ∃ q', Optimized.frame_queues (Optimized.enqueue_frame p a stream_id) !! stream_id
           = Some q' ∧
           items q' = match Optimized.resize_for_queue a with
                      | Some a' =>
                          match imencode a' (Optimized.jpeg_quality p) with
                          | Some b => kept ++ [b]
                          | None => kept
                          end
                      | None => kept
                      end).
Proof.
  intros new_height. split; [|split].
  - intros Hw. unfold Optimized.resize_for_queue.
    destruct (1280 <? shape1 a) eqn:E; [|apply Z.ltb_ge in E; lia].
    fold new_height. destruct new_height as [h|]; [|done].
    unfold cv2_resize. by destruct (0 <? h).
  - intros Hw. unfold Optimized.resize_for_queue.
    destruct (1280 <? shape1 a) eqn:E; [apply Z.ltb_lt in E; lia|done].
  - intros p stream_id q Hq [Hm Hl] kept. unfold Optimized.enqueue_frame. rewrite Hq.
    destruct q as [m its]. simpl in *. subst m kept.
    destruct (Optimized.resize_for_queue a) as [a'|];
      [destruct (imencode a' (Optimized.jpeg_quality p)) as [b|]|];
      destruct its as [|y1 [|y2 [|y3 its]]]; simpl in Hl; try lia;
      unfold put_nowait, get_nowait, full; simpl; rewrite lookup_insert_eq;
      eexists; (split; [reflexivity|]); done.
Qed.

(** ** The snapshot endpoint: runs *)

Example snapshot_before_first_frame :
  fst (Optimized.Api.get_stream_frame (H := Scenario.lib) (fst Scenario.added)
         (snd Scenario.added) "cam1" None)
  = HTTPException 404 "Stream not found or no frame available".
Proof. vm_compute. reflexivity. Qed.

Example snapshot_after_two_turns :
  let w := snd (Scenario.turns 2 Scenario.started) in
  fst (Optimized.Api.get_stream_frame (H := Scenario.lib) (fst w) (snd w) "cam1" (Some 90))
  = JpegResponse (default [] (@imencode Scenario.lib Scenario.tiny 90)).
Proof. vm_compute. reflexivity. Qed.

(** ** Adding a stream *)

(** C3, as claimed, fails: re-adding the registered "cam1" reports success,
    and an add whose capture does not open returns false but leaves a stored
    URL, a lock, a queue and a consumer set behind. *)
Lemma C3_duplicate_add_reports_success :
  "cam1" ∈ dom (Optimized.streams (fst Scenario.added)) ∧
  snd (Optimized.add_stream (fst Scenario.added) (snd Scenario.added) "cam1" Scenario.url)
  = true ∧
  let '(p, _, ok) := Optimized.add_stream Optimized.init Scenario.env "cam2" "rtsp://nowhere/x" in
  ok = false ∧
  Optimized.stream_urls p !! "cam2" = Some "rtsp://nowhere/x" ∧
  "cam2" ∈ Optimized.frame_locks p ∧
  Optimized.frame_queues p !! "cam2" = Some (Queue_new 2) ∧
  Optimized.active_connections p !! "cam2" = Some ∅.
Proof. vm_compute. repeat split; reflexivity. Qed.

(** Whatever the endpoint's checks reject, they reject with status 400. *)
Lemma validate_rejects `{Lib} stream_id rtsp_url err :
  Enhanced.Api.validate stream_id rtsp_url = Some err →
  ∃ detail, err = HTTPException 400 detail.
Proof.
  unfold Enhanced.Api.validate. intros Hv.
  repeat match type of Hv with
         | (if ?c then _ else _) = _ => destruct c
         | match ?c with _ => _ end = _ => destruct c
         end; simplify_eq; by eexists.
Qed.

(** C3, amended: on the optimized processor, adding an id that is already
    registered returns true and changes nothing; on the enhanced service the
    endpoint answers a registered id with a failure (success false, or 400
    for a URL it rejects) and changes nothing.  When the initial capture does
    not open, the optimized [add_stream] returns false (400 at the endpoint)
    and the enhanced endpoint answers 400, and in both no stream is
    registered: the registry of captures, the cached frames, the worker
    threads and the counters are as before, and no thread is started. *)
Theorem C3_add_stream_duplicate_or_unopened `{Lib} (e : Env) (stream_id rtsp_url : string) :
  (∀ p, stream_id ∈ dom (Optimized.streams p) →
        Optimized.add_stream p e stream_id rtsp_url = (p, e, true)) ∧
  (∀ p, stream_id ∈ dom (Optimized.streams p) →
        Optimized.Api.add_stream p e stream_id rtsp_url
        = (p, e, JsonResult true "Stream added successfully")) ∧
  (∀ p, stream_id ∉ dom (Optimized.streams p) →
        isOpened (camera e (length (caps e)) (unquote rtsp_url)) = false →
        snd (Optimized.Api.add_stream p e stream_id rtsp_url)
        = HTTPException 400 "Failed to add stream") ∧
  (∀ p, stream_id ∉ dom (Optimized.streams p) →
        isOpened (camera e (length (caps e)) rtsp_url) = false →
        let '(p', e', ok) := Optimized.add_stream p e stream_id rtsp_url in
        ok = false ∧
        Optimized.streams p' = Optimized.streams p ∧
        Optimized.latest_frames p' = Optimized.latest_frames p ∧
        Optimized.processing_threads p' = Optimized.processing_threads p ∧
        Optimized.fps_counters p' = Optimized.fps_counters p ∧
        Optimized.consecutive_failures p' = Optimized.consecutive_failures p ∧
        threads e' = threads e ∧ heap e' = heap e) ∧
  (∀ p enable_ai, stream_id ∈ dom (Enhanced.streams p) →
        let '(p', e', reply) := Enhanced.Api.add_stream p e stream_id rtsp_url enable_ai in
        p' = p ∧ e' = e ∧
        (reply = JsonResult false "Stream already exists" ∨
         ∃ detail, reply = HTTPException 400 detail)) ∧
  (∀ p enable_ai, stream_id ∉ dom (Enhanced.streams p) →
        isOpened (camera e (length (caps e)) rtsp_url) = false →
        let '(p', e', reply) := Enhanced.Api.add_stream p e stream_id rtsp_url enable_ai in
        (∃ detail, reply = HTTPException 400 detail) ∧
        Enhanced.streams p' = Enhanced.streams p ∧
        Enhanced.stream_urls p' = Enhanced.stream_urls p ∧
        Enhanced.latest_frames p' = Enhanced.latest_frames p ∧
        Enhanced.processing_threads p' = Enhanced.processing_threads p ∧
        Enhanced.fps_counters p' = Enhanced.fps_counters p ∧
        threads e' = threads e ∧ heap e' = heap e).
Proof.
  repeat split.
  - intros p Hin. unfold Optimized.add_stream. by destruct (decide _).
  - intros p Hin. unfold Optimized.Api.add_stream, Optimized.add_stream.
    by destruct (decide _).
  - intros p Hout Hclosed. unfold Optimized.Api.add_stream, Optimized.add_stream.
    destruct (decide _); [done|]. simpl.
    pose proof (cap_isOpened_open_new e (unquote rtsp_url)) as Ho. simpl in Ho.
    by rewrite Ho, Hclosed.
  - intros p Hout Hclosed. unfold Optimized.add_stream.
    destruct (decide _); [done|]. simpl.
    pose proof (cap_isOpened_open_new e rtsp_url) as Ho. simpl in Ho. rewrite Ho, Hclosed.
    simpl. done.
  - intros p enable_ai Hin. unfold Enhanced.Api.add_stream.
    destruct (Enhanced.Api.validate stream_id rtsp_url) as [err|] eqn:Hv.
    + repeat split. right. by eapply validate_rejects.
    + destruct (decide _); [|done]. repeat split. by left.
  - intros p enable_ai Hout Hclosed. unfold Enhanced.Api.add_stream.
    destruct (Enhanced.Api.validate stream_id rtsp_url) as [err|] eqn:Hv.
    + repeat split. by eapply validate_rejects.
    + destruct (decide _); [done|]. unfold Enhanced.add_stream. simpl.
      pose proof (cap_isOpened_open_new e rtsp_url) as Ho. simpl in Ho. rewrite Ho, Hclosed.
      simpl. repeat split. by eexists.
Qed.

(** ** Removing a stream *)

(** C4, evaluated: [remove_stream] returns false from its [except] only,
    which on the optimized processor takes a connection to close and no
    running event loop, and which the enhanced one never reaches.  So it
    returns true exactly for an id that has no consumer and whenever it is
    called from the event loop, and the endpoint answers success for every
    id and never 404, on the optimized and on the enhanced service alike;
    for an id that was never added ("ghost" on a new processor) nothing is
    changed by such a call. *)
Theorem C4_remove_absent_stream_reports_success (e : Env) (stream_id : string) :
  (∀ p, (snd (Optimized.remove_stream p e stream_id) = true ↔
         running_loop e = true ∨
         default ∅ (Optimized.active_connections p !! stream_id) = ∅) ∧
        snd (Optimized.Api.remove_stream p e stream_id)
        = JsonResult true "Stream removed successfully") ∧
  (∀ p, snd (Enhanced.remove_stream p e stream_id) = true ∧
        snd (Enhanced.Api.remove_stream p e stream_id)
        = JsonResult true "Stream removed successfully") ∧
  Optimized.remove_stream Optimized.init Scenario.env "ghost"
  = (Optimized.init, Scenario.env, true) ∧
  Optimized.Api.remove_stream Optimized.init Scenario.env "ghost"
  = (Optimized.init, Scenario.env, JsonResult true "Stream removed successfully") ∧
  Enhanced.Api.remove_stream Enhanced.init Scenario.env "ghost"
  = (Enhanced.init, Scenario.env, JsonResult true "Stream removed successfully").
Proof.
  split; [|split].
  - intros p. split.
    + pose proof (remove_stream_spec p e stream_id) as Hs.
      destruct (Optimized.remove_stream p e stream_id) as [[p' e'] ok].
      destruct Hs as [-> _]. simpl.
      destruct (running_loop e); simpl; [by split; [left|]|].
      destruct (decide (default ∅ (Optimized.active_connections p !! stream_id) = ∅))
        as [Hempty|Hsome].
      * rewrite bool_decide_eq_true_2 by done. by split; [right|].
      * rewrite bool_decide_eq_false_2 by done. simpl. split; [done|]. by intros [|].
    + unfold Optimized.Api.remove_stream.
      pose proof (remove_stream_spec p (set_running_loop e true) stream_id) as Hs.
      destruct (Optimized.remove_stream p (set_running_loop e true) stream_id)
        as [[p' e'] ok].
      destruct Hs as [-> _]. done.
  - intros p. unfold Enhanced.Api.remove_stream, Enhanced.remove_stream. done.
  - vm_compute. repeat split; reflexivity.
Qed.

(** For a registered stream removed from inside the event loop, as the
    endpoint does, the removal does what is claimed: the capture is released
    and nothing stays registered under the id. *)
Lemma remove_stream_present p e stream_id cap :
  Optimized.streams p !! stream_id = Some cap →
  running_loop e = true →
  let '(p', e', ok) := Optimized.remove_stream p e stream_id in
  ok = true ∧ cap_isOpened e' cap = false ∧
  Optimized.streams p' !! stream_id = None ∧
  Optimized.latest_frames p' !! stream_id = None ∧
  (stream_id ∉ Optimized.frame_locks p') ∧
  Optimized.processing_threads p' !! stream_id = None ∧
  Optimized.stream_urls p' !! stream_id = None ∧
  Optimized.frame_queues p' !! stream_id = None ∧
  Optimized.active_connections p' !! stream_id = None.
Proof.
  intros Hs Hloop. pose proof (remove_stream_spec p e stream_id) as H.
  destruct (Optimized.remove_stream p e stream_id) as [[p' e'] ok].
  rewrite Hloop in H. simpl in H.
  destruct H as (-> & -> & -> & -> & -> & -> & -> & -> & _ & Hrel & _).
  rewrite !lookup_delete_eq. repeat split; try done; [by apply Hrel|].
  rewrite elem_of_difference, elem_of_singleton. tauto.
Qed.

(** ** Reconnecting *)

Lemma caps_cap_release_length e h : length (caps (cap_release e h)) = length (caps e).
Proof. unfold cap_release. destruct (caps e !! h); simpl; [by rewrite length_insert|done]. Qed.

Lemma camera_cap_release e h : camera (cap_release e h) = camera e.
Proof. unfold cap_release. by destruct (caps e !! h). Qed.

(** Releasing a capture leaves the others as they are. *)
Lemma cap_isOpened_release_ne e h h' :
  h ≠ h' → cap_isOpened (cap_release e h) h' = cap_isOpened e h'.
Proof.
  intros Hne. unfold cap_isOpened, cap_release.
  destruct (caps e !! h); simpl; [|done]. by rewrite list_lookup_insert_ne.
Qed.

(** A read on one capture does not open another. *)
Lemma cap_isOpened_read e h h' :
  cap_isOpened (snd (cap_read e h)) h' = cap_isOpened e h'.
Proof.
  unfold cap_read. destruct (caps e !! h) as [c|] eqn:Hc; [|done].
  destruct (isOpened c) eqn:Ho; [|done].
  destruct (feed c) as [|[a|] rest]; [done| |]; simpl; unfold cap_isOpened; simpl;
    (destruct (decide (h = h')) as [->|Hne];
     [rewrite list_lookup_insert_eq by (by eapply lookup_lt_Some); by rewrite Hc
     |by rewrite list_lookup_insert_ne]).
Qed.

(** The first read of a capture that has just been opened. *)
Lemma cap_read_new e url :
  let c := camera e (length (caps e)) url in
  isOpened c = true →
  fst (cap_read (snd (VideoCapture_open e url)) (length (caps e)))
  = match feed c with
    | Some _ :: _ => Some (length (heap e))
    | _ => None
    end.
Proof.
  intros c Ho. unfold cap_read, VideoCapture_open. simpl.
  rewrite lookup_app_r by lia. rewrite Nat.sub_diag. simpl. fold c. rewrite Ho.
  by destruct (feed c) as [|[a|] rest].
Qed.

(** C5, as claimed, fails on the optimized processor: where the cameras open
    but deliver nothing, the reconnection of "cam1" reports success and the
    stream is Streaming again, although a read on the new capture fails. *)
Lemma C5_optimized_reconnect_skips_trial_read :
  let '(p, e, _) := Optimized.add_stream Optimized.init Scenario.mute_env "cam1" Scenario.url in
  let '(p', e', ok) := Optimized._reconnect_stream p e "cam1" in
  ok = true ∧
  ∃ cap, Optimized.streams p' !! "cam1" = Some cap ∧
         cap_isOpened e' cap = true ∧
         fst (cap_read e' cap) = None.
Proof. vm_compute. split; [reflexivity|]. exists 1%nat. repeat split; reflexivity. Qed.

(** The enhanced reconnection in the same world fails and leaves the stream
    with its released capture. *)
Example enhanced_reconnect_needs_trial_read :
  let '(p, e, _) := Enhanced.add_stream Enhanced.init Scenario.mute_env "cam1" Scenario.url true in
  let '(p', e', ok) := Enhanced._reconnect_stream p e "cam1" in
  ok = false ∧ Enhanced.streams p' !! "cam1" = Some 0%nat ∧ cap_isOpened e' 0 = false.
Proof. vm_compute. repeat split; reflexivity. Qed.

Lemma enhanced_reconnect_result p e stream_id :
  snd (Enhanced._reconnect_stream p e stream_id) = true ↔
  ∃ rtsp_url, Enhanced.stream_urls p !! stream_id = Some rtsp_url ∧
              isOpened (camera e (length (caps e)) rtsp_url) = true ∧
              ∃ a rest, feed (camera e (length (caps e)) rtsp_url) = Some a :: rest.
Proof.
  unfold Enhanced._reconnect_stream.
  destruct (Enhanced.stream_urls p !! stream_id) as [url|]; [|simpl; split; [done|by intros (? & ? & _)]].
  set (e0 := match Enhanced.streams p !! stream_id with
             | Some old => cap_release e old
             | None => e
             end).
  assert (Hlen : length (caps e0) = length (caps e)).
  { subst e0. destruct (Enhanced.streams p !! stream_id); [apply caps_cap_release_length|done]. }
  assert (Hcam : camera e0 = camera e).
  { subst e0. destruct (Enhanced.streams p !! stream_id); [apply camera_cap_release|done]. }
  pose proof (cap_isOpened_open_new e0 url) as Ho.
  pose proof (cap_read_new e0 url) as Hr.
  unfold VideoCapture_open in *. simpl in Ho, Hr |- *. rewrite Ho.
  rewrite Hcam, Hlen in *.
  destruct (isOpened (camera e (length (caps e)) url)) eqn:Hopen; simpl.
  - specialize (Hr eq_refl).
    destruct (cap_read _ _) as [[fr|] e2] eqn:Hread; simpl in *.
    + split; [|done]. intros _. exists url. split; [done|]. split; [done|].
      destruct (feed _) as [|[a|] rest]; try done. by eexists _, _.
    + split; [done|]. intros (u & [= <-] & _ & a & rest & Hf). by rewrite Hf in Hr.
  - split; [done|]. intros (u & [= <-] & Hx & _). congruence.
Qed.

Lemma optimized_reconnect_result p e stream_id :
  snd (Optimized._reconnect_stream p e stream_id) = true ↔
  ∃ rtsp_url, Optimized.stream_urls p !! stream_id = Some rtsp_url ∧
              isOpened (camera e (length (caps e)) rtsp_url) = true.
Proof.
  unfold Optimized._reconnect_stream.
  destruct (Optimized.stream_urls p !! stream_id) as [url|]; [|simpl; split; [done|by intros (? & ? & _)]].
  destruct (Optimized.streams p !! stream_id) as [old|]; simpl.
  - pose proof (cap_isOpened_open_new (cap_release e old) url) as Ho. simpl in Ho.
    rewrite Ho, caps_cap_release_length, camera_cap_release.
    destruct (isOpened (camera e (length (caps e)) url)) eqn:Hopen; simpl; split; try done.
    + intros _. by exists url.
    + intros (u & [= <-] & Hx). congruence.
  - pose proof (cap_isOpened_open_new e url) as Ho. simpl in Ho. rewrite Ho.
    destruct (isOpened (camera e (length (caps e)) url)) eqn:Hopen; simpl; split; try done.
    + intros _. by exists url.
    + intros (u & [= <-] & Hx). congruence.
Qed.

(** A capture found opened after an open, other than the new one, was opened
    before. *)
Lemma cap_isOpened_open_inv e url h :
  cap_isOpened (snd (VideoCapture_open e url)) h = true →
  h ≠ length (caps e) → cap_isOpened e h = true.
Proof.
  unfold cap_isOpened, VideoCapture_open. simpl. intros Ho Hne.
  destruct (decide (h < length (caps e))%nat) as [Hlt|Hge].
  - by rewrite lookup_app_l in Ho.
  - rewrite lookup_app_r in Ho by lia.
    destruct (h - length (caps e))%nat as [|k] eqn:Hk; [lia|]. by destruct k.
Qed.

Lemma enhanced_reconnect_failure p e stream_id :
  let '(p', e', ok) := Enhanced._reconnect_stream p e stream_id in
  ok = false →
  p' = p ∧ (is_Some (Enhanced.stream_urls p !! stream_id) → ¬ Enhanced.streaming p' e' stream_id).
Proof.
  unfold Enhanced._reconnect_stream.
  destruct (Enhanced.stream_urls p !! stream_id) as [url|].
  2:{ intros _. split; [done|]. by intros [? ?]. }
  set (e0 := match Enhanced.streams p !! stream_id with
             | Some old => cap_release e old
             | None => e
             end).
  assert (Hold : ∀ old, Enhanced.streams p !! stream_id = Some old → cap_isOpened e0 old = false).
  { intros old Hs. subst e0. rewrite Hs. apply cap_isOpened_release. }
  pose proof (cap_isOpened_open_new e0 url) as Hnew.
  pose proof (cap_isOpened_open_inv e0 url) as Hinv.
  unfold VideoCapture_open in *. simpl in Hnew, Hinv |- *.
  set (e1 := set_caps e0 _) in *.
  destruct (cap_isOpened e1 (length (caps e0))) eqn:Ho1; simpl.
  - pose proof (cap_isOpened_read e1 (length (caps e0))) as Hread.
    destruct (cap_read e1 (length (caps e0))) as [[fr|] e2]; [done|]. simpl in Hread.
    intros _. split; [done|]. intros _ (cap & Hs & Hopen).
    destruct (decide (cap = length (caps e0))) as [->|Hne].
    + by rewrite cap_isOpened_release in Hopen.
    + rewrite cap_isOpened_release_ne, Hread in Hopen by done.
      specialize (Hinv cap Hopen Hne). rewrite (Hold cap Hs) in Hinv. done.
  - intros _. split; [done|]. intros _ (cap & Hs & Hopen).
    destruct (decide (cap = length (caps e0))) as [->|Hne]; [congruence|].
    specialize (Hinv cap Hopen Hne). rewrite (Hold cap Hs) in Hinv. done.
Qed.

Lemma optimized_reconnect_failure p e stream_id :
  let '(p', e', ok) := Optimized._reconnect_stream p e stream_id in
  ok = false → is_Some (Optimized.stream_urls p !! stream_id) →
  (stream_id ∉ dom (Optimized.streams p')) ∧ ¬ Optimized.streaming p' e' stream_id.
Proof.
  unfold Optimized._reconnect_stream.
  destruct (Optimized.stream_urls p !! stream_id) as [url|]; [|by intros _ [? ?]].
  assert (Hns : ∀ p' e', stream_id ∉ dom (Optimized.streams p') →
                         ¬ Optimized.streaming p' e' stream_id).
  { intros p' e' Hn (cap & Hs & _). apply Hn, elem_of_dom. by eexists. }
  destruct (Optimized.streams p !! stream_id) as [old|] eqn:Hs; simpl.
  - destruct (negb _); [|done]. intros _ _.
    assert (stream_id ∉ dom (delete stream_id (Optimized.streams p))) as Hn.
    { rewrite dom_delete_L, elem_of_difference, elem_of_singleton. tauto. }
    split; [done|]. by apply Hns.
  - destruct (negb _); [|done]. intros _ _.
    assert (stream_id ∉ dom (Optimized.streams p)) as Hn by (by apply not_elem_of_dom).
    split; [done|]. by apply Hns.
Qed.

(** C5, amended: the enhanced reconnection reports success exactly when a URL
    is stored for the stream, the reopened capture is opened and a trial read
    on it gives a frame; the optimized reconnection performs no trial read
    and reports success exactly when a URL is stored and the reopened capture
    is opened.  When either of them has a URL and returns false, the stream
    is not Streaming afterwards: the enhanced registry is unchanged and its
    capture is released, the optimized registry has no capture for the
    stream. *)
Theorem C5_reconnect_success_conditions (e : Env) (stream_id : string) :
  (∀ p, let '(p', e', ok) := Enhanced._reconnect_stream p e stream_id in
        (ok = true ↔
         ∃ rtsp_url, Enhanced.stream_urls p !! stream_id = Some rtsp_url ∧
                     isOpened (camera e (length (caps e)) rtsp_url) = true ∧
                     ∃ a rest, feed (camera e (length (caps e)) rtsp_url) = Some a :: rest) ∧
        (ok = false →
         p' = p ∧
         (is_Some (Enhanced.stream_urls p !! stream_id) →
          ¬ Enhanced.streaming p' e' stream_id))) ∧
  (∀ p, let '(p', e', ok) := Optimized._reconnect_stream p e stream_id in
        (ok = true ↔
         ∃ rtsp_url, Optimized.stream_urls p !! stream_id = Some rtsp_url ∧
                     isOpened (camera e (length (caps e)) rtsp_url) = true) ∧
        (ok = false → is_Some (Optimized.stream_urls p !! stream_id) →
         (stream_id ∉ dom (Optimized.streams p')) ∧ ¬ Optimized.streaming p' e' stream_id)).
Proof.
  split; intros p.
  - pose proof (enhanced_reconnect_result p e stream_id) as Hr.
    pose proof (enhanced_reconnect_failure p e stream_id) as Hf.
    by destruct (Enhanced._reconnect_stream p e stream_id) as [[p' e'] ok].
  - pose proof (optimized_reconnect_result p e stream_id) as Hr.
    pose proof (optimized_reconnect_failure p e stream_id) as Hf.
    by destruct (Optimized._reconnect_stream p e stream_id) as [[p' e'] ok].
Qed.

(** ** The push-socket handler *)

Lemma on_frame_connections `{Lib} l p e stream_id frame :
  let '(_, p', _, _) := Optimized.on_frame l p e stream_id frame in
  Optimized.active_connections p' = Optimized.active_connections p.
Proof.
  unfold Optimized.on_frame. simpl.
  destruct (decide _); [|done].
  destruct (ndarray_copy _ _) as [[c e1]|]; [|done].
  set (p1 := match heap e1 !! frame with Some a => _ | None => _ end).
  assert (Hp1 : Optimized.active_connections p1 = Optimized.active_connections p).
  { subst p1. destruct (heap e1 !! frame) as [a|]; [|done].
    destruct (enqueue_frame_only_queues
                (Optimized.set_latest_frames
                   (Optimized.set_consecutive_failures p
                      (<[stream_id := 0]> (Optimized.consecutive_failures p)))
                   (<[stream_id := c]> (Optimized.latest_frames p))) a stream_id) as [qs ->].
    done. }
  destruct (Optimized.update_fps _ p1 e1 stream_id) as [[[l' p']|] e2] eqn:Hu; [|done].
  apply update_fps_frame in Hu as (_ & _ & _ & _ & Ec & _). by rewrite Ec.
Qed.

(** A turn of a worker does not touch the consumer sets. *)
Lemma process_stream_iter_connections `{Lib} l p e stream_id :
  let '(_, p', _, _) := Optimized.process_stream_iter l p e stream_id in
  Optimized.active_connections p' = Optimized.active_connections p.
Proof.
  unfold Optimized.process_stream_iter.
  destruct (negb _); [done|].
  destruct (Optimized.streams p !! stream_id) as [cap|]; [|done].
  destruct (negb (cap_isOpened e cap)).
  { pose proof (try_reconnect_frame 5%float false l p e stream_id) as H0.
    destruct (Optimized.try_reconnect _ _ _ _ _ _) as [[l' p'] e']. tauto. }
  simpl. destruct (PrimFloat.ltb _ _).
  { pose proof (try_reconnect_frame 10%float true l p (set_ticks e (S (ticks e))) stream_id) as H0.
    destruct (Optimized.try_reconnect _ _ _ _ _ _) as [[l' p'] e']. tauto. }
  destruct (_ =? 0); [done|]. destruct (PrimFloat.ltb _ _); [done|].
  set (l2 := Optimized.MkLocals _ _ _ _).
  destruct (cap_read _ cap) as [[frame|] e3].
  - apply on_frame_connections.
  - unfold Optimized.on_read_failure.
    set (p1 := Optimized.set_consecutive_failures p _).
    destruct (_ <=? _); [|done].
    pose proof (try_reconnect_frame 10%float true l2 p1 e3 stream_id) as H0.
    destruct (Optimized.try_reconnect _ _ _ _ _ _) as [[l' p'] e']. tauto.
Qed.

Lemma unregister_websocket_at p stream_id websocket :
  Optimized.unregistered_at (Optimized.unregister_websocket p stream_id websocket)
    websocket stream_id.
Proof.
  unfold Optimized.unregistered_at, Optimized.unregister_websocket.
  destruct (Optimized.active_connections p !! stream_id) as [conns0|] eqn:Hc; simpl.
  - rewrite lookup_insert_eq. intros conns [= <-].
    rewrite elem_of_difference, elem_of_singleton. tauto.
  - by rewrite Hc.
Qed.

(** Unregistering one connection leaves every absence in place. *)
Lemma unregister_websocket_keeps p stream_id websocket ws sid :
  Optimized.unregistered_at p ws sid →
  Optimized.unregistered_at (Optimized.unregister_websocket p stream_id websocket) ws sid.
Proof.
  unfold Optimized.unregistered_at, Optimized.unregister_websocket. intros Ha.
  destruct (Optimized.active_connections p !! stream_id) as [conns0|] eqn:Hc; simpl; [|done].
  intros conns. rewrite lookup_insert. destruct (decide (stream_id = sid)) as [<-|Hne]; simpl.
  - intros [= <-]. rewrite elem_of_difference. intros [Hin _]. by apply (Ha conns0).
  - apply Ha.
Qed.

(** Registering a connection adds that connection to that stream only. *)
Lemma register_websocket_keeps p stream_id websocket ws sid :
  ws ≠ websocket ∨ sid ≠ stream_id →
  Optimized.unregistered_at p ws sid →
  Optimized.unregistered_at (Optimized.register_websocket p stream_id websocket) ws sid.
Proof.
  unfold Optimized.unregistered_at, Optimized.register_websocket. intros Hne Ha.
  destruct (decide (stream_id ∈ dom (Optimized.active_connections p))) as [Hin|Hout]; simpl.
  - apply elem_of_dom in Hin as [conns0 Hc]. rewrite Hc. simpl.
    intros conns. rewrite lookup_insert. destruct (decide (stream_id = sid)) as [<-|Hn]; simpl.
    + intros [= <-]. rewrite elem_of_union, elem_of_singleton.
      intros [->|Hin]; [by destruct Hne|]. by apply (Ha conns0).
    + apply Ha.
  - rewrite lookup_insert_eq. simpl.
    intros conns. rewrite lookup_insert. destruct (decide (stream_id = sid)) as [<-|Hn]; simpl.
    + intros [= <-]. rewrite elem_of_union, elem_of_singleton.
      intros [->|Hin]; [by destruct Hne|]. by apply elem_of_empty in Hin.
    + rewrite lookup_insert_ne by done. apply Ha.
Qed.

(** A step of the handler of another connection leaves every absence of
    this one in place. *)
Lemma websocket_stream_keeps h p e stream_id websocket ws sid :
  ws ≠ websocket →
  Optimized.unregistered_at p ws sid →
  let '(p', _, _) := Optimized.websocket_stream h p e stream_id websocket in
  Optimized.unregistered_at p' ws sid.
Proof.
  intros Hne Ha. destruct h; simpl; [| |done].
  - unfold Optimized.websocket_open. destruct (decide _).
    + pose proof (register_websocket_keeps p stream_id websocket ws sid (or_introl Hne) Ha) as Hr.
      destruct (Optimized.ws_send _ _ _); [done|]. by apply unregister_websocket_keeps.
    + by destruct (Optimized.ws_send _ _ _).
  - unfold Optimized.websocket_iter. destruct (decide _).
    + destruct (Optimized.frame_queues p !! stream_id) as [q|]; [|done].
      destruct (get_nowait q) as [[x q']|]; by destruct (Optimized.ws_send _ _ _).
    + by apply unregister_websocket_keeps.
Qed.

(** No step of the rest of the service puts the connection into a set. *)
Lemma act_keeps `{Lib} a w ws sid :
  Optimized.foreign ws (Some a) →
  Optimized.unregistered_at (fst w) ws sid →
  Optimized.unregistered_at (fst (Optimized.act a w)) ws sid.
Proof.
  destruct w as [p e]. intros Hf Ha.
  destruct a as [id url|id| |id l|id|h id ws'|ws']; simpl in *.
  - unfold Optimized.add_stream. destruct (decide _); [done|]. simpl.
    assert (Hnew : Optimized.unregistered_at
              (Optimized.set_active_connections p
                 (<[id := ∅]> (Optimized.active_connections p))) ws sid).
    { intros conns. simpl. rewrite lookup_insert. destruct (decide (id = sid)); simpl.
      - intros [= <-]. apply not_elem_of_empty.
      - apply Ha. }
    destruct (negb _); simpl; exact Hnew.
  - pose proof (remove_stream_spec p e id) as Hs.
    destruct (Optimized.remove_stream p e id) as [[p' e'] ok].
    destruct Hs as (_ & _ & _ & _ & _ & _ & _ & Ec & _). simpl.
    intros conns. rewrite Ec. destruct (_ && _); [apply Ha|].
    intros [_ Hc]%lookup_delete_Some. by apply (Ha conns).
  - exact Ha.
  - pose proof (process_stream_iter_connections l p e id) as Hc.
    destruct (Optimized.process_stream_iter l p e id) as [[[l' p'] e'] o]. simpl.
    intros conns. rewrite Hc. apply Ha.
  - by destruct (Optimized.get_latest_frame p e id).
  - pose proof (websocket_stream_keeps h p e id ws' ws sid) as Hk.
    destruct (Optimized.websocket_stream h p e id ws') as [[p' e'] h']. simpl.
    apply Hk; [by intros ->|done].
  - exact Ha.
Qed.

Lemma websocket_stream_inv h p e stream_id websocket :
  Optimized.handler_inv stream_id websocket h p →
  let '(p', _, h') := Optimized.websocket_stream h p e stream_id websocket in
  Optimized.handler_inv stream_id websocket h' p'.
Proof.
  intros Hi. destruct h; simpl in *; [| |done].
  - unfold Optimized.websocket_open. destruct (decide _).
    + destruct (Optimized.ws_send _ _ _); simpl.
      * intros sid Hne. apply register_websocket_keeps; [by right|apply Hi].
      * intros sid. destruct (decide (sid = stream_id)) as [->|Hne].
        -- apply unregister_websocket_at.
        -- apply unregister_websocket_keeps, register_websocket_keeps; [by right|apply Hi].
    + by destruct (Optimized.ws_send _ _ _).
  - unfold Optimized.websocket_iter. destruct (decide _).
    + destruct (Optimized.frame_queues p !! stream_id) as [q|]; [|done].
      destruct (get_nowait q) as [[x q']|]; by destruct (Optimized.ws_send _ _ _).
    + simpl. intros sid. destruct (decide (sid = stream_id)) as [->|Hne].
      * apply unregister_websocket_at.
      * by apply unregister_websocket_keeps, Hi.
Qed.

Lemma run_inv `{Lib} schedule stream_id websocket h w :
  Optimized.handler_inv stream_id websocket h (fst w) →
  Forall (Optimized.foreign websocket) schedule →
  let '(h', w') := Optimized.run schedule stream_id websocket h w in
  Optimized.handler_inv stream_id websocket h' (fst w').
Proof.
  revert h w. induction schedule as [|[a|] rest IH]; intros h w Hi Hf; simpl.
  - done.
  - apply Forall_cons in Hf as [Ha Hrest]. apply IH; [|done].
    destruct h; simpl in *; intros sid; try intros Hne; apply act_keeps; auto.
  - apply Forall_cons in Hf as [_ Hrest]. destruct w as [p e]. simpl in *.
    pose proof (websocket_stream_inv h p e stream_id websocket Hi) as Hs.
    destruct (Optimized.websocket_stream h p e stream_id websocket) as [[p' e'] h'].
    by apply IH.
Qed.

(** C8: run the handler of a new connection against any steps of the rest of
    the service (registry calls, worker turns, readers, other handlers, peers
    going away), in any order; whenever the handler has returned - the stream
    was not there, the loop ended because the stream was removed, or a send
    raised - the connection is in no consumer set, and it stays in none. *)
Theorem C8_handler_leaves_no_consumer_reference `{Lib}
    (schedule : list (option Optimized.Action)) (stream_id : string) (websocket : nat)
    (w : Optimized.StreamProcessor * Env) :
  Optimized.unregistered (fst w) websocket →
  Forall (Optimized.foreign websocket) schedule →
  let '(h, (p, _)) := Optimized.run schedule stream_id websocket Optimized.Accepted w in
  h = Optimized.Finished → Optimized.unregistered p websocket.
Proof.
  intros Hu Hf.
  pose proof (run_inv schedule stream_id websocket Optimized.Accepted w Hu Hf) as Hi.
  destruct (Optimized.run schedule stream_id websocket Optimized.Accepted w) as [h [p e]].
  by intros ->.
Qed.

Lemma added_unregistered websocket :
  Optimized.unregistered (fst Scenario.added) websocket.
Proof.
  intros sid conns.
  change (Optimized.active_connections (fst Scenario.added))
    with (<["cam1" := (∅ : gset nat)]> (∅ : gmap string (gset nat))).
  rewrite lookup_insert. destruct (decide ("cam1" = sid)); simpl.
  - intros [= <-]. apply not_elem_of_empty.
  - by rewrite lookup_empty.
Qed.

(** A consumer of "cam1" on socket 0: it connects, the worker delivers a
    frame, the frame is forwarded, the stream is removed, and the handler
    returns on its next turn, leaving no reference. *)
Lemma C8_handler_leaves_no_consumer_reference_witness :
  let schedule :=
    [None; Some Optimized.WorkerStart;
     Some (Optimized.WorkerTurn "cam1" (fst Scenario.started)); None;
     Some (Optimized.RemoveStream "cam1"); None] in
  let '(h, (p, e)) :=
    Optimized.run (H := Scenario.lib) schedule "cam1" 0 Optimized.Accepted Scenario.added in
  h = Optimized.Finished ∧
  Optimized.unregistered p 0 ∧
  (outbox <$> sockets e !! 0%nat)
  = Some [JsonInfo (Info "cam1" true 0 3 2 1); Binary (Scenario.jpeg Scenario.small);
          Text "Stream ended"].
Proof.
  intros schedule.
  pose proof (C8_handler_leaves_no_consumer_reference (H := Scenario.lib) schedule "cam1" 0
                Scenario.added (added_unregistered 0)) as Hc.
  assert (Hf : Forall (Optimized.foreign 0) schedule).
  { subst schedule. repeat constructor. }
  specialize (Hc Hf).
  destruct (Optimized.run schedule "cam1" 0 Optimized.Accepted Scenario.added)
    as [h [p e]] eqn:E.
  assert (Hh : h = Optimized.Finished).
  { apply (f_equal fst) in E. simpl in E. rewrite <- E. vm_compute. reflexivity. }
  split; [exact Hh|]. split; [exact (Hc Hh)|].
  apply (f_equal (λ x, outbox <$> sockets (snd (snd x)) !! 0%nat)) in E. simpl in E.
  rewrite <- E. vm_compute. reflexivity.
Defined.

(** What one turn of the delivery loop does, case by case. *)

Lemma websocket_iter_forwards p e stream_id websocket q b rest s :
  stream_id ∈ dom (Optimized.streams p) →
  Optimized.frame_queues p !! stream_id = Some q → items q = b :: rest →
  sockets e !! websocket = Some s → connected s = true →
  Optimized.websocket_iter p e stream_id websocket
  = (Optimized.set_frame_queues p
       (<[stream_id := MkQueue (maxsize q) rest]> (Optimized.frame_queues p)),
     set_sockets e (<[websocket := Sock true (outbox s ++ [Binary b])]> (sockets e)),
     Optimized.Streaming).
Proof.
  intros Hin Hq Hits Hs Hc. unfold Optimized.websocket_iter, Optimized.ws_send, get_nowait.
  destruct (decide _); [|done]. by rewrite Hq, Hits, Hs, Hc.
Qed.

Lemma websocket_iter_heartbeat p e stream_id websocket q s :
  stream_id ∈ dom (Optimized.streams p) →
  Optimized.frame_queues p !! stream_id = Some q → items q = [] →
  sockets e !! websocket = Some s → connected s = true →
  Optimized.websocket_iter p e stream_id websocket
  = (p, set_sockets e (<[websocket := Sock true (outbox s ++ [JsonHeartbeat])]> (sockets e)),
     Optimized.Streaming).
Proof.
  intros Hin Hq Hits Hs Hc. unfold Optimized.websocket_iter, Optimized.ws_send, get_nowait.
  destruct (decide _); [|done]. by rewrite Hq, Hits, Hs, Hc.
Qed.

Lemma websocket_iter_removed p e stream_id websocket :
  stream_id ∉ dom (Optimized.streams p) →
  ∃ e', Optimized.websocket_iter p e stream_id websocket
        = (Optimized.unregister_websocket p stream_id websocket, e', Optimized.Finished).
Proof.
  intros Hout. unfold Optimized.websocket_iter. destruct (decide _); [done|]. by eexists.
Qed.

(** With the peer gone every send raises, the turn swallows it, and the loop
    stays where it was: registry, consumer sets and world are untouched but
    for a frame taken from the queue and lost. *)
Lemma websocket_iter_peer_gone p e stream_id websocket s :
  stream_id ∈ dom (Optimized.streams p) →
  sockets e !! websocket = Some s → connected s = false →
  ∃ p', Optimized.websocket_iter p e stream_id websocket = (p', e, Optimized.Streaming) ∧
        Optimized.streams p' = Optimized.streams p ∧
        Optimized.active_connections p' = Optimized.active_connections p.
Proof.
  intros Hin Hs Hc. unfold Optimized.websocket_iter, Optimized.ws_send.
  destruct (decide _); [|done]. rewrite Hs, Hc.
  destruct (Optimized.frame_queues p !! stream_id) as [q|]; [|by eexists].
  destruct (get_nowait q) as [[x q']|]; by eexists.
Qed.

Lemma run_peer_gone `{Lib} n p e stream_id websocket s :
  stream_id ∈ dom (Optimized.streams p) →
  sockets e !! websocket = Some s → connected s = false →
  ∃ p', Optimized.run (replicate n None) stream_id websocket Optimized.Streaming (p, e)
        = (Optimized.Streaming, (p', e)) ∧
        Optimized.streams p' = Optimized.streams p ∧
        Optimized.active_connections p' = Optimized.active_connections p.
Proof.
  intros Hin Hs Hc. revert p Hin. induction n as [|n IH]; intros p Hin; simpl.
  - by exists p.
  - destruct (websocket_iter_peer_gone p e stream_id websocket s Hin Hs Hc)
      as (p1 & -> & Es & Ec).
    destruct (IH p1) as (p2 & -> & Es2 & Ec2); [by rewrite Es|].
    exists p2. repeat split; congruence.
Qed.

(** C7, evaluated: the consumer of "cam1" on socket 0 has received the info
    message and its peer has gone away; however many turns the delivery loop
    then takes, it is still in the loop, the stream still registered and the
    connection still in the consumer set of the stream. *)
Theorem C7_delivery_loop_outlives_consumer (n : nat) :
  fst Scenario.subscribed = Optimized.Streaming ∧
  (connected <$> sockets (snd Scenario.gone) !! 0%nat) = Some false ∧
  let '(h, (p, e)) :=
    Optimized.run (H := Scenario.lib) (replicate n None) "cam1" 0 Optimized.Streaming
      Scenario.gone in
  h = Optimized.Streaming ∧
  "cam1" ∈ dom (Optimized.streams p) ∧
  Optimized.active_connections p !! "cam1" = Some {[0%nat]} ∧
  (outbox <$> sockets e !! 0%nat) = Some [JsonInfo (Info "cam1" true 0 3 2 1)].
Proof.
  split; [vm_compute; reflexivity|]. split; [vm_compute; reflexivity|].
  assert (Hin : "cam1" ∈ dom (Optimized.streams (fst Scenario.gone))).
  { apply elem_of_dom. exists 0%nat. vm_compute. reflexivity. }
  assert (Hs : sockets (snd Scenario.gone) !! 0%nat
               = Some (Sock false [JsonInfo (Info "cam1" true 0 3 2 1)])).
  { vm_compute. reflexivity. }
  destruct (run_peer_gone (H := Scenario.lib) n (fst Scenario.gone) (snd Scenario.gone)
              "cam1" 0 _ Hin Hs eq_refl) as (p' & Hrun & Es & Ec).
  replace Scenario.gone with (fst Scenario.gone, snd Scenario.gone) by (by destruct Scenario.gone).
  rewrite Hrun. split; [done|]. split; [by rewrite Es|]. split; [|by rewrite Hs].
  rewrite Ec. vm_compute. reflexivity.
Qed.

(** ** Known and unknown ids

    Locks and stored URLs are created by [add_stream] and deleted by
    [remove_stream], together, and nothing else touches them: an id has a
    lock exactly when a URL is stored for it, that is, when it has been added
    and not removed since. *)

Lemma reconnect_urls p e stream_id :
  let '(p', _, _) := Optimized._reconnect_stream p e stream_id in
  Optimized.stream_urls p' = Optimized.stream_urls p.
Proof.
  unfold Optimized._reconnect_stream.
  destruct (Optimized.stream_urls p !! stream_id) as [url|]; [|done].
  destruct (Optimized.streams p !! stream_id); simpl; by destruct (negb _).
Qed.

Lemma try_reconnect_urls gap mark l p e stream_id :
  let '(_, p', _) := Optimized.try_reconnect gap mark l p e stream_id in
  Optimized.stream_urls p' = Optimized.stream_urls p.
Proof.
  unfold Optimized.try_reconnect. simpl. destruct (PrimFloat.ltb _ _); [|done].
  pose proof (reconnect_urls p (set_ticks e (S (ticks e))) stream_id) as H.
  destruct (Optimized._reconnect_stream _ _ _) as [[p' e'] ok].
  destruct ok; simpl; [destruct mark|]; simpl; exact H.
Qed.

Lemma update_fps_urls l p e stream_id l' p' e' :
  Optimized.update_fps l p e stream_id = (Some (l', p'), e') →
  Optimized.stream_urls p' = Optimized.stream_urls p.
Proof.
  unfold Optimized.update_fps. simpl.
  destruct (Optimized.last_fps_time p !! stream_id) as [last|]; [|done].
  destruct (PrimFloat.leb _ _); intros [= <- <- <-]; done.
Qed.

Lemma on_frame_registry `{Lib} l p e stream_id frame :
  let '(_, p', _, _) := Optimized.on_frame l p e stream_id frame in
  Optimized.stream_urls p' = Optimized.stream_urls p ∧
  Optimized.frame_locks p' = Optimized.frame_locks p.
Proof.
  unfold Optimized.on_frame. simpl.
  destruct (decide _); [|done].
  destruct (ndarray_copy _ _) as [[c e1]|]; [|done].
  set (p1 := match heap e1 !! frame with Some a => _ | None => _ end).
  assert (Hp1 : Optimized.stream_urls p1 = Optimized.stream_urls p ∧
                Optimized.frame_locks p1 = Optimized.frame_locks p).
  { subst p1. destruct (heap e1 !! frame) as [a|]; [|done].
    destruct (enqueue_frame_only_queues
                (Optimized.set_latest_frames
                   (Optimized.set_consecutive_failures p
                      (<[stream_id := 0]> (Optimized.consecutive_failures p)))
                   (<[stream_id := c]> (Optimized.latest_frames p))) a stream_id) as [qs ->].
    done. }
  destruct (Optimized.update_fps _ p1 e1 stream_id) as [[[l' p']|] e2] eqn:Hu; [|done].
  pose proof (update_fps_urls _ _ _ _ _ _ _ Hu) as Eu.
  apply update_fps_frame in Hu as (_ & El & _). by rewrite Eu, El.
Qed.

Lemma process_stream_iter_registry `{Lib} l p e stream_id :
  let '(_, p', _, _) := Optimized.process_stream_iter l p e stream_id in
  Optimized.stream_urls p' = Optimized.stream_urls p ∧
  Optimized.frame_locks p' = Optimized.frame_locks p.
Proof.
  assert (Htry : ∀ gap mark l p e,
    let '(_, p', _) := Optimized.try_reconnect gap mark l p e stream_id in
    Optimized.stream_urls p' = Optimized.stream_urls p ∧
    Optimized.frame_locks p' = Optimized.frame_locks p).
  { intros gap mark l0 p0 e0.
    pose proof (try_reconnect_urls gap mark l0 p0 e0 stream_id) as Hu.
    pose proof (try_reconnect_frame gap mark l0 p0 e0 stream_id) as Hf.
    destruct (Optimized.try_reconnect _ _ _ _ _ _) as [[l' p'] e']. tauto. }
  unfold Optimized.process_stream_iter.
  destruct (negb _); [done|].
  destruct (Optimized.streams p !! stream_id) as [cap|]; [|done].
  destruct (negb (cap_isOpened e cap)).
  { specialize (Htry 5%float false l p e).
    by destruct (Optimized.try_reconnect _ _ _ _ _ _) as [[l' p'] e']. }
  simpl. destruct (PrimFloat.ltb _ _).
  { specialize (Htry 10%float true l p (set_ticks e (S (ticks e)))).
    by destruct (Optimized.try_reconnect _ _ _ _ _ _) as [[l' p'] e']. }
  destruct (_ =? 0); [done|]. destruct (PrimFloat.ltb _ _); [done|].
  set (l2 := Optimized.MkLocals _ _ _ _).
  destruct (cap_read _ cap) as [[frame|] e3].
  - apply on_frame_registry.
  - unfold Optimized.on_read_failure.
    set (p1 := Optimized.set_consecutive_failures p _).
    destruct (_ <=? _); [|done].
    specialize (Htry 10%float true l2 p1 e3).
    by destruct (Optimized.try_reconnect _ _ _ _ _ _) as [[l' p'] e'].
Qed.

Lemma websocket_stream_registry h p e stream_id websocket :
  let '(p', _, _) := Optimized.websocket_stream h p e stream_id websocket in
  Optimized.stream_urls p' = Optimized.stream_urls p ∧
  Optimized.frame_locks p' = Optimized.frame_locks p.
Proof.
  assert (Hreg : ∀ p, Optimized.stream_urls (Optimized.register_websocket p stream_id websocket)
                      = Optimized.stream_urls p ∧
                      Optimized.frame_locks (Optimized.register_websocket p stream_id websocket)
                      = Optimized.frame_locks p).
  { intros p0. unfold Optimized.register_websocket.
    destruct (decide _); simpl; by destruct (_ !! _). }
  assert (Hun : ∀ p, Optimized.stream_urls (Optimized.unregister_websocket p stream_id websocket)
                     = Optimized.stream_urls p ∧
                     Optimized.frame_locks (Optimized.unregister_websocket p stream_id websocket)
                     = Optimized.frame_locks p).
  { intros p0. unfold Optimized.unregister_websocket. by destruct (_ !! _). }
  destruct h; simpl; [| |done].
  - unfold Optimized.websocket_open. destruct (decide _).
    + destruct (Optimized.ws_send _ _ _); [apply Hreg|].
      destruct (Hun (Optimized.register_websocket p stream_id websocket)) as [-> ->]. apply Hreg.
    + by destruct (Optimized.ws_send _ _ _).
  - unfold Optimized.websocket_iter. destruct (decide _); [|apply Hun].
    destruct (Optimized.frame_queues p !! stream_id) as [q|]; [|done].
    destruct (get_nowait q) as [[x q']|]; by destruct (Optimized.ws_send _ _ _).
Qed.

Lemma reachable_locks_urls `{Lib} w :
  Optimized.reachable w →
  ∀ id, id ∈ Optimized.frame_locks (fst w) ↔ id ∈ dom (Optimized.stream_urls (fst w)).
Proof.
  induction 1 as [e He|a [p e] _ IH]; simpl.
  { intros id. by rewrite dom_empty_L. }
  simpl in IH. destruct a as [sid url|sid| |sid l|sid|h sid ws|ws]; simpl; try exact IH.
  - unfold Optimized.add_stream. destruct (decide _); [exact IH|]. simpl.
    assert (∀ id, id ∈ {[sid]} ∪ Optimized.frame_locks p ↔
                  id ∈ dom (<[sid := url]> (Optimized.stream_urls p))) as Hnew.
    { intros id. rewrite dom_insert_L, !elem_of_union, IH. tauto. }
    by destruct (negb _).
  - pose proof (remove_stream_spec p e sid) as Hs.
    destruct (Optimized.remove_stream p e sid) as [[p' e'] ok].
    destruct Hs as (_ & _ & _ & El & _ & Eu & _). simpl. intros id.
    rewrite El, Eu, dom_delete_L, !elem_of_difference, IH. tauto.
  - pose proof (process_stream_iter_registry l p e sid) as Hs.
    destruct (Optimized.process_stream_iter l p e sid) as [[[l' p'] e'] o].
    destruct Hs as [Eu El]. simpl. intros id. by rewrite El, Eu.
  - by destruct (Optimized.get_latest_frame p e sid).
  - pose proof (websocket_stream_registry h p e sid ws) as Hs.
    destruct (Optimized.websocket_stream h p e sid ws) as [[p' e'] h'].
    destruct Hs as [Eu El]. simpl. intros id. by rewrite El, Eu.
Qed.

(** In every state of the service, an id for which no URL is stored (it was
    never added, or has been removed) gets 404 from the snapshot endpoint and
    [None] from the frame cache. *)
Lemma snapshot_of_unknown_id `{Lib} w stream_id quality :
  Optimized.reachable w →
  Optimized.stream_urls (fst w) !! stream_id = None →
  Optimized.get_latest_frame (fst w) (snd w) stream_id = (None, snd w) ∧
  Optimized.Api.get_stream_frame (fst w) (snd w) stream_id quality
  = (HTTPException 404 "Stream not found or no frame available", snd w).
Proof.
  intros Hr Hu.
  assert (Hno : stream_id ∉ Optimized.frame_locks (fst w)).
  { rewrite (reachable_locks_urls w Hr). by apply not_elem_of_dom. }
  unfold Optimized.Api.get_stream_frame.
  by rewrite (get_latest_frame_absent _ _ _ (or_introl Hno)).
Qed.

(** ** The snapshot endpoint *)

(** C6: [GET /stream/{id}/frame] answers 404 when the id has no lock or no
    frame is cached for it, never an empty success; in every state of the
    service that is the case of an unknown id, one for which no URL is
    stored.  Otherwise the reply is the JPEG encoding of the cached frame, at
    the requested quality or, when none is requested, at the processor's
    [jpeg_quality] (an encoder that raises leaves the handler with an error,
    not with a success), and the cached frame stays as it was; in every state
    of the service a cached frame is an array of the store. *)
Theorem C6_snapshot_is_cached_frame_or_404 `{Lib} (p : Optimized.StreamProcessor)
    (e : Env) (stream_id : string) (quality : option Z) :
  (stream_id ∉ Optimized.frame_locks p ∨ Optimized.latest_frames p !! stream_id = None →
   Optimized.Api.get_stream_frame p e stream_id quality
   = (HTTPException 404 "Stream not found or no frame available", e)) ∧
  (Optimized.reachable (p, e) → Optimized.stream_urls p !! stream_id = None →
   Optimized.Api.get_stream_frame p e stream_id quality
   = (HTTPException 404 "Stream not found or no frame available", e)) ∧
  (∀ c a,
     stream_id ∈ Optimized.frame_locks p →
     Optimized.latest_frames p !! stream_id = Some c →
     heap e !! c = Some a →
     ∃ e', Optimized.Api.get_stream_frame p e stream_id quality
           = (match imencode a (match quality with
                                | Some q => q
                                | None => Optimized.jpeg_quality p
                                end) with
              | Some body => JpegResponse body
              | None => UnhandledError
              end, e') ∧
           heap e' !! c = Some a) ∧
  (Optimized.reachable (p, e) →
   ∀ c, Optimized.latest_frames p !! stream_id = Some c → is_Some (heap e !! c)).
Proof.
  split; [|split; [|split]].
  - intros Hno. unfold Optimized.Api.get_stream_frame.
    by rewrite (get_latest_frame_absent p e stream_id Hno).
  - intros Hr Hu. by apply (snapshot_of_unknown_id (p, e) stream_id quality Hr Hu).
  - intros c a Hin Hc Ha. unfold Optimized.Api.get_stream_frame.
    rewrite (get_latest_frame_copy p e stream_id c a Hin Hc Ha). simpl.
    rewrite list_lookup_middle by done.
    exists (set_heap e (heap e ++ [a])). split.
    + by destruct (imencode a _).
    + simpl. rewrite lookup_app_l; [done|]. by eapply lookup_lt_Some.
  - intros Hr c Hc. apply lookup_lt_is_Some_2.
    by apply (Optimized.frames_stored _ (reachable_consistent _ Hr) stream_id).
Qed.

(** * Further properties of the code *)

(** ** Streams are independent of each other *)

Lemma untouched_refl other p : untouched other p p.
Proof. by repeat split. Qed.

Lemma untouched_trans other p1 p2 p3 :
  untouched other p1 p2 → untouched other p2 p3 → untouched other p1 p3.
Proof.
  unfold untouched.
  intros (A1 & A2 & A3 & A4 & A5 & A6 & A7 & A8 & A9 & A10)
         (B1 & B2 & B3 & B4 & B5 & B6 & B7 & B8 & B9 & B10).
  repeat split; try congruence; tauto.
Qed.

Ltac untouched_by_lookup :=
  unfold untouched; simpl;
  rewrite ?lookup_insert_ne, ?lookup_delete_ne by done;
  repeat split; done.

Lemma reconnect_untouched p e stream_id other :
  other ≠ stream_id →
  let '(p', _, _) := Optimized._reconnect_stream p e stream_id in untouched other p p'.
Proof.
  intros Hne. unfold Optimized._reconnect_stream.
  destruct (Optimized.stream_urls p !! stream_id) as [url|]; [|apply untouched_refl].
  destruct (Optimized.streams p !! stream_id) as [old|]; simpl;
    destruct (negb _); untouched_by_lookup.
Qed.

Lemma try_reconnect_untouched gap mark l p e stream_id other :
  other ≠ stream_id →
  let '(_, p', _) := Optimized.try_reconnect gap mark l p e stream_id in untouched other p p'.
Proof.
  intros Hne. unfold Optimized.try_reconnect. simpl.
  destruct (PrimFloat.ltb _ _); [|apply untouched_refl].
  pose proof (reconnect_untouched p (set_ticks e (S (ticks e))) stream_id other Hne) as H.
  destruct (Optimized._reconnect_stream _ _ _) as [[p' e'] ok].
  destruct ok; simpl; [destruct mark|]; simpl; exact H.
Qed.

Lemma enqueue_frame_untouched `{Lib} p a stream_id other :
  other ≠ stream_id → untouched other p (Optimized.enqueue_frame p a stream_id).
Proof.
  intros Hne. unfold Optimized.enqueue_frame.
  destruct (Optimized.frame_queues p !! stream_id) as [q|]; [|apply untouched_refl].
  destruct (Optimized.resize_for_queue a) as [a'|]; [|untouched_by_lookup].
  destruct (imencode a' _) as [b|]; [|untouched_by_lookup].
  destruct (put_nowait _ b); untouched_by_lookup.
Qed.

Lemma update_fps_untouched l p e stream_id other l' p' e' :
  other ≠ stream_id →
  Optimized.update_fps l p e stream_id = (Some (l', p'), e') → untouched other p p'.
Proof.
  intros Hne. unfold Optimized.update_fps. simpl.
  destruct (Optimized.last_fps_time p !! stream_id) as [last|]; [|done].
  destruct (PrimFloat.leb _ _); intros [= <- <- <-]; untouched_by_lookup.
Qed.

Lemma on_frame_untouched `{Lib} l p e stream_id frame other :
  other ≠ stream_id →
  let '(_, p', _, _) := Optimized.on_frame l p e stream_id frame in untouched other p p'.
Proof.
  intros Hne. unfold Optimized.on_frame. simpl.
  set (p0 := Optimized.set_consecutive_failures p _).
  assert (H0 : untouched other p p0) by (subst p0; untouched_by_lookup).
  destruct (decide _); [|exact H0].
  destruct (ndarray_copy _ _) as [[c e1]|]; [|exact H0].
  set (p1 := Optimized.set_latest_frames p0 _).
  assert (H1 : untouched other p p1) by (subst p1 p0; untouched_by_lookup).
  set (p2 := match heap e1 !! frame with Some a => _ | None => _ end).
  assert (H2 : untouched other p p2).
  { subst p2. destruct (heap e1 !! frame) as [a|]; [|exact H1].
    eapply untouched_trans; [exact H1|]. by apply enqueue_frame_untouched. }
  destruct (Optimized.update_fps _ p2 e1 stream_id) as [[[l' p']|] e2] eqn:Hu; [|exact H2].
  eapply untouched_trans; [exact H2|]. by eapply update_fps_untouched.
Qed.

Lemma on_read_failure_untouched l p e stream_id other :
  other ≠ stream_id →
  let '(_, p', _, _) := Optimized.on_read_failure l p e stream_id in untouched other p p'.
Proof.
  intros Hne. unfold Optimized.on_read_failure.
  set (p1 := Optimized.set_consecutive_failures p _).
  assert (H1 : untouched other p p1) by (subst p1; untouched_by_lookup).
  destruct (_ <=? _); [|exact H1].
  pose proof (try_reconnect_untouched 10%float true l p1 e stream_id other Hne) as H2.
  destruct (Optimized.try_reconnect _ _ _ _ _ _) as [[l' p'] e'].
  by eapply untouched_trans.
Qed.

(** X1: a turn of the worker of one stream leaves everything the processor
    holds for any other stream as it was: registry entry, URL, cached frame,
    lock, thread, queue, consumer set and counters. *)
Theorem X1_worker_turn_leaves_other_streams `{Lib} (l : Optimized.Locals)
    (p : Optimized.StreamProcessor) (e : Env) (stream_id other : string) :
  other ≠ stream_id →
  let '(_, p', _, _) := Optimized.process_stream_iter l p e stream_id in
  untouched other p p'.
Proof.
  intros Hne. unfold Optimized.process_stream_iter.
  destruct (negb _); [apply untouched_refl|].
  destruct (Optimized.streams p !! stream_id) as [cap|]; [|apply untouched_refl].
  destruct (negb (cap_isOpened e cap)).
  { pose proof (try_reconnect_untouched 5%float false l p e stream_id other Hne) as H0.
    by destruct (Optimized.try_reconnect _ _ _ _ _ _) as [[l' p'] e']. }
  simpl. destruct (PrimFloat.ltb _ _).
  { pose proof (try_reconnect_untouched 10%float true l p (set_ticks e (S (ticks e)))
                  stream_id other Hne) as H0.
    by destruct (Optimized.try_reconnect _ _ _ _ _ _) as [[l' p'] e']. }
  destruct (_ =? 0); [apply untouched_refl|].
  destruct (PrimFloat.ltb _ _); [apply untouched_refl|].
  destruct (cap_read _ cap) as [[frame|] e3].
  - by apply on_frame_untouched.
  - by apply on_read_failure_untouched.
Qed.

Lemma caps_cap_release_ne e h h' : h ≠ h' → caps (cap_release e h) !! h' = caps e !! h'.
Proof.
  intros Hne. unfold cap_release. destruct (caps e !! h); simpl; [|done].
  by rewrite list_lookup_insert_ne.
Qed.

Lemma caps_cap_read_ne e h h' : h ≠ h' → caps (snd (cap_read e h)) !! h' = caps e !! h'.
Proof.
  intros Hne. unfold cap_read. destruct (caps e !! h) as [c|]; [|done].
  destruct (isOpened c); [|done].
  destruct (feed c) as [|[a|] rest]; simpl; [done| |]; by rewrite list_lookup_insert_ne.
Qed.

Lemma reconnect_caps p e stream_id h :
  Optimized.streams p !! stream_id ≠ Some h → (h < length (caps e))%nat →
  let '(_, e', _) := Optimized._reconnect_stream p e stream_id in
  caps e' !! h = caps e !! h.
Proof.
  intros Hown Hlt. unfold Optimized._reconnect_stream.
  destruct (Optimized.stream_urls p !! stream_id) as [url|]; [|done].
  destruct (Optimized.streams p !! stream_id) as [old|]; simpl.
  - assert (old ≠ h) as Hne by congruence.
    assert ((caps (cap_release e old) ++ [camera (cap_release e old)
              (length (caps (cap_release e old))) url]) !! h = caps e !! h) as Heq.
    { rewrite lookup_app_l by (by rewrite caps_cap_release_length).
      by apply caps_cap_release_ne. }
    by destruct (negb _).
  - assert ((caps e ++ [camera e (length (caps e)) url]) !! h = caps e !! h) as Heq
      by (by rewrite lookup_app_l).
    by destruct (negb _).
Qed.

Lemma try_reconnect_caps gap mark l p e stream_id h :
  Optimized.streams p !! stream_id ≠ Some h → (h < length (caps e))%nat →
  let '(_, _, e') := Optimized.try_reconnect gap mark l p e stream_id in
  caps e' !! h = caps e !! h.
Proof.
  intros Hown Hlt. unfold Optimized.try_reconnect. simpl.
  destruct (PrimFloat.ltb _ _); [|done].
  pose proof (reconnect_caps p (set_ticks e (S (ticks e))) stream_id h Hown Hlt) as H.
  destruct (Optimized._reconnect_stream _ _ _) as [[p' e'] ok].
  destruct ok; simpl; [destruct mark|]; simpl; exact H.
Qed.

Lemma on_frame_caps `{Lib} l p e stream_id frame :
  let '(_, _, e', _) := Optimized.on_frame l p e stream_id frame in caps e' = caps e.
Proof.
  unfold Optimized.on_frame. simpl.
  destruct (decide _); [|done].
  unfold ndarray_copy. destruct (heap _ !! frame) as [a|]; simpl; [|done].
  set (p2 := match _ !! frame with Some a0 => _ | None => _ end).
  set (l2 := Optimized.MkLocals _ _ _ _).
  unfold Optimized.update_fps. simpl.
  destruct (Optimized.last_fps_time p2 !! stream_id) as [last|]; [|done].
  by destruct (PrimFloat.leb _ _).
Qed.

(** X2: a turn of the worker of a stream touches no capture but the one
    registered for that stream: no other capture is released, and none has a
    frame read from it. *)
Theorem X2_worker_turn_leaves_other_captures `{Lib} (l : Optimized.Locals)
    (p : Optimized.StreamProcessor) (e : Env) (stream_id : string) (h : nat) :
  Optimized.streams p !! stream_id ≠ Some h → (h < length (caps e))%nat →
  let '(_, _, e', _) := Optimized.process_stream_iter l p e stream_id in
  caps e' !! h = caps e !! h.
Proof.
  intros Hown Hlt. unfold Optimized.process_stream_iter.
  destruct (negb _); [done|].
  destruct (Optimized.streams p !! stream_id) as [cap|] eqn:Hs; [|done].
  assert (cap ≠ h) as Hne by congruence.
  destruct (negb (cap_isOpened e cap)).
  { pose proof (try_reconnect_caps 5%float false l p e stream_id h) as H0.
    rewrite Hs in H0. specialize (H0 Hown Hlt).
    by destruct (Optimized.try_reconnect _ _ _ _ _ _) as [[l' p'] e']. }
  simpl. destruct (PrimFloat.ltb _ _).
  { pose proof (try_reconnect_caps 10%float true l p (set_ticks e (S (ticks e)))
                  stream_id h) as H0.
    rewrite Hs in H0. specialize (H0 Hown Hlt).
    by destruct (Optimized.try_reconnect _ _ _ _ _ _) as [[l' p'] e']. }
  destruct (_ =? 0); [done|]. destruct (PrimFloat.ltb _ _); [done|].
  set (e2 := set_ticks (set_ticks e (S (ticks e))) _).
  set (l2 := Optimized.MkLocals _ _ _ _).
  pose proof (caps_cap_read_ne e2 cap h Hne) as Hr.
  destruct (cap_read e2 cap) as [[frame|] e3] eqn:Hread; simpl in Hr.
  - pose proof (on_frame_caps l2 p e3 stream_id frame) as Hc.
    destruct (Optimized.on_frame l2 p e3 stream_id frame) as [[[l' p'] e'] o].
    by rewrite Hc.
  - unfold Optimized.on_read_failure.
    set (p1 := Optimized.set_consecutive_failures p _).
    destruct (_ <=? _); [|done].
    pose proof (try_reconnect_caps 10%float true l2 p1 e3 stream_id h) as H0.
    assert (Hlt3 : (h < length (caps e3))%nat).
    { apply lookup_lt_is_Some. rewrite Hr. by apply lookup_lt_is_Some. }
    specialize (H0 ltac:(subst p1; simpl; by rewrite Hs) Hlt3).
    destruct (Optimized.try_reconnect _ _ _ _ _ _) as [[l' p'] e']. by rewrite H0.
Qed.

(** With "cam1" and "cam2" registered, the first turn of the worker of
    "cam1" reads a frame and leaves "cam2" alone. *)
Lemma X1_worker_turn_leaves_other_streams_witness :
  let '(_, p', _, o) :=
    Optimized.process_stream_iter (H := Scenario.lib) (fst Scenario.started)
      (fst Runs.two) (snd Runs.two) "cam1" in
  o = Optimized.FrameRead 0 false ∧
  untouched "cam2" (fst Runs.two) p' ∧
  Optimized.streams p' !! "cam2" = Some 1%nat.
Proof.
  pose proof (X1_worker_turn_leaves_other_streams (H := Scenario.lib) (fst Scenario.started)
                (fst Runs.two) (snd Runs.two) "cam1" "cam2" ltac:(done)) as Hx.
  destruct (Optimized.process_stream_iter _ _ _ _) as [[[l' p'] e'] o] eqn:E.
  split; [|split; [exact Hx|]].
  - apply (f_equal snd) in E. simpl in E. rewrite <- E. vm_compute. reflexivity.
  - apply (f_equal (λ x, Optimized.streams (snd (fst (fst x))) !! "cam2")) in E.
    simpl in E. rewrite <- E. vm_compute. reflexivity.
Defined.

Lemma X2_worker_turn_leaves_other_captures_witness :
  let '(_, _, e', _) :=
    Optimized.process_stream_iter (H := Scenario.lib) (fst Scenario.started)
      (fst Runs.two) (snd Runs.two) "cam1" in
  caps e' !! 1%nat = caps (snd Runs.two) !! 1%nat ∧
  (feed <$> caps e' !! 1%nat)
  = Some [Some Scenario.small; Some Scenario.tiny; Some Scenario.landscape;
          Some Scenario.portrait; None].
Proof.
  pose proof (X2_worker_turn_leaves_other_captures (H := Scenario.lib) (fst Scenario.started)
                (fst Runs.two) (snd Runs.two) "cam1" 1) as Hx.
  assert (H1 : Optimized.streams (fst Runs.two) !! "cam1" ≠ Some 1%nat).
  { vm_compute. discriminate. }
  assert (H2 : (1 < length (caps (snd Runs.two)))%nat).
  { vm_compute. lia. }
  specialize (Hx H1 H2).
  destruct (Optimized.process_stream_iter _ _ _ _) as [[[l' p'] e'] o] eqn:E.
  split; [exact Hx|]. rewrite Hx. vm_compute. reflexivity.
Defined.

(** ** The array store only grows *)

Lemma on_frame_heap `{Lib} l p e stream_id frame :
  let '(_, _, e', _) := Optimized.on_frame l p e stream_id frame in
  ∃ ext, heap e' = heap e ++ ext.
Proof.
  unfold Optimized.on_frame. simpl.
  destruct (decide _); [|exists []; by rewrite app_nil_r].
  unfold ndarray_copy. destruct (heap _ !! frame) as [a|] eqn:Ha; simpl in *;
    [|exists []; by rewrite app_nil_r].
  set (p2 := match _ !! frame with Some a0 => _ | None => _ end).
  set (l2 := Optimized.MkLocals _ _ _ _).
  pose proof (update_fps_heap l2 p2 (set_heap (set_ticks e (S (ticks e))) (heap e ++ [a]))
                stream_id) as Hh.
  destruct (Optimized.update_fps _ _ _ _) as [[[l' p']|] e'] eqn:Hu; simpl in Hh; by exists [a].
Qed.

Lemma process_stream_iter_heap `{Lib} l p e stream_id :
  let '(_, _, e', _) := Optimized.process_stream_iter l p e stream_id in
  ∃ ext, heap e' = heap e ++ ext.
Proof.
  assert (Hsame : ∀ e' : Env, heap e' = heap e → ∃ ext, heap e' = heap e ++ ext).
  { intros e' ->. exists []. by rewrite app_nil_r. }
  unfold Optimized.process_stream_iter.
  destruct (negb _); [by apply Hsame|].
  destruct (Optimized.streams p !! stream_id) as [cap|]; [|by apply Hsame].
  destruct (negb (cap_isOpened e cap)).
  { pose proof (try_reconnect_frame 5%float false l p e stream_id) as H0.
    destruct (Optimized.try_reconnect _ _ _ _ _ _) as [[l' p'] e'].
    apply Hsame. tauto. }
  simpl. destruct (PrimFloat.ltb _ _).
  { pose proof (try_reconnect_frame 10%float true l p (set_ticks e (S (ticks e))) stream_id) as H0.
    destruct (Optimized.try_reconnect _ _ _ _ _ _) as [[l' p'] e'].
    apply Hsame. tauto. }
  destruct (_ =? 0); [by apply Hsame|]. destruct (PrimFloat.ltb _ _); [by apply Hsame|].
  set (e2 := set_ticks (set_ticks e (S (ticks e))) _).
  set (l2 := Optimized.MkLocals _ _ _ _).
  pose proof (cap_read_heap e2 cap) as Hread.
  destruct (cap_read e2 cap) as [[frame|] e3].
  - destruct Hread as [_ [a Ea]].
    pose proof (on_frame_heap l2 p e3 stream_id frame) as Hf.
    destruct (Optimized.on_frame l2 p e3 stream_id frame) as [[[l' p'] e'] o].
    destruct Hf as [ext Hext]. exists ([a] ++ ext). rewrite Hext, Ea. simpl.
    by rewrite <- app_assoc.
  - unfold Optimized.on_read_failure.
    set (p1 := Optimized.set_consecutive_failures p _).
    destruct (_ <=? _); [|by apply Hsame].
    pose proof (try_reconnect_frame 10%float true l2 p1 e3 stream_id) as H0.
    destruct (Optimized.try_reconnect _ _ _ _ _ _) as [[l' p'] e'].
    apply Hsame. destruct H0 as (_ & _ & _ & _ & -> & _). exact Hread.
Qed.

Lemma websocket_stream_heap h p e stream_id websocket :
  let '(_, e', _) := Optimized.websocket_stream h p e stream_id websocket in
  heap e' = heap e.
Proof.
  destruct h; simpl; [| |done].
  - unfold Optimized.websocket_open. destruct (decide _).
    + destruct (Optimized.ws_send _ _ _) eqn:Hs; [by eapply heap_ws_send|done].
    + destruct (Optimized.ws_send _ _ _) eqn:Hs; [|done].
      rewrite heap_ws_close. by eapply heap_ws_send.
  - unfold Optimized.websocket_iter. destruct (decide _).
    + destruct (Optimized.frame_queues p !! stream_id) as [q|]; [|done].
      destruct (get_nowait q) as [[x q']|];
        (destruct (Optimized.ws_send _ _ _) eqn:Hs; [by eapply heap_ws_send|done]).
    + destruct (Optimized.ws_send _ _ _) eqn:Hs; [by eapply heap_ws_send|done].
Qed.

Lemma act_heap `{Lib} a w :
  ∃ ext, heap (snd (Optimized.act a w)) = heap (snd w) ++ ext.
Proof.
  assert (Hsame : ∀ e e' : Env, heap e' = heap e → ∃ ext, heap e' = heap e ++ ext).
  { intros e e' ->. exists []. by rewrite app_nil_r. }
  destruct w as [p e]. destruct a as [id url|id| |id l|id|h id ws|ws]; simpl.
  - apply Hsame. unfold Optimized.add_stream. destruct (decide _); [done|]. simpl.
    by destruct (negb _).
  - pose proof (remove_stream_spec p e id) as Hs.
    destruct (Optimized.remove_stream p e id) as [[p' e'] ok]. apply Hsame. simpl.
    by destruct Hs as (_ & _ & _ & _ & _ & _ & _ & _ & -> & _).
  - by apply Hsame.
  - pose proof (process_stream_iter_heap l p e id) as Hs.
    by destruct (Optimized.process_stream_iter l p e id) as [[[l' p'] e'] o].
  - pose proof (get_latest_frame_heap p e id) as Hs.
    by destruct (Optimized.get_latest_frame p e id) as [r e'].
  - pose proof (websocket_stream_heap h p e id ws) as Hs.
    destruct (Optimized.websocket_stream h p e id ws) as [[p' e'] h']. by apply Hsame.
  - apply Hsame. simpl. apply heap_ws_close.
Qed.

(** X3: no operation of the service writes into an array that exists: through
    any sequence of registry calls, worker turns, cache reads, handler steps
    and disconnects, an array of the store keeps its reference and its
    content.  A frame handed to a caller is never altered by the service. *)
Theorem X3_arrays_are_never_overwritten `{Lib} (actions : list Optimized.Action)
    (w : Optimized.StreamProcessor * Env) (r : nat) (a : ndarray) :
  heap (snd w) !! r = Some a →
  heap (snd (foldl (λ w act, Optimized.act act w) w actions)) !! r = Some a.
Proof.
  revert w. induction actions as [|act rest IH]; intros w Hr; simpl; [done|].
  apply IH. destruct (act_heap act w) as [ext ->]. by apply lookup_app_l_Some.
Qed.

(** After the first turn of "cam1" the store holds the frame read and its
    cached copy; a further turn, a snapshot, a removal and a re-add later
    both are as they were. *)
Lemma X3_arrays_are_never_overwritten_witness :
  let w := snd (Scenario.turns 1 Scenario.started) in
  let actions :=
    [Optimized.WorkerTurn "cam1" (fst (Scenario.turns 1 Scenario.started));
     Optimized.ReadFrame "cam1"; Optimized.RemoveStream "cam1";
     Optimized.AddStream "cam1" Scenario.url] in
  heap (snd w) = [Scenario.small; Scenario.small] ∧
  heap (snd (foldl (λ w act, Optimized.act (H := Scenario.lib) act w) w actions)) !! 1%nat
  = Some Scenario.small ∧
  length (heap (snd (foldl (λ w act, Optimized.act (H := Scenario.lib) act w) w actions)))
  = 5%nat.
Proof.
  intros w actions.
  assert (Hh : heap (snd w) !! 1%nat = Some Scenario.small) by (vm_compute; reflexivity).
  split; [vm_compute; reflexivity|]. split.
  - exact (X3_arrays_are_never_overwritten (H := Scenario.lib) actions w 1 Scenario.small Hh).
  - vm_compute. reflexivity.
Defined.

(** ** A failed reconnection on the optimized processor *)

(** X4: on the optimized processor a reconnection that fails for a stream
    with a stored address ends the ingestion of that stream for good: the
    stream has left the capture registry although its address is still
    stored, so from then on, in whatever world, every turn of its worker
    finds the loop condition false and changes nothing, the stream's
    information is the error entry, and a consumer's delivery loop ends on
    its next turn. *)
Theorem X4_failed_reconnect_ends_ingestion `{Lib} (p : Optimized.StreamProcessor)
    (e : Env) (stream_id : string) :
  is_Some (Optimized.stream_urls p !! stream_id) →
  let '(p', _, ok) := Optimized._reconnect_stream p e stream_id in
  ok = false →
  Optimized.stream_urls p' !! stream_id = Optimized.stream_urls p !! stream_id ∧
  ∀ (l : Optimized.Locals) (e'' : Env) (websocket : nat),
    Optimized.process_stream_iter l p' e'' stream_id = (l, p', e'', Optimized.Exited) ∧
    Optimized.get_stream_info p' e'' stream_id = InfoError "Stream not found" ∧
    snd (Optimized.websocket_iter p' e'' stream_id websocket) = Optimized.Finished.
Proof.
  intros Hurl.
  pose proof (optimized_reconnect_failure p e stream_id) as Hf.
  pose proof (reconnect_urls p e stream_id) as Hu.
  destruct (Optimized._reconnect_stream p e stream_id) as [[p' e'] ok].
  intros ->. destruct (Hf eq_refl Hurl) as [Hout _]. split; [by rewrite Hu|].
  intros l e'' websocket. split; [|split].
  - unfold Optimized.process_stream_iter.
    rewrite (bool_decide_eq_false_2 _ Hout), andb_false_r. done.
  - unfold Optimized.get_stream_info. apply not_elem_of_dom in Hout. by rewrite Hout.
  - destruct (websocket_iter_removed p' e'' stream_id websocket Hout) as [e3 ->]. done.
Qed.

(** The capture of "door" has closed and the camera does not open again: the
    reconnection fails, and the worker's next turn is its last. *)
Lemma X4_failed_reconnect_ends_ingestion_witness :
  let '(p', e', ok) := Optimized._reconnect_stream (fst Runs.door_closed)
                          (snd Runs.door_closed) "door" in
  ok = false ∧
  Optimized.stream_urls p' !! "door" = Some Scenario.url ∧
  Optimized.process_stream_iter (H := Scenario.lib) (Optimized.MkLocals 0 0 0 0) p' e' "door"
  = (Optimized.MkLocals 0 0 0 0, p', e', Optimized.Exited).
Proof.
  assert (Hurl : is_Some (Optimized.stream_urls (fst Runs.door_closed) !! "door")).
  { exists Scenario.url. vm_compute. reflexivity. }
  pose proof (X4_failed_reconnect_ends_ingestion (H := Scenario.lib) (fst Runs.door_closed)
                (snd Runs.door_closed) "door" Hurl) as HX.
  assert (Hok : snd (Optimized._reconnect_stream (fst Runs.door_closed)
                       (snd Runs.door_closed) "door") = false) by (vm_compute; reflexivity).
  assert (Hu : Optimized.stream_urls (fst Runs.door_closed) !! "door" = Some Scenario.url)
    by (vm_compute; reflexivity).
  destruct (Optimized._reconnect_stream (fst Runs.door_closed) (snd Runs.door_closed) "door")
    as [[p' e'] ok].
  simpl in Hok. destruct (HX Hok) as [Hk Hall]. split; [exact Hok|]. split.
  - rewrite Hk. exact Hu.
  - exact (proj1 (Hall (Optimized.MkLocals 0 0 0 0) e' 0%nat)).
Defined.

(** ** The failure counter and the frame rate of a worker *)

Lemma try_reconnect_failures gap mark l p e stream_id :
  let '(_, p', _) := Optimized.try_reconnect gap mark l p e stream_id in
  Optimized.consecutive_failures p' !! stream_id
  = Optimized.consecutive_failures p !! stream_id ∨
  Optimized.consecutive_failures p' !! stream_id = Some 0.
Proof.
  unfold Optimized.try_reconnect. simpl.
  destruct (PrimFloat.ltb _ _); [|by left].
  unfold Optimized._reconnect_stream.
  destruct (Optimized.stream_urls p !! stream_id) as [url|]; [|by left].
  destruct (Optimized.streams p !! stream_id) as [old|]; simpl;
    (destruct (negb _); simpl; [by left|]);
    destruct mark; simpl; right; apply lookup_insert_eq.
Qed.

Lemma on_frame_failures `{Lib} l p e stream_id frame :
  let '(_, p', _, _) := Optimized.on_frame l p e stream_id frame in
  Optimized.consecutive_failures p' !! stream_id = Some 0.
Proof.
  unfold Optimized.on_frame. simpl.
  destruct (decide _); [|simpl; apply lookup_insert_eq].
  destruct (ndarray_copy _ _) as [[c e1]|]; [|simpl; apply lookup_insert_eq].
  set (p1 := match heap e1 !! frame with Some a => _ | None => _ end).
  assert (Hp1 : Optimized.consecutive_failures p1 !! stream_id = Some 0).
  { subst p1. destruct (heap e1 !! frame) as [a|]; [|simpl; apply lookup_insert_eq].
    destruct (enqueue_frame_only_queues
                (Optimized.set_latest_frames
                   (Optimized.set_consecutive_failures p
                      (<[stream_id := 0]> (Optimized.consecutive_failures p)))
                   (<[stream_id := c]> (Optimized.latest_frames p))) a stream_id) as [qs ->].
    simpl. apply lookup_insert_eq. }
  unfold Optimized.update_fps. simpl.
  destruct (Optimized.last_fps_time p1 !! stream_id) as [last|]; [|done].
  by destruct (PrimFloat.leb _ _).
Qed.

(** X5: the worker counts consecutive failed reads per stream.  A turn that
    read a frame leaves the stream's count at 0.  A turn whose read failed
    raises the count by one; while the new count is below the limit nothing
    else happens: no reconnection is tried, the capture registry is as it
    was and no capture has been opened.  From the limit on, the count is
    either the raised one or 0 again, after a reconnection. *)
Theorem X5_read_failures_are_counted `{Lib} (l : Optimized.Locals)
    (p : Optimized.StreamProcessor) (e : Env) (stream_id : string) :
  let '(_, p', e', o) := Optimized.process_stream_iter l p e stream_id in
  let n := default 0 (Optimized.consecutive_failures p !! stream_id) + 1 in
  match o with
  | Optimized.FrameRead _ _ => Optimized.consecutive_failures p' !! stream_id = Some 0
  | Optimized.ReadFailed =>
      if Optimized.max_consecutive_failures p <=? n then
        Optimized.consecutive_failures p' !! stream_id = Some n ∨
        Optimized.consecutive_failures p' !! stream_id = Some 0
      else
        Optimized.consecutive_failures p' !! stream_id = Some n ∧
        Optimized.streams p' = Optimized.streams p ∧
        length (caps e') = length (caps e)
  | _ => True
  end.
Proof.
  unfold Optimized.process_stream_iter.
  destruct (negb _); [done|].
  destruct (Optimized.streams p !! stream_id) as [cap|]; [|done].
  destruct (negb (cap_isOpened e cap)).
  { by destruct (Optimized.try_reconnect _ _ _ _ _ _) as [[? ?] ?]. }
  simpl. destruct (PrimFloat.ltb _ _).
  { by destruct (Optimized.try_reconnect _ _ _ _ _ _) as [[? ?] ?]. }
  destruct (_ =? 0); [done|]. destruct (PrimFloat.ltb _ _); [done|].
  set (e2 := set_ticks (set_ticks e (S (ticks e))) _).
  set (l2 := Optimized.MkLocals _ _ _ _).
  destruct (cap_read e2 cap) as [[frame|] e3] eqn:Hread.
  - pose proof (on_frame_failures l2 p e3 stream_id frame) as Hf.
    destruct (on_frame_outcome l2 p e3 stream_id frame) as [raised Ho].
    destruct (Optimized.on_frame l2 p e3 stream_id frame) as [[[l' p'] e'] o].
    simpl in Ho. by subst o.
  - unfold Optimized.on_read_failure. simpl.
    set (n := default 0 (Optimized.consecutive_failures p !! stream_id) + 1).
    destruct (Optimized.max_consecutive_failures p <=? n).
    + pose proof (try_reconnect_failures 10%float true l2
                    (Optimized.set_consecutive_failures p
                       (<[stream_id := n]> (Optimized.consecutive_failures p)))
                    e3 stream_id) as Hf.
      destruct (Optimized.try_reconnect _ _ _ _ _ _) as [[l' p'] e'].
      simpl in Hf. rewrite lookup_insert_eq in Hf. exact Hf.
    + simpl. split; [apply lookup_insert_eq|]. split; [done|].
      assert (He3 : e3 = snd (cap_read e2 cap)) by (by rewrite Hread).
      subst e3. unfold cap_read.
      destruct (caps e2 !! cap) as [c|] eqn:Hc; [|done].
      destruct (isOpened c); [|done].
      destruct (feed c) as [|[a|] rest]; simpl; [done| |];
        by rewrite length_insert.
Qed.

Lemma try_reconnect_last_frame_time gap mark l p e stream_id :
  Optimized.last_frame_time (fst (fst (Optimized.try_reconnect gap mark l p e stream_id)))
  = Optimized.last_frame_time l.
Proof.
  unfold Optimized.try_reconnect. simpl.
  destruct (PrimFloat.ltb _ _); [|done].
  destruct (Optimized._reconnect_stream _ _ _) as [[p' e'] ok].
  destruct ok; simpl; [by destruct mark|done].
Qed.

Lemma on_frame_last_frame_time `{Lib} l p e stream_id frame :
  Optimized.last_frame_time (fst (fst (fst (Optimized.on_frame l p e stream_id frame))))
  = Optimized.last_frame_time l.
Proof.
  unfold Optimized.on_frame. simpl.
  destruct (decide _); [|done].
  destruct (ndarray_copy _ _) as [[c e1]|]; [|done].
  unfold Optimized.update_fps. simpl.
  destruct (Optimized.last_fps_time _ !! stream_id) as [last|]; [|done].
  by destruct (PrimFloat.leb _ _).
Qed.

(** A turn that went as far as reading from the capture took its second
    clock reading as the time of the read, and that reading was not less
    than [1 / max_fps] after the time of the previous read. *)
Lemma process_stream_iter_read_time `{Lib} l p e stream_id l' p' e' o :
  Optimized.process_stream_iter l p e stream_id = (l', p', e', o) →
  (o = Optimized.ReadFailed ∨ ∃ frame raised, o = Optimized.FrameRead frame raised) →
  Optimized.max_fps p ≠ 0 ∧
  Optimized.last_frame_time l' = clock e (S (ticks e)) ∧
  PrimFloat.ltb (PrimFloat.sub (clock e (S (ticks e))) (Optimized.last_frame_time l))
    (PrimFloat.div 1%float (float_of_int (Optimized.max_fps p))) = false.
Proof.
  assert (Hno : ∀ o, o = Optimized.Exited ∨ o = Optimized.Skipped ∨ o = Optimized.Raised →
     ¬ (o = Optimized.ReadFailed ∨ ∃ frame raised, o = Optimized.FrameRead frame raised)).
  { intros o0 [-> | [-> | ->]] [? | (? & ? & ?)]; done. }
  unfold Optimized.process_stream_iter.
  destruct (negb _); [intros [= <- <- <- <-] Ho; exfalso; eapply Hno; [|exact Ho]; auto|].
  destruct (Optimized.streams p !! stream_id) as [cap|];
    [|intros [= <- <- <- <-] Ho; exfalso; eapply Hno; [|exact Ho]; auto].
  destruct (negb (cap_isOpened e cap)).
  { destruct (Optimized.try_reconnect _ _ _ _ _ _) as [[? ?] ?].
    intros [= <- <- <- <-] Ho; exfalso; eapply Hno; [|exact Ho]; auto. }
  simpl. destruct (PrimFloat.ltb _ _).
  { destruct (Optimized.try_reconnect _ _ _ _ _ _) as [[? ?] ?].
    intros [= <- <- <- <-] Ho; exfalso; eapply Hno; [|exact Ho]; auto. }
  destruct (Optimized.max_fps p =? 0) eqn:Hfps;
    [intros [= <- <- <- <-] Ho; exfalso; eapply Hno; [|exact Ho]; auto|].
  apply Z.eqb_neq in Hfps.
  destruct (PrimFloat.ltb _ _) eqn:Hrate;
    [intros [= <- <- <- <-] Ho; exfalso; eapply Hno; [|exact Ho]; auto|].
  set (e2 := set_ticks (set_ticks e (S (ticks e))) _).
  set (l2 := Optimized.MkLocals _ _ _ _).
  destruct (cap_read e2 cap) as [[frame|] e3].
  - pose proof (on_frame_last_frame_time l2 p e3 stream_id frame) as Ht.
    intros Hon _. rewrite Hon in Ht. simpl in Ht. done.
  - unfold Optimized.on_read_failure. simpl.
    destruct (_ <=? _).
    + set (p1 := Optimized.set_consecutive_failures p _).
      pose proof (try_reconnect_last_frame_time 10%float true l2 p1 e3 stream_id) as Ht.
      destruct (Optimized.try_reconnect _ _ _ _ _ _) as [[l3 p3] e4].
      intros [= <- <- <- <-] _. simpl in Ht. done.
    + intros [= <- <- <- <-] _. done.
Qed.

(** X6: a worker never reads its capture faster than [max_fps]: when two
    turns of the same worker both went as far as [cap.read()], whatever
    happened to the service in between, the clock reading at the second read
    is not less than [1 / max_fps] after the clock reading at the first (in
    the float arithmetic of the code), and [max_fps] is not 0. *)
Theorem X6_reads_are_rate_limited `{Lib} (l l1 l2 : Optimized.Locals)
    (p p1 p2 p3 : Optimized.StreamProcessor) (e e1 e2 e3 : Env)
    (o1 o2 : Optimized.Outcome) (stream_id : string) :
  Optimized.process_stream_iter l p e stream_id = (l1, p1, e1, o1) →
  (o1 = Optimized.ReadFailed ∨ ∃ frame raised, o1 = Optimized.FrameRead frame raised) →
  Optimized.process_stream_iter l1 p2 e2 stream_id = (l2, p3, e3, o2) →
  (o2 = Optimized.ReadFailed ∨ ∃ frame raised, o2 = Optimized.FrameRead frame raised) →
  Optimized.max_fps p2 ≠ 0 ∧
  PrimFloat.ltb (PrimFloat.sub (clock e2 (S (ticks e2))) (clock e (S (ticks e))))
    (PrimFloat.div 1%float (float_of_int (Optimized.max_fps p2))) = false.
Proof.
  intros H1 Ho1 H2 Ho2.
  destruct (process_stream_iter_read_time _ _ _ _ _ _ _ _ H1 Ho1) as (_ & Ht1 & _).
  destruct (process_stream_iter_read_time _ _ _ _ _ _ _ _ H2 Ho2) as (Hfps & _ & Hrate).
  split; [exact Hfps|]. by rewrite <- Ht1.
Qed.

(** The first two turns of the worker of "cam1" read a frame each, at the
    clock readings 4 and 8 of the run, 160 ms apart at a limit of 30 reads
    per second. *)
Lemma X6_reads_are_rate_limited_witness :
  let s0 := Scenario.started in
  let s1 := Scenario.turns 1 Scenario.started in
  (S (ticks (snd (snd s0))), S (ticks (snd (snd s1)))) = (4%nat, 8%nat) ∧
  Optimized.max_fps (fst (snd s1)) = 30 ∧
  Optimized.max_fps (fst (snd s1)) ≠ 0 ∧
  PrimFloat.ltb
    (PrimFloat.sub (clock (snd (snd s1)) (S (ticks (snd (snd s1)))))
                   (clock (snd (snd s0)) (S (ticks (snd (snd s0))))))
    (PrimFloat.div 1%float (float_of_int (Optimized.max_fps (fst (snd s1))))) = false.
Proof.
  intros s0 s1. pose (s2 := Scenario.turns 2 Scenario.started).
  split; [vm_compute; reflexivity|]. split; [vm_compute; reflexivity|].
  apply (X6_reads_are_rate_limited (H := Scenario.lib)
           (fst s0) (fst s1) (fst s2)
           (fst (snd s0)) (fst (snd s1)) (fst (snd s1)) (fst (snd s2))
           (snd (snd s0)) (snd (snd s1)) (snd (snd s1)) (snd (snd s2))
           (Optimized.FrameRead 0 false) (Optimized.FrameRead 2 false) "cam1").
  - vm_compute. reflexivity.
  - right. by exists 0%nat, false.
  - vm_compute. reflexivity.
  - right. by exists 2%nat, false.
Defined.

(** ** Captures across a reconnection *)

Lemma cap_isOpened_release_inv e old h :
  cap_isOpened (cap_release e old) h = true → h ≠ old ∧ cap_isOpened e h = true.
Proof.
  intros Ho. destruct (decide (h = old)) as [->|Hne].
  - by rewrite cap_isOpened_release in Ho.
  - split; [done|]. by rewrite cap_isOpened_release_ne in Ho.
Qed.

(** X7: a reconnection leaves no capture open that the processor does not
    hold.  When a stream has a stored address and a registered capture, then
    after [_reconnect_stream], on the optimized and on the enhanced processor
    alike, every opened capture either was opened before and is not the
    stream's old capture (that one has been released), or it is the new
    capture, the call has returned true and the stream is registered with
    it.  In particular a new capture that opened but failed the enhanced
    trial read is released again. *)
Theorem X7_reconnect_leaves_no_stray_capture (e : Env) (stream_id url : string) (old : nat) :
  (∀ p : Optimized.StreamProcessor,
     Optimized.stream_urls p !! stream_id = Some url →
     Optimized.streams p !! stream_id = Some old →
     let '(p', e', ok) := Optimized._reconnect_stream p e stream_id in
     ∀ h, cap_isOpened e' h = true →
          (h ≠ old ∧ cap_isOpened e h = true) ∨
          (ok = true ∧ Optimized.streams p' !! stream_id = Some h)) ∧
  (∀ p : Enhanced.StreamProcessor,
     Enhanced.stream_urls p !! stream_id = Some url →
     Enhanced.streams p !! stream_id = Some old →
     let '(p', e', ok) := Enhanced._reconnect_stream p e stream_id in
     ∀ h, cap_isOpened e' h = true →
          (h ≠ old ∧ cap_isOpened e h = true) ∨
          (ok = true ∧ Enhanced.streams p' !! stream_id = Some h)).
Proof.
  assert (Hkept : ∀ h,
            cap_isOpened
              (set_caps (cap_release e old)
                 (caps (cap_release e old) ++
                  [camera (cap_release e old) (length (caps e)) url])) h = true →
            h ≠ length (caps e) → h ≠ old ∧ cap_isOpened e h = true).
  { intros h Ho Hne. apply cap_isOpened_release_inv.
    apply (cap_isOpened_open_inv _ url); [|by rewrite caps_cap_release_length].
    unfold VideoCapture_open. simpl. by rewrite caps_cap_release_length. }
  split.
  - intros p Hu Hs. unfold Optimized._reconnect_stream. rewrite Hu, Hs. simpl.
    rewrite caps_cap_release_length.
    destruct (cap_isOpened _ (length (caps e))) eqn:Hopen; simpl; intros h Ho.
    + destruct (decide (h = length (caps e))) as [->|Hne]; [|left; by apply Hkept].
      right. split; [done|]. apply lookup_insert_eq.
    + left. apply Hkept; [done|]. intros ->. congruence.
  - intros p Hu Hs. unfold Enhanced._reconnect_stream. rewrite Hu, Hs. simpl.
    rewrite caps_cap_release_length.
    destruct (cap_isOpened _ (length (caps e))) eqn:Hopen; simpl.
    + set (e2 := set_caps (cap_release e old) _) in *.
      pose proof (cap_isOpened_read e2 (length (caps e))) as Hread.
      destruct (cap_read e2 (length (caps e))) as [[frame|] e3]; simpl in Hread; intros h Ho.
      * destruct (decide (h = length (caps e))) as [->|Hne].
        -- right. split; [done|]. simpl. apply lookup_insert_eq.
        -- left. apply Hkept; [|done]. by rewrite <- Hread.
      * apply cap_isOpened_release_inv in Ho as [Hne Ho]. left.
        apply Hkept; [|done]. by rewrite <- Hread.
    + intros h Ho. left. apply Hkept; [done|]. intros ->. congruence.
Qed.

(** On the flaky camera, "door" reconnects in vain: afterwards no capture
    at all is open. *)
Lemma X7_reconnect_leaves_no_stray_capture_witness :
  let '(p', e', ok) := Optimized._reconnect_stream (fst Runs.door) (snd Runs.door) "door" in
  cap_isOpened (snd Runs.door) 0 = true ∧ ok = false ∧
  ∀ h, cap_isOpened e' h = true →
       (h ≠ 0%nat ∧ cap_isOpened (snd Runs.door) h = true) ∨
       (ok = true ∧ Optimized.streams p' !! "door" = Some h).
Proof.
  pose proof (proj1 (X7_reconnect_leaves_no_stray_capture (snd Runs.door) "door" Scenario.url 0)
                (fst Runs.door)) as HX.
  assert (Hu : Optimized.stream_urls (fst Runs.door) !! "door" = Some Scenario.url)
    by (vm_compute; reflexivity).
  assert (Hs : Optimized.streams (fst Runs.door) !! "door" = Some 0%nat)
    by (vm_compute; reflexivity).
  specialize (HX Hu Hs).
  assert (Hok : snd (Optimized._reconnect_stream (fst Runs.door) (snd Runs.door) "door") = false)
    by (vm_compute; reflexivity).
  destruct (Optimized._reconnect_stream (fst Runs.door) (snd Runs.door) "door") as [[p' e'] ok].
  split; [vm_compute; reflexivity|]. split; [exact Hok|exact HX].
Defined.

(** ** Adding and removing *)

Lemma locks_add_remove (stream_id : string) (L : gset string) :
  stream_id ∉ L → ({[stream_id]} ∪ L) ∖ {[stream_id]} = L.
Proof.
  intros Hn. apply set_eq. intros x.
  rewrite elem_of_difference, elem_of_union, elem_of_singleton.
  split; [tauto|]. intros Hx. split; [tauto|]. by intros ->.
Qed.

(** What [remove_stream] leaves alone: the captures but the stream's own,
    the threads and the counter dictionaries. *)
Lemma remove_stream_rest p e stream_id :
  caps (snd (fst (Optimized.remove_stream p e stream_id)))
  = caps (match Optimized.streams p !! stream_id with
          | Some cap => cap_release e cap
          | None => e
          end) ∧
  threads (snd (fst (Optimized.remove_stream p e stream_id))) = threads e ∧
  Optimized.fps_counters (fst (fst (Optimized.remove_stream p e stream_id)))
  = Optimized.fps_counters p ∧
  Optimized.consecutive_failures (fst (fst (Optimized.remove_stream p e stream_id)))
  = Optimized.consecutive_failures p.
Proof.
  unfold Optimized.remove_stream.
  destruct (Optimized.streams p !! stream_id) as [cap|]; simpl;
    destruct (Optimized.active_connections p !! stream_id) as [conns|];
    simpl; try destruct (_ || bool_decide (conns = ∅));
    simpl; repeat split; try done;
    unfold cap_release; by destruct (caps e !! _).
Qed.

Lemma add_stream_spec p e stream_id rtsp_url :
  Optimized.streams p !! stream_id = None →
  let '(p', e', ok) := Optimized.add_stream p e stream_id rtsp_url in
  let cap := length (caps e) in
  ok = isOpened (camera e cap rtsp_url) ∧
  Optimized.streams p' = (if ok then <[stream_id := cap]> (Optimized.streams p)
                          else Optimized.streams p) ∧
  Optimized.stream_urls p' = <[stream_id := rtsp_url]> (Optimized.stream_urls p) ∧
  Optimized.latest_frames p' = Optimized.latest_frames p ∧
  Optimized.frame_locks p' = {[stream_id]} ∪ Optimized.frame_locks p ∧
  Optimized.processing_threads p'
  = (if ok then <[stream_id := length (threads e)]> (Optimized.processing_threads p)
     else Optimized.processing_threads p) ∧
  Optimized.frame_queues p' = <[stream_id := Queue_new 2]> (Optimized.frame_queues p) ∧
  Optimized.active_connections p' = <[stream_id := ∅]> (Optimized.active_connections p) ∧
  Optimized.fps_counters p' = (if ok then <[stream_id := 0]> (Optimized.fps_counters p)
                               else Optimized.fps_counters p) ∧
  Optimized.consecutive_failures p'
  = (if ok then <[stream_id := 0]> (Optimized.consecutive_failures p)
     else Optimized.consecutive_failures p) ∧
  heap e' = heap e ∧ closing e' = closing e ∧ sockets e' = sockets e ∧
  caps e' = caps e ++ [camera e cap rtsp_url] ∧
  threads e' = (if ok then threads e ++ [stream_id] else threads e).
Proof.
  intros Hs. unfold Optimized.add_stream.
  destruct (decide _) as [Hin|_]; [apply elem_of_dom in Hin as [? ?]; congruence|].
  pose proof (cap_isOpened_open_new e rtsp_url) as Ho.
  unfold VideoCapture_open in *. simpl in *. rewrite Ho.
  destruct (isOpened (camera e (length (caps e)) rtsp_url)); simpl; repeat split; done.
Qed.

(** X8: on the optimized processor, adding a stream under an id no registry
    knows and removing it again, whether or not the capture opened, gives
    back the seven registries exactly as they were; the capture opened for
    the stream is closed, the captures that existed are as they were, and no
    connection is asked to close.  What stays behind of a successful add is
    the stream's entry in the counter dictionaries, which [remove_stream]
    does not clear, and the worker thread that was started. *)
Theorem X8_add_then_remove_restores_registries (p : Optimized.StreamProcessor) (e : Env)
    (stream_id rtsp_url : string) :
  absent stream_id p →
  let '(p1, e1, added) := Optimized.add_stream p e stream_id rtsp_url in
  let '(p2, e2, removed) := Optimized.remove_stream p1 e1 stream_id in
  removed = true ∧
  Optimized.streams p2 = Optimized.streams p ∧
  Optimized.stream_urls p2 = Optimized.stream_urls p ∧
  Optimized.latest_frames p2 = Optimized.latest_frames p ∧
  Optimized.frame_locks p2 = Optimized.frame_locks p ∧
  Optimized.processing_threads p2 = Optimized.processing_threads p ∧
  Optimized.frame_queues p2 = Optimized.frame_queues p ∧
  Optimized.active_connections p2 = Optimized.active_connections p ∧
  cap_isOpened e2 (length (caps e)) = false ∧
  (∀ h, (h < length (caps e))%nat → caps e2 !! h = caps e !! h) ∧
  closing e2 = closing e ∧
  (added = true →
   Optimized.fps_counters p2 !! stream_id = Some 0 ∧
   Optimized.consecutive_failures p2 !! stream_id = Some 0 ∧
   threads e2 = threads e ++ [stream_id]).
Proof.
  intros (Hs & Hu & Hl & Hk & Ht & Hq & Ha).
  pose proof (add_stream_spec p e stream_id rtsp_url Hs) as Hadd.
  destruct (Optimized.add_stream p e stream_id rtsp_url) as [[p1 e1] added].
  destruct Hadd as (Eok & Es & Eu & El & Ek & Et & Eq & Ea & Ef & Ec & Eh & Ecl & _ & Ecaps & Eth).
  pose proof (remove_stream_spec p1 e1 stream_id) as Hrem.
  pose proof (remove_stream_rest p1 e1 stream_id) as (Ecaps2 & Hthreads & Hcount).
  assert (Hcaps : ∀ h, caps (snd (fst (Optimized.remove_stream p1 e1 stream_id))) !! h
                       = if decide (h = length (caps e) ∧ added = true)
                         then release <$> (caps e1 !! h) else caps e1 !! h).
  { intros h. rewrite Ecaps2, Es. destruct added; simpl.
    - rewrite lookup_insert_eq. unfold cap_release.
      destruct (caps e1 !! length (caps e)) as [c|] eqn:Hc; simpl.
      + destruct (decide (h = length (caps e) ∧ true = true)) as [[-> _]|Hne].
        * rewrite list_lookup_insert_eq by (by eapply lookup_lt_Some). by rewrite Hc.
        * rewrite list_lookup_insert_ne by (intros <-; tauto). done.
      + destruct (decide _) as [[-> _]|]; [by rewrite Hc|done].
    - rewrite Hs. destruct (decide _) as [[_ ?]|]; done. }
  destruct (Optimized.remove_stream p1 e1 stream_id) as [[p2 e2] removed].
  simpl in Hcaps, Hthreads, Hcount.
  rewrite Ea, lookup_insert_eq in Hrem. simpl in Hrem.
  rewrite bool_decide_eq_true_2, andb_false_r in Hrem by done.
  destruct Hrem as (-> & -> & -> & -> & -> & -> & -> & -> & Eh2 & Hrel & Ecl2).
  rewrite Es, Eu, El, Ek, Et, Eq.
  split; [done|].
  split; [destruct added; [by apply delete_insert_id|by apply delete_id]|].
  split; [by apply delete_insert_id|].
  split; [by apply delete_id|].
  split; [by apply locks_add_remove|].
  split; [destruct added; [by apply delete_insert_id|by apply delete_id]|].
  split; [by apply delete_insert_id|].
  split; [by apply delete_insert_id|].
  split; [|split; [|split]].
  - unfold cap_isOpened. rewrite Hcaps, Ecaps.
    rewrite lookup_app_r by lia. rewrite Nat.sub_diag. simpl.
    destruct (decide _) as [[_ ->]|Hno]; simpl; [done|].
    rewrite <- Eok. destruct added; [tauto|done].
  - intros h Hlt. rewrite Hcaps, Ecaps, lookup_app_l by done.
    destruct (decide _) as [[-> _]|]; [lia|done].
  - rewrite Ecl2, Ecl. rewrite elements_empty. apply app_nil_r.
  - intros ->. destruct Hcount as [-> ->]. rewrite Ef, Ec, Hthreads, Eth, !lookup_insert_eq. done.
Qed.

(** On a new processor: "cam1" added and removed. *)
Lemma X8_add_then_remove_restores_registries_witness :
  let '(p1, e1, added) := Optimized.add_stream Optimized.init Scenario.env "cam1" Scenario.url in
  let '(p2, e2, removed) := Optimized.remove_stream p1 e1 "cam1" in
  added = true ∧ removed = true ∧
  Optimized.streams p2 = ∅ ∧ Optimized.stream_urls p2 = ∅ ∧ Optimized.frame_locks p2 = ∅ ∧
  Optimized.frame_queues p2 = ∅ ∧ Optimized.active_connections p2 = ∅ ∧
  cap_isOpened e2 0 = false ∧
  Optimized.fps_counters p2 !! "cam1" = Some 0.
Proof.
  assert (Hab : absent "cam1" Optimized.init).
  { unfold absent. simpl. rewrite !lookup_empty. repeat split; done. }
  pose proof (X8_add_then_remove_restores_registries Optimized.init Scenario.env
                "cam1" Scenario.url Hab) as HX.
  assert (Hadded : snd (Optimized.add_stream Optimized.init Scenario.env "cam1" Scenario.url)
                   = true) by (vm_compute; reflexivity).
  destruct (Optimized.add_stream Optimized.init Scenario.env "cam1" Scenario.url)
    as [[p1 e1] added].
  destruct (Optimized.remove_stream p1 e1 "cam1") as [[p2 e2] removed].
  simpl in Hadded.
  destruct HX as (Hr & Es & Eu & _ & Ek & _ & Eq & Ea & Ho & _ & _ & Hleft).
  destruct (Hleft Hadded) as (Ef & _).
  repeat split; done.
Defined.

Lemma enhanced_del_if_in_delete {V} (k : string) (d : gmap string V) :
  Enhanced.del_if_in k d = delete k d.
Proof.
  unfold Enhanced.del_if_in. destruct (decide (k ∈ dom d)) as [|Hn]; [done|].
  symmetry. apply delete_id. by apply not_elem_of_dom.
Qed.

Lemma locks_remove (stream_id : string) (L : gset string) :
  (if decide (stream_id ∈ L) then L ∖ {[stream_id]} else L) = L ∖ {[stream_id]}.
Proof.
  destruct (decide (stream_id ∈ L)) as [|Hn]; [done|].
  apply set_eq. intros x. rewrite elem_of_difference, elem_of_singleton.
  split; [|tauto]. intros Hx. split; [done|]. by intros ->.
Qed.

(** X9: on the enhanced processor, adding a stream under an id no dictionary
    knows and removing it again gives back the processor exactly as it was,
    counters included, whether or not the capture opened; the capture opened
    for the stream is closed afterwards and both calls of the pair agree
    with the camera: the add returns whether it opened, the removal true. *)
Theorem X9_enhanced_add_then_remove_is_identity (p : Enhanced.StreamProcessor) (e : Env)
    (stream_id rtsp_url : string) (enable_ai : bool) :
  absent_enhanced stream_id p →
  let '(p1, e1, added) := Enhanced.add_stream p e stream_id rtsp_url enable_ai in
  let '(p2, e2, removed) := Enhanced.remove_stream p1 e1 stream_id in
  p2 = p ∧ removed = true ∧
  added = isOpened (camera e (length (caps e)) rtsp_url) ∧
  cap_isOpened e2 (length (caps e)) = false ∧
  (∀ h, (h < length (caps e))%nat → caps e2 !! h = caps e !! h).
Proof.
  intros (Hs & Hu & Hl & Hd & Hk & Ht & Hf & Hlf & Hdf & Hc).
  unfold Enhanced.add_stream.
  pose proof (cap_isOpened_open_new e rtsp_url) as Ho.
  unfold VideoCapture_open in *. simpl in *. rewrite Ho.
  destruct (isOpened (camera e (length (caps e)) rtsp_url)) eqn:Hopen; simpl.
  - rewrite lookup_insert_eq, locks_remove, !enhanced_del_if_in_delete, locks_add_remove by done.
    rewrite !delete_insert_id by done. rewrite !delete_id by done.
    split; [by destruct p|]. split; [done|]. split; [done|].
    unfold cap_isOpened, cap_release. simpl.
    rewrite lookup_app_r by lia. rewrite Nat.sub_diag. simpl.
    split.
    + rewrite list_lookup_insert_eq by (rewrite length_app; simpl; lia). done.
    + intros h Hlt. rewrite list_lookup_insert_ne by lia. by rewrite lookup_app_l.
  - rewrite Hs, locks_remove, !enhanced_del_if_in_delete, locks_add_remove by done.
    rewrite !delete_id by done.
    split; [by destruct p|]. split; [done|]. split; [done|].
    split; [exact Ho|]. intros h Hlt. simpl. by rewrite lookup_app_l.
Qed.

Lemma X9_enhanced_add_then_remove_is_identity_witness :
  let '(p1, e1, added) := Enhanced.add_stream Enhanced.init Scenario.env "cam1" Scenario.url true in
  let '(p2, e2, removed) := Enhanced.remove_stream p1 e1 "cam1" in
  Enhanced.streams p1 !! "cam1" = Some 0%nat ∧ added = true ∧
  p2 = Enhanced.init ∧ cap_isOpened e1 0 = true ∧ cap_isOpened e2 0 = false.
Proof.
  assert (Hab : absent_enhanced "cam1" Enhanced.init).
  { unfold absent_enhanced. simpl. rewrite !lookup_empty. repeat split; done. }
  pose proof (X9_enhanced_add_then_remove_is_identity Enhanced.init Scenario.env
                "cam1" Scenario.url true Hab) as HX.
  assert (Hadded : let r := Enhanced.add_stream Enhanced.init Scenario.env "cam1" Scenario.url true in
                   Enhanced.streams (fst (fst r)) !! "cam1" = Some 0%nat ∧ snd r = true ∧
                   cap_isOpened (snd (fst r)) 0 = true) by (vm_compute; auto).
  destruct (Enhanced.add_stream Enhanced.init Scenario.env "cam1" Scenario.url true)
    as [[p1 e1] added].
  destruct (Enhanced.remove_stream p1 e1 "cam1") as [[p2 e2] removed].
  simpl in Hadded. destruct Hadded as (H1 & H2 & H3). destruct HX as (Ep & _ & _ & Hc & _).
  repeat split; done.
Defined.

(** ** Removing twice *)

Lemma processor_eq (p q : Optimized.StreamProcessor) :
  Optimized.streams p = Optimized.streams q →
  Optimized.stream_urls p = Optimized.stream_urls q →
  Optimized.latest_frames p = Optimized.latest_frames q →
  Optimized.frame_locks p = Optimized.frame_locks q →
  Optimized.processing_threads p = Optimized.processing_threads q →
  Optimized.running p = Optimized.running q →
  Optimized.jpeg_quality p = Optimized.jpeg_quality q →
  Optimized.max_fps p = Optimized.max_fps q →
  Optimized.frame_queues p = Optimized.frame_queues q →
  Optimized.active_connections p = Optimized.active_connections q →
  Optimized.fps_counters p = Optimized.fps_counters q →
  Optimized.last_fps_time p = Optimized.last_fps_time q →
  Optimized.consecutive_failures p = Optimized.consecutive_failures q →
  Optimized.max_consecutive_failures p = Optimized.max_consecutive_failures q →
  p = q.
Proof. destruct p, q. simpl. by intros -> -> -> -> -> -> -> -> -> -> -> -> -> ->. Qed.

(** The settings and counters [remove_stream] never touches. *)
Lemma remove_stream_settings p e stream_id :
  let p' := fst (fst (Optimized.remove_stream p e stream_id)) in
  Optimized.running p' = Optimized.running p ∧
  Optimized.jpeg_quality p' = Optimized.jpeg_quality p ∧
  Optimized.max_fps p' = Optimized.max_fps p ∧
  Optimized.fps_counters p' = Optimized.fps_counters p ∧
  Optimized.last_fps_time p' = Optimized.last_fps_time p ∧
  Optimized.consecutive_failures p' = Optimized.consecutive_failures p ∧
  Optimized.max_consecutive_failures p' = Optimized.max_consecutive_failures p.
Proof.
  unfold Optimized.remove_stream.
  destruct (Optimized.streams p !! stream_id) as [cap|]; simpl;
    destruct (Optimized.active_connections p !! stream_id) as [conns|]; simpl;
    try destruct (_ || bool_decide (conns = ∅)); simpl; done.
Qed.

(** Removing an id that has no capture leaves the world alone, unless it
    has consumers and they are asked to close. *)
Lemma remove_stream_absent_env p e stream_id :
  Optimized.streams p !! stream_id = None →
  Optimized.active_connections p !! stream_id = None ∨
  negb (running_loop e) &&
  negb (bool_decide (default ∅ (Optimized.active_connections p !! stream_id) = ∅)) = true →
  snd (fst (Optimized.remove_stream p e stream_id)) = e.
Proof.
  intros Hs Ha. unfold Optimized.remove_stream. rewrite Hs. simpl.
  destruct (Optimized.active_connections p !! stream_id) as [conns|]; [|done].
  destruct Ha as [|Ha]; [done|]. simpl in Ha.
  destruct (running_loop e); [done|]. simpl in *.
  by destruct (bool_decide (conns = ∅)).
Qed.

(** [remove_stream] neither starts nor stops the event loop. *)
Lemma remove_stream_loop p e stream_id :
  running_loop (snd (fst (Optimized.remove_stream p e stream_id))) = running_loop e.
Proof.
  unfold Optimized.remove_stream.
  destruct (Optimized.streams p !! stream_id) as [cap|]; simpl;
    destruct (Optimized.active_connections p !! stream_id) as [conns|]; simpl;
    try destruct (_ || bool_decide (conns = ∅)); simpl; try done;
    unfold cap_release; by destruct (caps e !! _).
Qed.

(** X10: a second [remove_stream] of the same id on the optimized processor
    returns what the first returned and changes neither the processor nor
    the world.  After a removal that returned true the second returns true,
    no capture is released twice and no connection is asked to close a
    second time; after one that returned false, which is the removal
    outside the event loop of a stream that has consumers, the consumer set
    is still there and the second fails like the first. *)
Theorem X10_remove_twice_is_remove_once (p : Optimized.StreamProcessor) (e : Env)
    (stream_id : string) :
  let '(p1, e1, ok) := Optimized.remove_stream p e stream_id in
  Optimized.remove_stream p1 e1 stream_id = (p1, e1, ok) ∧
  (ok = false ↔
   running_loop e = false ∧
   ∃ conns, Optimized.active_connections p !! stream_id = Some conns ∧ conns ≠ ∅).
Proof.
  pose proof (remove_stream_spec p e stream_id) as Hrem.
  pose proof (remove_stream_loop p e stream_id) as Hloop.
  destruct (Optimized.remove_stream p e stream_id) as [[p1 e1] ok]. simpl in Hloop.
  destruct Hrem as (Eok & Es & El & Ek & Et & Eu & Eq & Ea & _).
  assert (Hs1 : Optimized.streams p1 !! stream_id = None) by (rewrite Es; apply lookup_delete_eq).
  set (fails := negb (running_loop e) &&
                negb (bool_decide
                        (default ∅ (Optimized.active_connections p !! stream_id) = ∅))) in *.
  assert (Hfails : negb (running_loop e1) &&
                   negb (bool_decide
                           (default ∅ (Optimized.active_connections p1 !! stream_id) = ∅))
                   = fails).
  { rewrite Hloop, Ea. unfold fails. destruct (negb (running_loop e)); [|done]. simpl.
    destruct (negb (bool_decide _)) eqn:Hd; [by rewrite Hd|].
    rewrite lookup_delete_eq. simpl. by rewrite bool_decide_eq_true_2. }
  assert (Ha1 : Optimized.active_connections p1 !! stream_id = None ∨
                negb (running_loop e1) &&
                negb (bool_decide
                        (default ∅ (Optimized.active_connections p1 !! stream_id) = ∅))
                = true).
  { rewrite Hfails. destruct fails; [by right|left]. rewrite Ea. apply lookup_delete_eq. }
  split.
  - pose proof (remove_stream_spec p1 e1 stream_id) as Hrem.
    pose proof (remove_stream_settings p1 e1 stream_id) as Hset.
    pose proof (remove_stream_absent_env p1 e1 stream_id Hs1 Ha1) as Henv.
    destruct (Optimized.remove_stream p1 e1 stream_id) as [[p2 e2] ok2].
    simpl in Hset, Henv. cbv zeta in Hrem. rewrite Hfails in Hrem.
    destruct Hrem as (-> & Es2 & El2 & Ek2 & Et2 & Eu2 & Eq2 & Ea2 & _).
    destruct Hset as (S1 & S2 & S3 & S4 & S5 & S6 & S7).
    assert (Hdd : ∀ V (m : gmap string V),
              delete stream_id (delete stream_id m) = delete stream_id m).
    { intros V m. apply delete_id, lookup_delete_eq. }
    rewrite Henv, Eok. f_equal. f_equal. apply processor_eq; try done.
    + by rewrite Es2, Es, Hdd.
    + by rewrite Eu2, Eu, Hdd.
    + by rewrite El2, El, Hdd.
    + rewrite Ek2, Ek. apply set_eq. intros x. rewrite !elem_of_difference. tauto.
    + by rewrite Et2, Et, Hdd.
    + by rewrite Eq2, Eq, Hdd.
    + rewrite Ea2. destruct fails; [done|]. by rewrite Ea, Hdd.
  - rewrite Eok. unfold fails.
    destruct (running_loop e); simpl.
    { split; [done|]. by intros [? _]. }
    destruct (Optimized.active_connections p !! stream_id) as [conns|]; simpl.
    + destruct (decide (conns = ∅)) as [->|Hne].
      * rewrite bool_decide_eq_true_2 by done. simpl. split; [done|].
        intros (_ & conns & [= <-] & Hne). done.
      * rewrite bool_decide_eq_false_2 by done. simpl. split; [|done].
        intros _. split; [done|]. by exists conns.
    + rewrite bool_decide_eq_true_2 by done. simpl. split; [done|].
      by intros (_ & conns & ? & _).
Qed.

(** ** Delivery to a consumer *)

(** With the stream registered and the peer connected, the delivery loop
    empties the stream's queue front to back and then sends a heartbeat. *)
Lemma run_drains `{Lib} (its : list bytes) :
  ∀ p e stream_id websocket q s,
  stream_id ∈ dom (Optimized.streams p) →
  Optimized.frame_queues p !! stream_id = Some q → items q = its →
  sockets e !! websocket = Some s → connected s = true →
  let '(h, (p', e')) :=
    Optimized.run (replicate (S (length its)) None) stream_id websocket
      Optimized.Streaming (p, e) in
  h = Optimized.Streaming ∧
  Optimized.streams p' = Optimized.streams p ∧
  Optimized.frame_queues p' !! stream_id = Some (MkQueue (maxsize q) []) ∧
  sockets e' !! websocket
  = Some (Sock true (outbox s ++ (Binary <$> its) ++ [JsonHeartbeat])) ∧
  ∀ other, other ≠ websocket → sockets e' !! other = sockets e !! other.
Proof.
  induction its as [|b rest IH]; intros p e stream_id websocket q s Hin Hq Hits Hs Hc.
  - simpl. rewrite (websocket_iter_heartbeat p e stream_id websocket q s) by done.
    simpl. split; [done|]. split; [done|]. split; [|split].
    + rewrite Hq. destruct q as [m its]. simpl in Hits. by subst.
    + rewrite list_lookup_insert_eq by (by eapply lookup_lt_Some). done.
    + intros other Hne. by rewrite list_lookup_insert_ne.
  - change (replicate (S (length (b :: rest))) None)
      with (@None Optimized.Action :: replicate (S (length rest)) None).
    cbn [Optimized.run fst snd Optimized.websocket_stream].
    rewrite (websocket_iter_forwards p e stream_id websocket q b rest s) by done.
    set (p1 := Optimized.set_frame_queues p _).
    set (e1 := set_sockets e _).
    specialize (IH p1 e1 stream_id websocket (MkQueue (maxsize q) rest)
                  (Sock true (outbox s ++ [Binary b]))).
    destruct (Optimized.run _ _ _ _ (p1, e1)) as [h [p' e']].
    destruct IH as (Hh & Hst & Hqs & Hout & Hoth); try done.
    + subst p1. simpl. apply lookup_insert_eq.
    + subst e1. simpl. rewrite list_lookup_insert_eq by (by eapply lookup_lt_Some). done.
    + split; [done|]. split; [done|]. split; [done|]. split.
      * rewrite Hout. simpl. by rewrite <- app_assoc.
      * intros other Hne. rewrite Hoth by done. subst e1. simpl.
        by rewrite list_lookup_insert_ne.
Qed.

(** X11: a consumer receives the queued frames in the order they were
    queued, each once and unchanged.  With the stream registered and the
    peer connected, as many turns of the delivery loop as the queue holds
    frames, and one more, send exactly these frames as binary messages,
    oldest first, and then a heartbeat; the queue is empty afterwards, the
    handler is still in its loop, and nothing is sent on any other
    connection. *)
Theorem X11_queue_is_delivered_in_order `{Lib} (p : Optimized.StreamProcessor) (e : Env)
    (stream_id : string) (websocket : nat) (q : Queue) (s : Socket) :
  stream_id ∈ dom (Optimized.streams p) →
  Optimized.frame_queues p !! stream_id = Some q →
  sockets e !! websocket = Some s → connected s = true →
  let '(h, (p', e')) :=
    Optimized.run (replicate (S (length (items q))) None) stream_id websocket
      Optimized.Streaming (p, e) in
  h = Optimized.Streaming ∧
  Optimized.frame_queues p' !! stream_id = Some (MkQueue (maxsize q) []) ∧
  sockets e' !! websocket
  = Some (Sock true (outbox s ++ (Binary <$> items q) ++ [JsonHeartbeat])) ∧
  ∀ other, other ≠ websocket → sockets e' !! other = sockets e !! other.
Proof.
  intros Hin Hq Hs Hc.
  pose proof (run_drains (items q) p e stream_id websocket q s Hin Hq eq_refl Hs Hc) as Hd.
  destruct (Optimized.run _ _ _ _ _) as [h [p' e']]. tauto.
Qed.

(** After two turns of the worker of "cam1" the queue holds the JPEGs of
    the first two frames; a consumer on socket 0 gets them in that order,
    then a heartbeat. *)
Lemma X11_queue_is_delivered_in_order_witness :
  let w := snd (Scenario.turns 2 Scenario.started) in
  let '(h, (p', e')) :=
    Optimized.run (H := Scenario.lib) (replicate 3 None) "cam1" 0 Optimized.Streaming w in
  Optimized.frame_queues (fst w) !! "cam1"
  = Some (MkQueue 2 [Scenario.jpeg Scenario.small; Scenario.jpeg Scenario.tiny]) ∧
  h = Optimized.Streaming ∧
  Optimized.frame_queues p' !! "cam1" = Some (MkQueue 2 []) ∧
  sockets e' !! 0%nat
  = Some (Sock true [Binary (Scenario.jpeg Scenario.small);
                     Binary (Scenario.jpeg Scenario.tiny); JsonHeartbeat]).
Proof.
  intros w.
  assert (Hq : Optimized.frame_queues (fst w) !! "cam1"
               = Some (MkQueue 2 [Scenario.jpeg Scenario.small; Scenario.jpeg Scenario.tiny]))
    by (vm_compute; reflexivity).
  assert (Hin : "cam1" ∈ dom (Optimized.streams (fst w))).
  { apply elem_of_dom. exists 0%nat. vm_compute. reflexivity. }
  assert (Hs : sockets (snd w) !! 0%nat = Some (Sock true [])) by (vm_compute; reflexivity).
  clearbody w. destruct w as [p0 e0]. simpl in Hq, Hin, Hs.
  pose proof (X11_queue_is_delivered_in_order (H := Scenario.lib) p0 e0 "cam1" 0
                _ _ Hin Hq Hs eq_refl) as HX.
  simpl in HX. simpl.
  destruct (Optimized.websocket_iter p0 e0 "cam1" 0) as [[p1 e1] h1].
  destruct (Optimized.websocket_stream h1 p1 e1 "cam1" 0) as [[p2 e2] h2].
  destruct (Optimized.websocket_stream h2 p2 e2 "cam1" 0) as [[p3 e3] h3].
  destruct HX as (Hh & Hq' & Hout & _). repeat split; done.
Defined.

(** X12: a frame read by the worker reaches a consumer as the JPEG of that
    frame at the processor's quality.  In a consistent state, when a turn of
    the worker has read a frame whose resize and encoding succeed, and a
    consumer with a connected peer then runs its delivery loop, the consumer
    receives what the queue still held of the older frames (all of them, or
    the newer one of two) and after them the encoded frame, then a
    heartbeat. *)
Theorem X12_frame_read_reaches_consumer `{Lib} (l l' : Optimized.Locals)
    (p p' : Optimized.StreamProcessor) (e e' : Env) (stream_id : string)
    (frame : nat) (raised : bool) (a a' : ndarray) (b : bytes) (q : Queue)
    (websocket : nat) (s : Socket) :
  Optimized.consistent (p, e) →
  Optimized.process_stream_iter l p e stream_id
  = (l', p', e', Optimized.FrameRead frame raised) →
  heap e' !! frame = Some a →
  Optimized.resize_for_queue a = Some a' →
  imencode a' (Optimized.jpeg_quality p) = Some b →
  Optimized.frame_queues p !! stream_id = Some q →
  sockets e' !! websocket = Some s → connected s = true →
  let kept := match items q with
              | [x1; x2] => [x2]
              | its => its
              end in
  let '(_, (_, e'')) :=
    Optimized.run (replicate (S (S (length kept))) None) stream_id websocket
      Optimized.Streaming (p', e') in
  sockets e'' !! websocket
  = Some (Sock true (outbox s ++ (Binary <$> kept) ++ [Binary b; JsonHeartbeat])).
Proof.
  intros Hcons Hturn Ha Hr Henc Hq Hs Hc kept.
  destruct (process_stream_iter_read _ _ _ _ _ _ _ _ _ Hturn) as (l2 & e2 & a0 & Hin & -> & He2 & Hon).
  pose proof (Optimized.streams_locked _ Hcons stream_id Hin) as Hlock. simpl in Hlock.
  pose proof (Optimized.queues_bounded _ Hcons stream_id q Hq) as Hb. simpl in Hb.
  assert (Ha0 : heap e2 !! length (heap e) = Some a0).
  { rewrite He2. apply list_lookup_middle. done. }
  pose proof (on_frame_publishes l2 p e2 stream_id (length (heap e)) a0 Hlock Ha0) as Hpub.
  rewrite Hon in Hpub. destruct Hpub as (_ & He' & _ & Hst & _ & Hqs).
  assert (a0 = a) as ->.
  { rewrite He', lookup_app_l in Ha by (by eapply lookup_lt_Some). congruence. }
  rewrite (enqueue_frame_pushes _ a stream_id q a' b) in Hqs by done.
  simpl in Hqs.
  assert (Hq' : Optimized.frame_queues p' !! stream_id = Some (MkQueue 2 (kept ++ [b]))).
  { rewrite Hqs, lookup_insert_eq. f_equal. f_equal. subst kept.
    destruct (items q) as [|x1 [|x2 [|x3 rest]]]; done. }
  assert (Hin' : stream_id ∈ dom (Optimized.streams p')) by (by rewrite Hst).
  pose proof (run_drains (kept ++ [b]) p' e' stream_id websocket _ s Hin' Hq' eq_refl Hs Hc) as Hd.
  assert (Hlen : S (length (kept ++ [b])) = S (S (length kept)))
    by (rewrite length_app; simpl; lia).
  rewrite Hlen in Hd.
  destruct (Optimized.run _ _ _ _ _) as [h [p'' e'']].
  destruct Hd as (_ & _ & _ & Hout & _). rewrite Hout.
  by rewrite fmap_app, <- !app_assoc.
Qed.

(** The first frame of "cam1", read by the worker's first turn, arrives on
    socket 0 as its JPEG at quality 40. *)
Lemma X12_frame_read_reaches_consumer_witness :
  let s0 := Scenario.started in
  let s1 := Scenario.turns 1 Scenario.started in
  let '(_, (_, e'')) :=
    Optimized.run (H := Scenario.lib) (replicate 2 None) "cam1" 0 Optimized.Streaming (snd s1) in
  sockets e'' !! 0%nat
  = Some (Sock true [Binary (Scenario.jpeg Scenario.small); JsonHeartbeat]).
Proof.
  intros s0 s1.
  assert (Hcons : Optimized.consistent (snd s0)).
  { apply (reachable_consistent (H := Scenario.lib)).
    apply Optimized.reachable_act. apply reachable_added. }
  assert (Hturn : Optimized.process_stream_iter (H := Scenario.lib)
                    (fst s0) (fst (snd s0)) (snd (snd s0)) "cam1"
                  = (fst s1, fst (snd s1), snd (snd s1), Optimized.FrameRead 0 false))
    by (vm_compute; reflexivity).
  rewrite (surjective_pairing (snd s0)) in Hcons.
  pose proof (X12_frame_read_reaches_consumer (H := Scenario.lib) _ _ _ _ _ _ "cam1" 0 false
                Scenario.small Scenario.small (Scenario.jpeg Scenario.small) (Queue_new 2)
                0 (Sock true []) Hcons Hturn) as HX.
  rewrite (surjective_pairing (snd s1)).
  apply HX; vm_compute; reflexivity.
Defined.

(** ** The MJPEG stream *)

Lemma encode_latin1_app (s1 s2 : string) :
  Adapters.encode_latin1 (s1 +:+ s2) = Adapters.encode_latin1 s1 ++ Adapters.encode_latin1 s2.
Proof.
  unfold Adapters.encode_latin1. induction s1 as [|c s1 IH]; simpl; [done|].
  unfold String.list_byte_of_string in *. simpl. by rewrite IH.
Qed.

(** X13: every part of the MJPEG stream carries exactly the bytes the
    snapshot endpoint returns at the default quality.  For a registered
    stream, a turn of the generator yields the multipart header
    ([--frame], the content type, an empty line), then the body
    [GET /stream/{id}/frame] would reply with, byte for byte, then CR LF;
    when the snapshot would be a 404 (no frame cached yet) the turn yields
    nothing and changes nothing; when the encoder raises, so does the
    generator.  A turn that got past the encoder raises exactly when
    [max_fps] is 0. *)
Theorem X13_mjpeg_part_carries_snapshot `{Lib} (p : Optimized.StreamProcessor) (e : Env)
    (stream_id : string) :
  stream_id ∈ dom (Optimized.streams p) →
  let '(part, e', next) := Adapters.generate_mjpeg_iter p e stream_id in
  match Optimized.Api.get_stream_frame p e stream_id None with
  | (JpegResponse body, e1) =>
      part = Some (Adapters.encode_latin1 Adapters.mjpeg_header ++ body ++ [Byte.x0d; Byte.x0a]) ∧
      e' = e1 ∧
      next = (if Optimized.max_fps p =? 0 then Adapters.Raise else Adapters.Continue)
  | (HTTPException _ _, _) =>
      part = None ∧ e' = e ∧
      next = (if Optimized.max_fps p =? 0 then Adapters.Raise else Adapters.Continue)
  | _ => part = None ∧ next = Adapters.Raise
  end.
Proof.
  intros Hin. unfold Adapters.generate_mjpeg_iter, Optimized.Api.get_stream_frame.
  destruct (decide _) as [_|]; [|done].
  pose proof (get_latest_frame_heap p e stream_id) as Hh.
  destruct (Optimized.get_latest_frame p e stream_id) as [[frame|] e1] eqn:Hg.
  - destruct (heap e1 !! frame) as [a|]; [|done].
    destruct (imencode a (Optimized.jpeg_quality p)) as [b|]; [|done].
    split; [|done]. f_equal. rewrite !encode_latin1_app.
    unfold Adapters.encode_latin1 at 2, Adapters.decode_latin1.
    by rewrite String.list_byte_of_string_of_list_byte.
  - split; [done|]. split; [|done].
    unfold Optimized.get_latest_frame in Hg.
    destruct (decide _); [|congruence].
    destruct (Optimized.latest_frames p !! stream_id) as [r|]; [|congruence].
    destruct (ndarray_copy e r) as [[r' e2]|]; congruence.
Qed.

(** After the first turn of the worker of "cam1" the generator yields the
    header, the JPEG of the first frame and CR LF. *)
Lemma X13_mjpeg_part_carries_snapshot_witness :
  let w := snd (Scenario.turns 1 Scenario.started) in
  Adapters.encode_latin1 Adapters.mjpeg_header
  = [Byte.x2d; Byte.x2d; Byte.x66; Byte.x72; Byte.x61; Byte.x6d; Byte.x65; Byte.x0d; Byte.x0a;
     Byte.x43; Byte.x6f; Byte.x6e; Byte.x74; Byte.x65; Byte.x6e; Byte.x74; Byte.x2d;
     Byte.x54; Byte.x79; Byte.x70; Byte.x65; Byte.x3a; Byte.x20;
     Byte.x69; Byte.x6d; Byte.x61; Byte.x67; Byte.x65; Byte.x2f;
     Byte.x6a; Byte.x70; Byte.x65; Byte.x67; Byte.x0d; Byte.x0a; Byte.x0d; Byte.x0a] ∧
  fst (Optimized.Api.get_stream_frame (H := Scenario.lib) (fst w) (snd w) "cam1" None)
  = JpegResponse (Scenario.jpeg Scenario.small) ∧
  fst (fst (Adapters.generate_mjpeg_iter (H := Scenario.lib) (fst w) (snd w) "cam1"))
  = Some (Adapters.encode_latin1 Adapters.mjpeg_header ++ Scenario.jpeg Scenario.small
          ++ [Byte.x0d; Byte.x0a]).
Proof.
  intros w.
  assert (Hin : "cam1" ∈ dom (Optimized.streams (fst w))).
  { apply elem_of_dom. exists 0%nat. vm_compute. reflexivity. }
  pose proof (X13_mjpeg_part_carries_snapshot (H := Scenario.lib) (fst w) (snd w) "cam1" Hin) as HX.
  assert (Hsnap : fst (Optimized.Api.get_stream_frame (H := Scenario.lib) (fst w) (snd w) "cam1" None)
                  = JpegResponse (Scenario.jpeg Scenario.small)) by (vm_compute; reflexivity).
  split; [vm_compute; reflexivity|]. split; [exact Hsnap|].
  destruct (Adapters.generate_mjpeg_iter (fst w) (snd w) "cam1") as [[part e'] next].
  destruct (Optimized.Api.get_stream_frame (fst w) (snd w) "cam1" None) as [r e1].
  simpl in Hsnap. subst r. simpl. tauto.
Defined.

(** ** The listing and the info endpoint *)

(** X14: the listing and the per-stream info endpoint agree.  The listing
    has as many entries as its [count] says and none of them is an error
    entry; for every id, [GET /stream/{id}/info] either replies with an
    entry of the listing, which is then the metrics of that id and the id
    is registered, or it is the 404 "Stream not found", the id is not
    registered and the listing has no entry for it. *)
Theorem X14_listing_agrees_with_info (p : Optimized.StreamProcessor) (e : Env) :
  let '(infos, count) := Adapters.list_streams p e in
  length infos = count ∧
  (∀ detail, InfoError detail ∉ infos) ∧
  ∀ stream_id,
    match Adapters.get_stream_info p e stream_id with
    | Adapters.InfoBody info =>
        info ∈ infos ∧ stream_id ∈ dom (Optimized.streams p) ∧
        ∃ is_opened fps width height n, info = Info stream_id is_opened fps width height n
    | Adapters.InfoException status_code detail =>
        status_code = 404 ∧ detail = "Stream not found" ∧
        (stream_id ∉ dom (Optimized.streams p)) ∧
        ∀ is_opened fps width height n, Info stream_id is_opened fps width height n ∉ infos
    end.
Proof.
  unfold Adapters.list_streams, Adapters.get_all_streams_info.
  assert (Hentry : ∀ info,
            info ∈ (λ id, Optimized.get_stream_info p e id) <$> elements (dom (Optimized.streams p)) →
            ∃ id cap, Optimized.streams p !! id = Some cap ∧
                      info = Info id (cap_isOpened e cap)
                               (default 0 (Optimized.fps_counters p !! id))
                               (Optimized.cap_get_width e cap) (Optimized.cap_get_height e cap)
                               (size (default ∅ (Optimized.active_connections p !! id)))).
  { intros info (id & -> & Hid)%list_elem_of_fmap.
    apply elem_of_elements, elem_of_dom in Hid as [cap Hcap].
    exists id, cap. split; [done|]. unfold Optimized.get_stream_info. by rewrite Hcap. }
  split; [|split].
  - rewrite length_fmap. rewrite <- size_dom. done.
  - intros detail (id & cap & _ & Hd)%Hentry. done.
  - intros stream_id. unfold Adapters.get_stream_info.
    destruct (Optimized.streams p !! stream_id) as [cap|] eqn:Hs.
    + assert (Hin : stream_id ∈ dom (Optimized.streams p)) by (apply elem_of_dom; by eexists).
      unfold Optimized.get_stream_info at 1 2. rewrite Hs. split; [|split; [done|by eauto 10]].
      apply list_elem_of_fmap. exists stream_id. split.
      * unfold Optimized.get_stream_info. by rewrite Hs.
      * by apply elem_of_elements.
    + unfold Optimized.get_stream_info at 1. rewrite Hs.
      split; [done|]. split; [done|]. split; [by apply not_elem_of_dom|].
      intros o f w h n (id & cap & Hcap & [= -> _ _ _ _ _])%Hentry. congruence.
Qed.

(** ** Registering a consumer *)

(** X15: registering a connection and unregistering it again is a round
    trip.  For a stream that has a consumer set not yet holding the
    connection, [unregister_websocket] after [register_websocket] gives back
    the processor exactly as it was; in between, the stream's information
    counts the connection: [active_websocket_connections] is one more than
    before (this is the count a new consumer is sent in its info message),
    and no other stream's count has changed. *)
Theorem X15_register_then_unregister_is_identity (p : Optimized.StreamProcessor)
    (stream_id : string) (websocket : nat) (conns : gset nat) :
  Optimized.active_connections p !! stream_id = Some conns →
  websocket ∉ conns →
  let p1 := Optimized.register_websocket p stream_id websocket in
  Optimized.unregister_websocket p1 stream_id websocket = p ∧
  ∀ (e : Env) (id : string),
    match Optimized.get_stream_info p e id, Optimized.get_stream_info p1 e id with
    | Info _ o f w h n, Info id1 o1 f1 w1 h1 n1 =>
        id1 = id ∧ o1 = o ∧ f1 = f ∧ w1 = w ∧ h1 = h ∧
        n1 = (if decide (id = stream_id) then S n else n)
    | InfoError _, InfoError _ => True
    | _, _ => False
    end.
Proof.
  intros Ha Hnew p1.
  assert (Hp1 : p1 = Optimized.set_active_connections p
                       (<[stream_id := {[websocket]} ∪ conns]> (Optimized.active_connections p))).
  { subst p1. unfold Optimized.register_websocket.
    destruct (decide _) as [_|Hout]; [by rewrite Ha|].
    exfalso. apply Hout, elem_of_dom. by eexists. }
  split.
  - rewrite Hp1. unfold Optimized.unregister_websocket. simpl.
    rewrite lookup_insert_eq, insert_insert_eq.
    assert (({[websocket]} ∪ conns) ∖ {[websocket]} = conns) as ->.
    { apply set_eq. intros x. rewrite elem_of_difference, elem_of_union, elem_of_singleton.
      split; [tauto|]. intros Hx. split; [tauto|]. by intros ->. }
    rewrite (insert_id _ stream_id conns) by done. by destruct p.
  - intros e id. rewrite Hp1. unfold Optimized.get_stream_info. simpl.
    destruct (Optimized.streams p !! id) as [cap|]; [|done].
    repeat split; try done.
    destruct (decide (id = stream_id)) as [->|Hne].
    + rewrite lookup_insert_eq, Ha. simpl.
      rewrite size_union by (apply disjoint_singleton_l; done).
      by rewrite size_singleton.
    + by rewrite lookup_insert_ne.
Qed.

(** Socket 1 joins the consumers of "cam1", counted by the stream's
    information, and leaves again. *)
Lemma X15_register_then_unregister_is_identity_witness :
  let p := fst Scenario.added in
  let p1 := Optimized.register_websocket p "cam1" 1 in
  Optimized.get_stream_info p (snd Scenario.added) "cam1" = Info "cam1" true 0 3 2 0 ∧
  Optimized.get_stream_info p1 (snd Scenario.added) "cam1" = Info "cam1" true 0 3 2 1 ∧
  Optimized.unregister_websocket p1 "cam1" 1 = p.
Proof.
  intros p p1.
  assert (Ha : Optimized.active_connections p !! "cam1" = Some ∅) by (vm_compute; reflexivity).
  assert (Hnew : 1%nat ∉ (∅ : gset nat)) by apply not_elem_of_empty.
  destruct (X15_register_then_unregister_is_identity p "cam1" 1 ∅ Ha Hnew) as [Hround _].
  split; [vm_compute; reflexivity|]. split; [vm_compute; reflexivity|]. exact Hround.
Defined.

(** ** The worker of the enhanced processor *)

Lemma worker_keeps_refl p : worker_keeps p p.
Proof. unfold worker_keeps. repeat split; auto. Qed.

Lemma worker_keeps_trans p1 p2 p3 :
  worker_keeps p1 p2 → worker_keeps p2 p3 → worker_keeps p1 p3.
Proof.
  intros (A1 & A2 & A3 & A4 & A5 & A6) (B1 & B2 & B3 & B4 & B5 & B6).
  unfold worker_keeps. repeat split; try congruence.
  intros id ds Hd. destruct (B6 id ds Hd) as [|Hd2]; [by left|]. by apply A6.
Qed.

Lemma enhanced_reconnect_keeps p e stream_id :
  stream_id ∈ dom (Enhanced.streams p) →
  let '(p', e', ok) := Enhanced._reconnect_stream p e stream_id in
  worker_keeps p p' ∧
  Enhanced.latest_frames p' = Enhanced.latest_frames p ∧
  (ok = true → is_Some (Enhanced.streams p' !! stream_id)).
Proof.
  intros Hin. unfold Enhanced._reconnect_stream.
  destruct (Enhanced.stream_urls p !! stream_id) as [url|];
    [|split; [apply worker_keeps_refl|done]].
  destruct (VideoCapture_open _ url) as [c e1].
  destruct (negb _); [split; [apply worker_keeps_refl|done]|].
  destruct (cap_read e1 c) as [[frame|] e2]; [|split; [apply worker_keeps_refl|done]].
  split; [|split; [done|]].
  - unfold worker_keeps. simpl. repeat split; auto.
    rewrite dom_insert_L. apply set_eq. intros x.
    rewrite elem_of_union, elem_of_singleton. split; [|tauto]. by intros [->|].
  - intros _. simpl. rewrite lookup_insert_eq. by eexists.
Qed.

Lemma reconnect_keeps l p e stream_id :
  stream_id ∈ dom (Enhanced.streams p) →
  let '(p', e', r) := EnhancedService.reconnect l p e stream_id in
  worker_keeps p p' ∧ Enhanced.latest_frames p' = Enhanced.latest_frames p ∧ r ≠ inr false.
Proof.
  intros Hin. unfold EnhancedService.reconnect.
  pose proof (enhanced_reconnect_keeps p e stream_id Hin) as Hk.
  destruct (Enhanced._reconnect_stream p e stream_id) as [[p' e'] ok].
  destruct Hk as (Hk & Hf & Hok). destruct ok; [|done].
  destruct (Hok eq_refl) as [c ->]. done.
Qed.

Lemma raise_after_keeps frame l p e stream_id :
  stream_id ∈ dom (Enhanced.streams p) →
  let '(_, p', _, o) := EnhancedService.raise_after frame l p e stream_id in
  worker_keeps p p' ∧ Enhanced.latest_frames p' = Enhanced.latest_frames p ∧
  o = match frame with
      | Some frame => EnhancedService.FrameRead frame true
      | None => EnhancedService.Raised
      end.
Proof.
  intros Hin. unfold EnhancedService.raise_after, EnhancedService.on_exception.
  simpl. destruct (_ <=? _); [|split; [apply worker_keeps_refl|done]].
  set (l1 := EnhancedService.MkLocals _ _ _ _ _).
  pose proof (reconnect_keeps l1 p e stream_id Hin) as Hk.
  destruct (EnhancedService.reconnect l1 p e stream_id) as [[p' e'] [l'|[|]]];
    destruct Hk as (Hk & Hf & Hr); done.
Qed.

Lemma heap_grows_refl (e : Env) : ∃ ext, heap e = heap e ++ ext.
Proof. exists []. by rewrite app_nil_r. Qed.

Lemma heap_grows_trans (e1 e2 e3 : Env) :
  (∃ ext, heap e2 = heap e1 ++ ext) → (∃ ext, heap e3 = heap e2 ++ ext) →
  ∃ ext, heap e3 = heap e1 ++ ext.
Proof. intros [x1 E1] [x2 E2]. exists (x1 ++ x2). by rewrite E2, E1, app_assoc. Qed.

Lemma cap_read_heap_grows e h : ∃ ext, heap (snd (cap_read e h)) = heap e ++ ext.
Proof.
  pose proof (cap_read_heap e h) as Hr. destruct (cap_read e h) as [[r|] e']; simpl.
  - destruct Hr as [_ [a ->]]. by eexists.
  - rewrite Hr. apply heap_grows_refl.
Qed.

Lemma enhanced_reconnect_heap p e stream_id :
  ∃ ext, heap (snd (fst (Enhanced._reconnect_stream p e stream_id))) = heap e ++ ext.
Proof.
  unfold Enhanced._reconnect_stream.
  destruct (Enhanced.stream_urls p !! stream_id) as [url|]; [|apply heap_grows_refl].
  set (e0 := match Enhanced.streams p !! stream_id with
             | Some old => cap_release e old
             | None => e
             end).
  assert (H0 : heap e0 = heap e).
  { subst e0. destruct (Enhanced.streams p !! stream_id); [apply heap_cap_release|done]. }
  unfold VideoCapture_open. simpl.
  destruct (negb _); simpl; [exists []; by rewrite app_nil_r|].
  set (e1 := set_caps e0 _). set (c := length (caps e0)).
  pose proof (cap_read_heap_grows e1 c) as [ext Hext].
  change (heap e1) with (heap e0) in Hext. rewrite H0 in Hext.
  destruct (cap_read e1 c) as [[frame|] e2]; simpl in *.
  - by exists ext.
  - exists ext. by rewrite heap_cap_release.
Qed.

Lemma reconnect_heap l p e stream_id :
  ∃ ext, heap (snd (fst (EnhancedService.reconnect l p e stream_id))) = heap e ++ ext.
Proof.
  unfold EnhancedService.reconnect.
  pose proof (enhanced_reconnect_heap p e stream_id) as Hh.
  destruct (Enhanced._reconnect_stream p e stream_id) as [[p' e'] ok]. simpl in Hh.
  destruct ok; [|done]. by destruct (Enhanced.streams p' !! stream_id).
Qed.

Lemma raise_after_heap frame l p e stream_id :
  ∃ ext, heap (snd (fst (EnhancedService.raise_after frame l p e stream_id))) = heap e ++ ext.
Proof.
  unfold EnhancedService.raise_after, EnhancedService.on_exception. simpl.
  destruct (_ <=? _); [|apply heap_grows_refl].
  set (l1 := EnhancedService.MkLocals _ _ _ _ _).
  pose proof (reconnect_heap l1 p e stream_id) as Hh.
  by destruct (EnhancedService.reconnect l1 p e stream_id) as [[p' e'] [l'|[|]]].
Qed.

Lemma enhanced_update_fps_keeps l p e stream_id frame :
  stream_id ∈ dom (Enhanced.streams p) →
  let '(_, p', e', o) := EnhancedService.update_fps l p e stream_id frame in
  worker_keeps p p' ∧ Enhanced.latest_frames p' = Enhanced.latest_frames p ∧
  (∃ ext, heap e' = heap e ++ ext) ∧
  ∃ raised, o = EnhancedService.FrameRead frame raised.
Proof.
  intros Hin. unfold EnhancedService.update_fps. simpl.
  destruct (Enhanced.last_fps_time p !! stream_id) as [last|].
  - destruct (PrimFloat.leb _ _); simpl.
    + split; [|split; [done|split; [apply heap_grows_refl|by eexists]]].
      unfold worker_keeps. simpl. repeat split; auto.
    + split; [apply worker_keeps_refl|]. split; [done|]. split; [apply heap_grows_refl|by eexists].
  - set (l1 := EnhancedService.MkLocals _ _ _ _ _).
    set (e1 := set_ticks e _).
    pose proof (raise_after_keeps (Some frame) l1 p e1 stream_id Hin) as Hk.
    pose proof (raise_after_heap (Some frame) l1 p e1 stream_id) as Hh.
    destruct (EnhancedService.raise_after _ l1 p e1 stream_id) as [[[l' p'] e'] o].
    destruct Hk as (Hk & Hf & ->). simpl in Hh.
    split; [done|]. split; [done|]. split; [done|by eexists].
Qed.

(** What a successful read leads to: the outcome names the frame, and when
    nothing raised the frame's copy is the cached frame of the stream. *)
Lemma enhanced_on_frame_spec l p e stream_id enable_ai frame :
  stream_id ∈ dom (Enhanced.streams p) →
  let '(_, p', e', o) := EnhancedService.on_frame l p e stream_id enable_ai frame in
  worker_keeps p p' ∧
  (∃ ext, heap e' = heap e ++ ext) ∧
  (∃ raised, o = EnhancedService.FrameRead frame raised) ∧
  (o = EnhancedService.FrameRead frame false →
   stream_id ∈ Enhanced.frame_locks p' ∧
   ∃ a, heap e !! frame = Some a ∧
        Enhanced.latest_frames p' !! stream_id = Some (length (heap e)) ∧
        heap e' !! length (heap e) = Some a).
Proof.
  intros Hin. unfold EnhancedService.on_frame.
  set (l0 := EnhancedService.MkLocals _ _ _ 0 _).
  assert (Hraise : ∀ l1 p1 e1,
            stream_id ∈ dom (Enhanced.streams p1) → worker_keeps p p1 →
            (∃ ext, heap e1 = heap e ++ ext) →
            let '(_, p', e', o) := EnhancedService.raise_after (Some frame) l1 p1 e1 stream_id in
            worker_keeps p p' ∧ (∃ ext, heap e' = heap e ++ ext) ∧
            (∃ raised, o = EnhancedService.FrameRead frame raised) ∧
            (o = EnhancedService.FrameRead frame false →
             stream_id ∈ Enhanced.frame_locks p' ∧
             ∃ a, heap e !! frame = Some a ∧
                  Enhanced.latest_frames p' !! stream_id = Some (length (heap e)) ∧
                  heap e' !! length (heap e) = Some a)).
  { intros l1 p1 e1 Hin1 Hk1 Hh1.
    pose proof (raise_after_keeps (Some frame) l1 p1 e1 stream_id Hin1) as Hk.
    pose proof (raise_after_heap (Some frame) l1 p1 e1 stream_id) as Hh.
    destruct (EnhancedService.raise_after _ l1 p1 e1 stream_id) as [[[l' p'] e'] o].
    destruct Hk as (Hk & _ & ->). simpl in Hh.
    split; [by eapply worker_keeps_trans|]. split; [by eapply heap_grows_trans|].
    split; [by eexists|done]. }
  destruct (decide (stream_id ∈ Enhanced.frame_locks p)) as [Hlock|];
    [|apply Hraise; [done|apply worker_keeps_refl|apply heap_grows_refl]].
  unfold ndarray_copy at 1.
  destruct (heap e !! frame) as [a|] eqn:Ha;
    [|apply Hraise; [done|apply worker_keeps_refl|apply heap_grows_refl]].
  simpl.
  set (p1 := EnhancedService.set_latest_frames p _).
  set (e1 := set_heap e (heap e ++ [a])).
  assert (Hk1 : worker_keeps p p1).
  { unfold worker_keeps. subst p1. simpl. repeat split; auto. }
  assert (Hfps : ∀ l2 p2 e2,
            worker_keeps p1 p2 → Enhanced.streams p2 = Enhanced.streams p →
            Enhanced.latest_frames p2 = Enhanced.latest_frames p1 →
            (∃ ext, heap e2 = heap e1 ++ ext) →
            let '(_, p', e', o) := EnhancedService.update_fps l2 p2 e2 stream_id frame in
            worker_keeps p p' ∧ (∃ ext, heap e' = heap e ++ ext) ∧
            (∃ raised, o = EnhancedService.FrameRead frame raised) ∧
            (o = EnhancedService.FrameRead frame false →
             stream_id ∈ Enhanced.frame_locks p' ∧
             ∃ a0, Some a = Some a0 ∧
                  Enhanced.latest_frames p' !! stream_id = Some (length (heap e)) ∧
                  heap e' !! length (heap e) = Some a0)).
  { intros l2 p2 e2 Hk2 Hs2 Hf2 Hh2.
    assert (Hin2 : stream_id ∈ dom (Enhanced.streams p2)) by (by rewrite Hs2).
    pose proof (enhanced_update_fps_keeps l2 p2 e2 stream_id frame Hin2) as Hu.
    destruct (EnhancedService.update_fps l2 p2 e2 stream_id frame) as [[[l' p'] e'] o].
    destruct Hu as (Hk & Hf & Hh & Ho).
    assert (Hk' : worker_keeps p p').
    { eapply worker_keeps_trans; [exact Hk1|]. by eapply worker_keeps_trans. }
    assert (Hh' : ∃ ext, heap e' = heap e1 ++ ext) by (by eapply heap_grows_trans).
    split; [done|]. split.
    { eapply heap_grows_trans; [|exact Hh']. subst e1. simpl. by eexists. }
    split; [done|]. intros _. split.
    - destruct Hk' as (_ & _ & -> & _). done.
    - exists a. split; [done|]. split.
      + rewrite Hf, Hf2. subst p1. simpl. apply lookup_insert_eq.
      + destruct Hh' as [ext ->]. subst e1. simpl.
        rewrite <- app_assoc. apply list_lookup_middle. done. }
  destruct (enable_ai && _);
    [|apply Hfps; [apply worker_keeps_refl|done|done|apply heap_grows_refl]].
  destruct (_ =? 0);
    [|apply Hfps; [apply worker_keeps_refl|done|done|apply heap_grows_refl]].
  unfold ndarray_copy.
  destruct (heap e1 !! frame) as [a1|];
    [|apply Hfps; [apply worker_keeps_refl|done|done|apply heap_grows_refl]].
  simpl. apply Hfps.
  - unfold EnhancedService._run_ai_detection_sync.
    destruct (decide _); [|apply worker_keeps_refl].
    unfold worker_keeps. simpl. repeat split; auto.
    intros id ds. destruct (decide (id = stream_id)) as [->|Hne].
    + rewrite lookup_insert_eq. intros [= <-]. by left.
    + rewrite lookup_insert_ne by done. by right.
  - unfold EnhancedService._run_ai_detection_sync. by destruct (decide _).
  - unfold EnhancedService._run_ai_detection_sync. by destruct (decide _).
  - simpl. by eexists.
Qed.

(** What a turn of the enhanced worker leaves as it is, and what a turn that
    read a frame without raising has published. *)
Lemma enhanced_read_frame_spec l p e stream_id enable_ai :
  stream_id ∈ dom (Enhanced.streams p) →
  let '(_, p', e', o) := EnhancedService.read_frame l p e stream_id enable_ai in
  worker_keeps p p' ∧
  (∃ ext, heap e' = heap e ++ ext) ∧
  (o = EnhancedService.Waited ∨ o = EnhancedService.ReadFailed ∨
   ∃ frame raised, o = EnhancedService.FrameRead frame raised) ∧
  (∀ frame, o = EnhancedService.FrameRead frame false →
   stream_id ∈ Enhanced.frame_locks p' ∧
   ∃ a c, heap e' !! frame = Some a ∧
          Enhanced.latest_frames p' !! stream_id = Some c ∧
          heap e' !! c = Some a).
Proof.
  intros Hin. unfold EnhancedService.read_frame.
  pose proof (cap_read_heap e (EnhancedService.cap l)) as Hread.
  destruct (cap_read e (EnhancedService.cap l)) as [[frame|] e1].
  - destruct Hread as [-> [a Ea]].
    pose proof (enhanced_on_frame_spec l p e1 stream_id enable_ai (length (heap e)) Hin) as Hon.
    destruct (EnhancedService.on_frame l p e1 stream_id enable_ai (length (heap e)))
      as [[[l' p'] e'] o].
    destruct Hon as (Hk & Hh & [raised ->] & Hpub).
    split; [done|]. split.
    { eapply heap_grows_trans; [|exact Hh]. by eexists. }
    split; [right; right; by eauto|].
    intros frame [= <- ->]. destruct (Hpub eq_refl) as (Hlock & a0 & Ha0 & Hl & Hc).
    split; [done|]. exists a0, (length (heap e1)). split; [|done].
    destruct Hh as [ext ->]. by apply lookup_app_l_Some.
  - simpl. destruct (_ <=? _).
    + set (l1 := EnhancedService.MkLocals _ _ _ _ _).
      pose proof (reconnect_keeps l1 p e1 stream_id Hin) as Hk.
      pose proof (reconnect_heap l1 p e1 stream_id) as Hh.
      destruct (EnhancedService.reconnect l1 p e1 stream_id) as [[p' e'] [l'|[|]]];
        destruct Hk as (Hk & _ & Hr); [| |done]; simpl in Hh; rewrite Hread in Hh;
        (split; [done|]; split; [done|]; split; [tauto|done]).
    + split; [apply worker_keeps_refl|]. split; [rewrite Hread; apply heap_grows_refl|].
      split; [tauto|done].
Qed.

Lemma enhanced_process_stream_iter_spec l p e stream_id enable_ai :
  let '(_, p', e', o) := EnhancedService.process_stream_iter l p e stream_id enable_ai in
  worker_keeps p p' ∧
  (∃ ext, heap e' = heap e ++ ext) ∧
  (o = EnhancedService.Exited ∧
   ¬ (Enhanced.running p = true ∧ stream_id ∈ dom (Enhanced.streams p)) ∨
   Enhanced.running p = true ∧ stream_id ∈ dom (Enhanced.streams p) ∧
   (o = EnhancedService.Waited ∨ o = EnhancedService.ReadFailed ∨
    ∃ frame raised, o = EnhancedService.FrameRead frame raised)) ∧
  (∀ frame, o = EnhancedService.FrameRead frame false →
   stream_id ∈ Enhanced.frame_locks p' ∧
   ∃ a c, heap e' !! frame = Some a ∧
          Enhanced.latest_frames p' !! stream_id = Some c ∧
          heap e' !! c = Some a).
Proof.
  unfold EnhancedService.process_stream_iter.
  destruct (negb _) eqn:Hloop.
  { split; [apply worker_keeps_refl|]. split; [apply heap_grows_refl|]. split; [|done].
    left. split; [done|]. intros [Hr Hd].
    apply negb_true_iff, andb_false_iff in Hloop as [Hx|Hx]; [congruence|].
    by apply bool_decide_eq_false in Hx. }
  apply negb_false_iff, andb_true_iff in Hloop as [Hrun Hin].
  apply bool_decide_eq_true in Hin.
  assert (Hgo : ∀ l1 p1 e1,
            worker_keeps p p1 → (∃ ext, heap e1 = heap e ++ ext) →
            let '(_, p', e', o) := EnhancedService.read_frame l1 p1 e1 stream_id enable_ai in
            worker_keeps p p' ∧
            (∃ ext, heap e' = heap e ++ ext) ∧
            (o = EnhancedService.Exited ∧
             ¬ (Enhanced.running p = true ∧ stream_id ∈ dom (Enhanced.streams p)) ∨
             Enhanced.running p = true ∧ stream_id ∈ dom (Enhanced.streams p) ∧
             (o = EnhancedService.Waited ∨ o = EnhancedService.ReadFailed ∨
              ∃ frame raised, o = EnhancedService.FrameRead frame raised)) ∧
            (∀ frame, o = EnhancedService.FrameRead frame false →
             stream_id ∈ Enhanced.frame_locks p' ∧
             ∃ a c, heap e' !! frame = Some a ∧
                    Enhanced.latest_frames p' !! stream_id = Some c ∧
                    heap e' !! c = Some a)).
  { intros l1 p1 e1 Hk1 Hh1.
    assert (Hin1 : stream_id ∈ dom (Enhanced.streams p1)).
    { destruct Hk1 as (-> & _). done. }
    pose proof (enhanced_read_frame_spec l1 p1 e1 stream_id enable_ai Hin1) as Hr.
    destruct (EnhancedService.read_frame l1 p1 e1 stream_id enable_ai) as [[[l' p'] e'] o].
    destruct Hr as (Hk & Hh & Ho & Hpub).
    split; [by eapply worker_keeps_trans|]. split; [by eapply heap_grows_trans|].
    split; [right; tauto|done]. }
  destruct (negb (cap_isOpened e (EnhancedService.cap l)));
    [|apply Hgo; [apply worker_keeps_refl|apply heap_grows_refl]].
  pose proof (reconnect_keeps l p e stream_id Hin) as Hk.
  pose proof (reconnect_heap l p e stream_id) as Hh.
  destruct (EnhancedService.reconnect l p e stream_id) as [[p' e'] [l'|[|]]];
    destruct Hk as (Hk & _ & Hr); [| |done]; simpl in Hh.
  - by apply Hgo.
  - split; [done|]. split; [done|]. split; [right; tauto|done].
Qed.

(** X16: on the enhanced processor a worker never takes a stream out of the
    registry and never dies.  A turn of a worker, whatever reconnections it
    tries and whatever raises inside it, leaves the set of registered
    streams, the stored addresses, the locks and the two switches as they
    were, and every detection list it stores is empty; the turn ends the
    loop exactly when the service has stopped or the stream is not
    registered, and otherwise it has waited after a failed reconnection, had
    a failed read or read a frame: no exception leaves the loop.  So, other
    than on the optimized processor, a stream that cannot be reconnected
    stays registered and its worker keeps trying. *)
Theorem X16_enhanced_worker_keeps_stream_registered (l : EnhancedService.Locals)
    (p : Enhanced.StreamProcessor) (e : Env) (stream_id : string) (enable_ai : bool) :
  let '(_, p', _, o) := EnhancedService.process_stream_iter l p e stream_id enable_ai in
  worker_keeps p p' ∧
  (o = EnhancedService.Exited ∧
   ¬ (Enhanced.running p = true ∧ stream_id ∈ dom (Enhanced.streams p)) ∨
   Enhanced.running p' = true ∧ stream_id ∈ dom (Enhanced.streams p') ∧
   (o = EnhancedService.Waited ∨ o = EnhancedService.ReadFailed ∨
    ∃ frame raised, o = EnhancedService.FrameRead frame raised)).
Proof.
  pose proof (enhanced_process_stream_iter_spec l p e stream_id enable_ai) as Hs.
  destruct (EnhancedService.process_stream_iter l p e stream_id enable_ai) as [[[l' p'] e'] o].
  destruct Hs as (Hk & _ & Ho & _). split; [done|].
  destruct Ho as [Ho|(Hr & Hd & Ho)]; [by left|]. right.
  destruct Hk as (Hdom & _ & _ & Hrun & _). rewrite Hdom, Hrun. done.
Qed.

(** ** Detections on the enhanced service *)

Lemma enhanced_add_stream_no_detections p e stream_id rtsp_url enable_ai :
  no_detections p →
  no_detections (fst (fst (Enhanced.add_stream p e stream_id rtsp_url enable_ai))).
Proof.
  intros Hno. unfold Enhanced.add_stream.
  destruct (VideoCapture_open e rtsp_url) as [c e1].
  destruct (negb _); simpl; [exact Hno|].
  intros id ds. simpl. destruct (decide (id = stream_id)) as [->|Hne].
  - rewrite lookup_insert_eq. by intros [= <-].
  - rewrite lookup_insert_ne by done. apply Hno.
Qed.

Lemma enhanced_act_no_detections `{Lib} a w :
  no_detections (fst w) → no_detections (fst (EnhancedService.act a w)).
Proof.
  destruct w as [p e]. simpl. intros Hno.
  destruct a as [id url ai|id url ai|id|id ai l|id|enabled]; simpl.
  - pose proof (enhanced_add_stream_no_detections p e id url ai Hno) as Ha.
    by destruct (Enhanced.add_stream p e id url ai) as [[p' e'] ok].
  - unfold Enhanced.Api.add_stream.
    destruct (Enhanced.Api.validate id url); [done|].
    destruct (decide _); [done|].
    pose proof (enhanced_add_stream_no_detections p e id url ai Hno) as Ha.
    by destruct (Enhanced.add_stream p e id url ai) as [[p' e'] ok].
  - unfold Enhanced.remove_stream. simpl. intros id' ds. simpl.
    rewrite (enhanced_del_if_in_delete id (Enhanced.latest_detections p)). intros Hd.
    apply lookup_delete_Some in Hd as [_ Hd]. by eapply Hno.
  - pose proof (enhanced_process_stream_iter_spec l p e id ai) as Hs.
    destruct (EnhancedService.process_stream_iter l p e id ai) as [[[l' p'] e'] o].
    destruct Hs as ((_ & _ & _ & _ & _ & Hd) & _). simpl.
    intros id' ds Hds. destruct (Hd id' ds Hds) as [|Hold]; [done|]. by eapply Hno.
  - by destruct (EnhancedService.get_latest_frame p e id).
  - exact Hno.
Qed.

Lemma enhanced_reachable_no_detections `{Lib} w :
  EnhancedService.reachable w → no_detections (fst w).
Proof.
  induction 1 as [e He|a w Hw IH].
  - intros id ds. simpl. by rewrite lookup_empty.
  - by apply enhanced_act_no_detections.
Qed.

(** X17: the enhanced service never reports a detection.  In every state
    the service can reach from a new processor (streams added through the
    method or the endpoint, removed, worker turns with the AI switch on or
    off, snapshots, toggles), [GET /stream/{id}/detections] replies for
    every id, registered or not, with an empty list and the count 0. *)
Theorem X17_enhanced_service_reports_no_detections `{Lib}
    (w : Enhanced.StreamProcessor * Env) (stream_id : string) :
  EnhancedService.reachable w →
  EnhancedService.get_stream_detections (fst w) stream_id = (stream_id, [], 0%nat).
Proof.
  intros Hr. apply enhanced_reachable_no_detections in Hr.
  unfold EnhancedService.get_stream_detections, EnhancedService.get_latest_detections.
  destruct (decide _); [|done].
  destruct (Enhanced.latest_detections (fst w) !! stream_id) as [ds|] eqn:Hd; [|done].
  by rewrite (Hr _ _ Hd).
Qed.

Lemma reachable_lobby_turns n :
  EnhancedService.reachable (H := Scenario.lib) (snd (Runs.lobby_turns n)).
Proof.
  induction n as [|n IH]; simpl.
  - apply EnhancedService.reachable_act. by apply EnhancedService.reachable_init.
  - by apply EnhancedService.reachable_act.
Qed.

(** After two frames of "lobby", the second of which went through the
    detection call, the stored list is empty and so is the reply. *)
Lemma X17_enhanced_service_reports_no_detections_witness :
  let s := Runs.lobby_turns 2 in
  EnhancedService.detection_count (fst s) = 1 ∧
  Enhanced.latest_detections (fst (snd s)) !! "lobby" = Some [] ∧
  EnhancedService.get_stream_detections (fst (snd s)) "lobby" = ("lobby", [], 0%nat).
Proof.
  intros s. split; [vm_compute; reflexivity|]. split; [vm_compute; reflexivity|].
  exact (X17_enhanced_service_reports_no_detections (H := Scenario.lib) (snd s) "lobby"
           (reachable_lobby_turns 2)).
Defined.

(** ** The snapshot of the enhanced service *)

(** X18: on the enhanced service the snapshot of a stream is the frame its
    worker read last, encoded at quality 60.  When a turn of the worker has
    read a frame and nothing raised, [GET /stream/{id}/frame] right after it
    replies with the JPEG of that frame at quality 60, whatever quality the
    processor or the caller would prefer, and with a 500 when the encoder
    raises: never with a 404, and no exception leaves the endpoint. *)
Theorem X18_enhanced_snapshot_is_frame_read `{Lib} (l l' : EnhancedService.Locals)
    (p p' : Enhanced.StreamProcessor) (e e' : Env) (stream_id : string)
    (enable_ai : bool) (frame : nat) :
  EnhancedService.process_stream_iter l p e stream_id enable_ai
  = (l', p', e', EnhancedService.FrameRead frame false) →
  ∃ a, heap e' !! frame = Some a ∧
       fst (EnhancedService.get_stream_frame p' e' stream_id)
       = match imencode a 60 with
         | Some buffer => JpegResponse buffer
         | None => HTTPException 500 "Error encoding frame"
         end.
Proof.
  intros Hturn.
  pose proof (enhanced_process_stream_iter_spec l p e stream_id enable_ai) as Hs.
  rewrite Hturn in Hs. destruct Hs as (_ & _ & _ & Hpub).
  destruct (Hpub frame eq_refl) as (Hlock & a & c & Ha & Hl & Hc).
  exists a. split; [done|].
  unfold EnhancedService.get_stream_frame, EnhancedService.get_latest_frame.
  destruct (decide _) as [_|]; [|done]. rewrite Hl.
  unfold ndarray_copy. rewrite Hc. simpl.
  rewrite list_lookup_middle by done.
  by destruct (imencode a 60).
Qed.

(** The first turn of the worker of "lobby" reads the first frame of the
    camera; the snapshot is its JPEG at quality 60. *)
Lemma X18_enhanced_snapshot_is_frame_read_witness :
  let s0 := Runs.lobby_turns 0 in
  let s1 := Runs.lobby_turns 1 in
  heap (snd (snd s1)) !! 0%nat = Some Scenario.small ∧
  fst (EnhancedService.get_stream_frame (H := Scenario.lib) (fst (snd s1)) (snd (snd s1)) "lobby")
  = JpegResponse (default [] (@imencode Scenario.lib Scenario.small 60)).
Proof.
  intros s0 s1.
  assert (H0 : heap (snd (snd s1)) !! 0%nat = Some Scenario.small) by (vm_compute; reflexivity).
  split; [exact H0|].
  destruct (X18_enhanced_snapshot_is_frame_read (H := Scenario.lib)
              (fst s0) (fst s1) (fst (snd s0)) (fst (snd s1)) (snd (snd s0)) (snd (snd s1))
              "lobby" true 0) as (a & Ha & Hr).
  - vm_compute. reflexivity.
  - rewrite H0 in Ha. injection Ha as <-. rewrite Hr. reflexivity.
Defined.

(** ** The address check of the enhanced add endpoint *)

(** A host name has a dot exactly when it splits into two parts or more. *)
Lemma split_on_contains (sep : Ascii.ascii) (s acc : string) :
  Enhanced.Api.contains sep s = true ↔
  (2 ≤ length (Enhanced.Api.split_on sep s acc))%nat.
Proof.
  revert acc. induction s as [|c s IH]; intros acc; simpl.
  - split; [done|lia].
  - destruct (Ascii.eqb c sep); simpl.
    + split; [|done]. intros _.
      destruct (Enhanced.Api.split_on sep s "") eqn:E; simpl; [|lia].
      exfalso. clear IH. revert E. generalize ""%string.
      induction s as [|c' s' IH']; intros acc'; simpl; [done|].
      destruct (Ascii.eqb c' sep); [done|apply IH'].
    + apply IH.
Qed.

Lemma incomplete_ip_spec (parts : list string) :
  Enhanced.Api.incomplete_ip parts = true ↔
  ∃ p0 p1 rest, parts = p0 :: p1 :: rest ∧ (length rest < 2)%nat ∧
                (p0 = "10" ∨ p0 = "172" ∨ (p0 = "192" ∧ p1 = "168")).
Proof.
  unfold Enhanced.Api.incomplete_ip.
  destruct parts as [|p0 [|p1 rest]].
  - split; [done|]. by intros (? & ? & ? & ? & _).
  - split; [done|]. by intros (? & ? & ? & ? & _).
  - assert (Hshort : Nat.ltb (length (p0 :: p1 :: rest)) 4 = true ↔ (length rest < 2)%nat).
    { rewrite Nat.ltb_lt. simpl. lia. }
    destruct (Nat.ltb (length (p0 :: p1 :: rest)) 4) eqn:Hs.
    + assert (Hlt : (length rest < 2)%nat) by (by apply Hshort).
      rewrite !andb_true_r.
      destruct (String.eqb_spec p0 "192"); destruct (String.eqb_spec p1 "168");
        destruct (String.eqb_spec p0 "10"); destruct (String.eqb_spec p0 "172"); simpl;
        (split;
         [intros Ht;
          first [discriminate
                |exists p0, p1, rest; split; [reflexivity|]; split; [exact Hlt|]; tauto]
         |intros (q0 & q1 & r & [= <- <- <-] & _ & Hc);
          first [reflexivity|exfalso; destruct Hc as [?|[?|[? ?]]]; congruence]]).
    + rewrite !andb_false_r. simpl. split; [done|].
      intros (q0 & q1 & r & [= <- <- <-] & Hlt & _). apply Hshort in Hlt. congruence.
Qed.

(** X19: which addresses the enhanced add endpoint rejects as an incomplete
    IP address.  The 400 "Incomplete IP address" is raised exactly when the
    URL starts with [rtsp://], the stream id is not empty, and the host name
    splits at its dots into two or three parts of which the first is "10"
    or "172", or the first two are "192" and "168".  Nothing else about the
    parts is looked at: a host name of four or more dotted parts is never
    rejected for this reason, and a two or three part DNS name whose first
    label is "10" or "172" is. *)
Theorem X19_incomplete_ip_rejection `{Lib} (stream_id rtsp_url : string) :
  Enhanced.Api.validate stream_id rtsp_url
  = Some (HTTPException 400 "Invalid RTSP URL: Incomplete IP address") ↔
  String.prefix "rtsp://" rtsp_url = true ∧ stream_id ≠ ""%string ∧
  ∃ hostname p0 p1 rest,
    urlparse_hostname rtsp_url = Some (Some hostname) ∧
    Enhanced.Api.split_on "." hostname "" = p0 :: p1 :: rest ∧
    (length rest < 2)%nat ∧
    (p0 = "10"%string ∨ p0 = "172"%string ∨ (p0 = "192"%string ∧ p1 = "168"%string)).
Proof.
  unfold Enhanced.Api.validate.
  destruct (String.prefix "rtsp://" rtsp_url); simpl; [|split; [done|by intros [? _]]].
  destruct (String.eqb stream_id "") eqn:Hid.
  { apply String.eqb_eq in Hid. split; [done|]. by intros (_ & ? & _). }
  apply String.eqb_neq in Hid.
  destruct (urlparse_hostname rtsp_url) as [[hostname|]|];
    [|split; [done|by intros (_ & _ & ? & ? & ? & ? & ? & _)]
     |split; [done|by intros (_ & _ & ? & ? & ? & ? & ? & _)]].
  pose proof (split_on_contains "." hostname "") as Hdot.
  pose proof (incomplete_ip_spec (Enhanced.Api.split_on "." hostname "")) as Hip.
  destruct (String.eqb hostname "") eqn:Hh.
  { apply String.eqb_eq in Hh. subst hostname. split; [done|].
    intros (_ & _ & h & p0 & p1 & rest & [= <-] & Hsplit & _). by simpl in Hsplit. }
  destruct (Enhanced.Api.contains "." hostname) eqn:Hc; simpl.
  - destruct (Enhanced.Api.incomplete_ip _) eqn:Hi.
    + split; [|done]. intros _. split; [done|]. split; [done|].
      destruct (proj1 Hip eq_refl) as (p0 & p1 & rest & Hs & Hl & Hp).
      by exists hostname, p0, p1, rest.
    + split; [done|]. intros (_ & _ & h & p0 & p1 & rest & [= <-] & Hsplit & Hl & Hp).
      assert (false = true); [|done]. apply Hip. by eauto 10.
  - split; [done|]. intros (_ & _ & h & p0 & p1 & rest & [= <-] & Hsplit & _).
    assert (false = true); [|done]. apply Hdot. rewrite Hsplit. simpl. lia.
Qed.

Example incomplete_ip_of_dns_name :
  Enhanced.Api.incomplete_ip (Enhanced.Api.split_on "." "10.cameras" "") = true ∧
  Enhanced.Api.incomplete_ip (Enhanced.Api.split_on "." "192.168.1." "") = false.
Proof. split; vm_compute; reflexivity. Qed.

(** ** The frame handed to inference *)

Lemma edges_ok_spec (fuel : nat) :
  ∀ long_edge, Bounds.edges_ok fuel long_edge = true →
  ∀ k, long_edge ≤ k < long_edge + Z.of_nat fuel → Bounds.edge_ok k = true.
Proof.
  induction fuel as [|n IH]; intros long_edge Hok k Hk; [lia|].
  simpl in Hok. apply andb_true_iff in Hok as [H1 H2].
  destruct (decide (k = long_edge)) as [->|Hne]; [done|].
  apply (IH (long_edge + 1) H2). lia.
Qed.

(** Every long edge from 1281 to 16384: checked by running the float
    arithmetic. *)
Lemma edges_ok_16k : Bounds.edges_ok (Z.to_nat 15104) 1281 = true.
Proof. vm_cast_no_check (eq_refl true). Qed.

Lemma scaled_long_edge (long_edge : Z) :
  1280 < long_edge ≤ 16384 →
  ∃ z, Bounds.scaled long_edge long_edge = Some z ∧
       (z = 1279 ∨ z = 1280) ∧ (long_edge ≤ 2138 → z = 1280).
Proof.
  intros Hl.
  pose proof (edges_ok_spec (Z.to_nat 15104) 1281 edges_ok_16k long_edge ltac:(lia)) as He.
  unfold Bounds.edge_ok in He.
  destruct (Bounds.scaled long_edge long_edge) as [z|]; [|done].
  exists z. split; [done|].
  apply orb_true_iff in He as [He|He].
  - apply Z.eqb_eq in He. lia.
  - apply andb_true_iff in He as [He1 He2]. apply Z.eqb_eq in He1. apply Z.ltb_lt in He2. lia.
Qed.

(** X20: the long edge [preprocess_frame] produces, in the float arithmetic
    of the code.  For every frame whose long edge is above 1280 and at most
    16384 pixels, the frame handed to inference keeps its orientation and
    has a long edge of 1280 or 1279, never more, and of exactly 1280 for
    long edges up to 2138; its short edge is [int(short * (1280 / long))],
    which is positive.  The call raises only when that short edge is not a
    positive size. *)
Theorem X20_preprocess_frame_caps_long_edge `{Lib} (frame : ndarray) :
  1280 < Z.max (shape0 frame) (shape1 frame) ≤ 16384 →
  match AIProcessor.preprocess_frame frame with
  | Some out =>
      (shape0 frame ≤ shape1 frame →
         (shape1 out = 1279 ∨ shape1 out = 1280) ∧
         (shape1 frame ≤ 2138 → shape1 out = 1280) ∧
         Bounds.scaled (shape0 frame) (shape1 frame) = Some (shape0 out) ∧
         0 < shape0 out) ∧
      (shape1 frame ≤ shape0 frame →
         (shape0 out = 1279 ∨ shape0 out = 1280) ∧
         (shape0 frame ≤ 2138 → shape0 out = 1280) ∧
         Bounds.scaled (shape1 frame) (shape0 frame) = Some (shape1 out) ∧
         0 < shape1 out)
  | None =>
      ∀ z, Bounds.scaled (Z.min (shape0 frame) (shape1 frame))
             (Z.max (shape0 frame) (shape1 frame)) = Some z → z ≤ 0
  end.
Proof.
  intros Hmax. unfold AIProcessor.preprocess_frame.
  destruct (1280 <? Z.max (shape0 frame) (shape1 frame)) eqn:Hbig;
    [|apply Z.ltb_ge in Hbig; lia].
  fold (Bounds.scaled (shape1 frame) (Z.max (shape0 frame) (shape1 frame))).
  fold (Bounds.scaled (shape0 frame) (Z.max (shape0 frame) (shape1 frame))).
  destruct (decide (shape0 frame ≤ shape1 frame)) as [Hle|Hgt].
  - rewrite Z.max_r, Z.min_l in * by done.
    destruct (scaled_long_edge (shape1 frame)) as (zl & HL & Hz & Hex); [lia|].
    rewrite HL.
    destruct (Bounds.scaled (shape0 frame) (shape1 frame)) as [z|] eqn:Hs; [|done].
    unfold cv2_resize.
    assert ((0 <? zl) = true) as -> by (apply Z.ltb_lt; lia). simpl.
    destruct (0 <? z) eqn:Hpos; simpl.
    + apply Z.ltb_lt in Hpos. split; [done|].
      intros Hge. assert (shape0 frame = shape1 frame) as E by lia.
      rewrite E in Hs. rewrite Hs in HL. injection HL as ->. rewrite E. done.
    + apply Z.ltb_ge in Hpos. by intros z' [= <-].
  - rewrite Z.max_l, Z.min_r in * by lia.
    destruct (scaled_long_edge (shape0 frame)) as (zl & HL & Hz & Hex); [lia|].
    rewrite HL.
    destruct (Bounds.scaled (shape1 frame) (shape0 frame)) as [z|] eqn:Hs; [|done].
    unfold cv2_resize.
    assert ((0 <? zl) = true) as Hzl by (apply Z.ltb_lt; lia).
    destruct (0 <? z) eqn:Hpos; rewrite ?Hzl; simpl.
    + apply Z.ltb_lt in Hpos. split; [lia|done].
    + apply Z.ltb_ge in Hpos. by intros z' [= <-].
Qed.

(** A Full HD frame, 1080 rows of 1920 columns, is handed on as 720 rows of
    1280 columns. *)
Lemma X20_preprocess_frame_caps_long_edge_witness :
  (shape0 <$> AIProcessor.preprocess_frame (H := Scenario.lib) Scenario.landscape) = Some 720 ∧
  (shape1 <$> AIProcessor.preprocess_frame (H := Scenario.lib) Scenario.landscape) = Some 1280.
Proof.
  split; [vm_compute; reflexivity|].
  assert (Hrange : 1280 < Z.max (shape0 Scenario.landscape) (shape1 Scenario.landscape) ≤ 16384).
  { split; vm_compute; [reflexivity|discriminate]. }
  pose proof (X20_preprocess_frame_caps_long_edge (H := Scenario.lib) Scenario.landscape Hrange)
    as HX.
  destruct (AIProcessor.preprocess_frame Scenario.landscape) as [out|] eqn:Hout.
  - destruct HX as [Hland _]. simpl. f_equal.
    apply Hland; vm_compute; discriminate.
  - exfalso. revert Hout. vm_compute. discriminate.
Defined.

(** Beyond 2138 the long edge is not always exactly 1280: a frame of 2139
    columns comes out 1279 columns wide. *)
Example preprocess_frame_2139 :
  (shape1 <$> AIProcessor.preprocess_frame (H := Scenario.lib) (Ndarray 1200 2139 []))
  = Some 1279.
Proof. vm_compute. reflexivity. Qed.

(** ** The quality endpoint *)

Lemma quality_domain p :
  Quality.reachable p → dom (Quality.stream_qualities p) ⊆ dom (Quality.streams p).
Proof.
  assert (Hmeth : ∀ p id q,
            dom (Quality.stream_qualities p) ⊆ dom (Quality.streams p) →
            dom (Quality.stream_qualities (fst (Quality.set_stream_quality p id q)))
            ⊆ dom (Quality.streams (fst (Quality.set_stream_quality p id q)))).
  { intros p0 id q H0. unfold Quality.set_stream_quality.
    destruct (decide _) as [Hin|]; [|done]. simpl.
    rewrite dom_insert. intros x [->%elem_of_singleton|Hx]%elem_of_union; [done|by apply H0]. }
  induction 1 as [|p id q _ IH|p id q _ IH].
  - simpl. by rewrite dom_empty.
  - by apply Hmeth.
  - unfold Quality.set_quality.
    set (p1 := if decide (id ∈ dom (Quality.streams p)) then p else _).
    assert (H1 : dom (Quality.stream_qualities p1) ⊆ dom (Quality.streams p1)).
    { subst p1. destruct (decide _); [done|]. simpl. rewrite dom_insert.
      intros x Hx. apply elem_of_union. right. by apply IH. }
    specialize (Hmeth p1 id (Quality.clamp q) H1).
    by destruct (Quality.set_stream_quality p1 id (Quality.clamp q)) as [p2 ok].
Qed.

(** X21: [/set_quality] accepts any stream id.  In every state of the
    quality service the endpoint replies success with the clamped quality,
    which lies between 1 and 100 and is what is then stored for the stream;
    an id that was not registered is registered by the call under the name
    "Stream <id>", a registered one keeps its entry; no other stream's entry
    or quality changes; and a quality is stored for registered streams
    only. *)
Theorem X21_set_quality_endpoint_registers_and_stores (p : Quality.StreamProcessor)
    (stream_id : string) (quality : Z) :
  Quality.reachable p →
  let '(p', (success, replied_id, replied)) := Quality.set_quality p stream_id quality in
  success = true ∧ replied_id = stream_id ∧
  replied = Z.max 1 (Z.min 100 quality) ∧ 1 ≤ replied ≤ 100 ∧
  Quality.stream_qualities p' !! stream_id = Some replied ∧
  Quality.streams p' !! stream_id
  = Some (default ("Stream " +:+ stream_id)%string (Quality.streams p !! stream_id)) ∧
  (∀ other, other ≠ stream_id →
     Quality.streams p' !! other = Quality.streams p !! other ∧
     Quality.stream_qualities p' !! other = Quality.stream_qualities p !! other) ∧
  dom (Quality.stream_qualities p') ⊆ dom (Quality.streams p').
Proof.
  intros Hr.
  pose proof (quality_domain _ (Quality.reachable_endpoint p stream_id quality Hr)) as Hdom.
  unfold Quality.set_quality in *.
  set (p1 := if decide (stream_id ∈ dom (Quality.streams p)) then p else _) in *.
  assert (Hin1 : stream_id ∈ dom (Quality.streams p1)).
  { subst p1. destruct (decide _); [done|]. simpl. rewrite dom_insert.
    apply elem_of_union. left. by apply elem_of_singleton. }
  assert (Hs1 : Quality.streams p1 !! stream_id
                = Some (default ("Stream " +:+ stream_id)%string (Quality.streams p !! stream_id))
                ∧ Quality.stream_qualities p1 = Quality.stream_qualities p
                ∧ ∀ other, other ≠ stream_id →
                    Quality.streams p1 !! other = Quality.streams p !! other).
  { subst p1. destruct (decide _) as [Hin|Hout].
    - apply elem_of_dom in Hin as [name Hn]. rewrite Hn. done.
    - apply not_elem_of_dom in Hout. rewrite Hout. simpl.
      rewrite lookup_insert_eq. repeat split; try done.
      intros other Hne. by rewrite lookup_insert_ne. }
  destruct Hs1 as (Hname & Hq1 & Hoth).
  unfold Quality.set_stream_quality in *.
  destruct (decide (stream_id ∈ dom (Quality.streams p1))) as [_|]; [|done].
  simpl in *. pose proof (clamp_range (Quality.clamp quality)) as Hc.
  assert (Hidem : Quality.clamp (Quality.clamp quality) = Quality.clamp quality).
  { unfold Quality.clamp. lia. }
  rewrite Hidem in *.
  split; [done|]. split; [done|]. split; [done|]. split; [exact Hc|].
  split; [by rewrite lookup_insert_eq|]. split; [done|]. split; [|done].
  intros other Hne. split; [by apply Hoth|]. by rewrite lookup_insert_ne, Hq1.
Qed.

(** A stream the service has never heard of gets quality 250: registered as
    "Stream cam9", quality 100. *)
Lemma X21_set_quality_endpoint_registers_and_stores_witness :
  let '(p', reply) := Quality.set_quality Quality.stream_processor "cam9" 250 in
  reply = (true, "cam9"%string, 100) ∧
  Quality.streams p' !! "cam9" = Some "Stream cam9"%string ∧
  Quality.stream_qualities p' !! "cam9" = Some 100.
Proof.
  pose proof (X21_set_quality_endpoint_registers_and_stores Quality.stream_processor
                "cam9" 250 Quality.reachable_init) as HX.
  destruct (Quality.set_quality Quality.stream_processor "cam9" 250)
    as [p' [[success replied_id] replied]].
  destruct HX as (-> & -> & -> & _ & Hq & Hs & _).
  split; [done|]. split; [|exact Hq]. rewrite Hs. vm_compute. reflexivity.
Defined.

(** ** Removing a stream that has consumers *)

(** "cam1" has the consumer on socket 0.  Removed by a caller that runs no
    event loop, the stream is gone from the stream registry, no close task
    exists, the consumer set is as it was and the call returns [False]; a
    second call fails in the same way. *)
Example remove_stream_outside_loop :
  let w := snd Scenario.subscribed in
  let '(p', e', ok) :=
    Optimized.remove_stream (fst w) (set_running_loop (snd w) false) "cam1" in
  Optimized.streams (fst w) !! "cam1" = Some 0%nat ∧
  Optimized.active_connections (fst w) !! "cam1" = Some {[0%nat]} ∧
  ok = false ∧ Optimized.streams p' !! "cam1" = None ∧
  Optimized.active_connections p' !! "cam1" = Some {[0%nat]} ∧
  closing e' = [] ∧
  snd (Optimized.remove_stream p' e' "cam1") = false.
Proof. vm_compute. repeat split; reflexivity. Qed.

(** X22: removing a stream tells its consumers and nobody else.
    [remove_stream] on a stream with a consumer set returns true exactly
    when the caller runs inside the event loop or the set is empty.  Then it
    has created one close task for each connection registered for the
    stream, each exactly once, and none for any other connection, and the
    consumer set is gone.  Otherwise the first [asyncio.create_task] raised:
    no close task exists, the consumer set is as it was and the call
    returned false.  Either way it sends nothing and closes nothing
    itself, and the stream is out of the stream registry, so the delivery
    loop of any consumer of the stream ends on its next turn: a connected
    peer is sent "Stream ended" as the last message, and the connection is
    taken out of the consumer set where there still is one. *)
Theorem X22_remove_stream_notifies_consumers (p : Optimized.StreamProcessor) (e : Env)
    (stream_id : string) (conns : gset nat) :
  Optimized.active_connections p !! stream_id = Some conns →
  let '(p', e', ok) := Optimized.remove_stream p e stream_id in
  ok = (running_loop e || bool_decide (conns = ∅)) ∧
  closing e' = (if ok then closing e ++ elements conns else closing e) ∧
  Optimized.active_connections p' !! stream_id = (if ok then None else Some conns) ∧
  NoDup (elements conns) ∧
  (∀ websocket, websocket ∈ elements conns ↔ websocket ∈ conns) ∧
  sockets e' = sockets e ∧
  ∀ (websocket : nat) (e'' : Env),
    let '(p'', e3, h) := Optimized.websocket_iter p' e'' stream_id websocket in
    h = Optimized.Finished ∧
    p'' = (if ok then p'
           else Optimized.set_active_connections p'
                  (<[stream_id := conns ∖ {[websocket]}]> (Optimized.active_connections p'))) ∧
    match sockets e'' !! websocket with
    | Some s =>
        if connected s
        then sockets e3 !! websocket = Some (Sock true (outbox s ++ [Text "Stream ended"]))
        else e3 = e''
    | None => e3 = e''
    end.
Proof.
  intros Ha.
  pose proof (remove_stream_spec p e stream_id) as Hrem.
  assert (Hsock : sockets (snd (fst (Optimized.remove_stream p e stream_id))) = sockets e).
  { unfold Optimized.remove_stream.
    destruct (Optimized.streams p !! stream_id) as [cap|]; simpl; rewrite Ha; simpl;
      destruct (_ || bool_decide (conns = ∅)); simpl; try done;
      unfold cap_release; by destruct (caps e !! cap). }
  destruct (Optimized.remove_stream p e stream_id) as [[p' e'] ok]. simpl in Hsock.
  rewrite Ha in Hrem. simpl in Hrem.
  destruct Hrem as (Eok & Es & _ & _ & _ & _ & _ & Ea & _ & _ & Ecl).
  assert (Hok : ok = running_loop e || bool_decide (conns = ∅)).
  { rewrite Eok. by destruct (running_loop e), (bool_decide (conns = ∅)). }
  assert (Hfails : negb (running_loop e) && negb (bool_decide (conns = ∅)) = negb ok).
  { rewrite Hok. by destruct (running_loop e), (bool_decide (conns = ∅)). }
  rewrite Hfails in Ea, Ecl. clear Eok Hfails.
  assert (Hconns : Optimized.active_connections p' !! stream_id
                   = if ok then None else Some conns).
  { rewrite Ea. destruct ok; simpl; [apply lookup_delete_eq|done]. }
  split; [done|]. split; [by destruct ok|]. split; [done|].
  split; [apply NoDup_elements|].
  split; [intros websocket; apply elem_of_elements|]. split; [done|].
  intros websocket e''. unfold Optimized.websocket_iter.
  destruct (decide (stream_id ∈ dom (Optimized.streams p'))) as [Hin|_].
  { rewrite Es, dom_delete_L, elem_of_difference, elem_of_singleton in Hin. tauto. }
  split; [done|]. split.
  - unfold Optimized.unregister_websocket. rewrite Hconns. by destruct ok.
  - unfold Optimized.ws_send.
    destruct (sockets e'' !! websocket) as [s|] eqn:Hs; [|done].
    destruct (connected s); [|done]. simpl.
    rewrite list_lookup_insert_eq by (by eapply lookup_lt_Some). done.
Qed.

(** "cam1" has the consumer on socket 0 when it is removed from inside the
    event loop: one close task, for socket 0. *)
Lemma X22_remove_stream_notifies_consumers_witness :
  let w := snd Scenario.subscribed in
  let '(p', e', ok) := Optimized.remove_stream (fst w) (snd w) "cam1" in
  Optimized.active_connections (fst w) !! "cam1" = Some {[0%nat]} ∧
  ok = true ∧ closing e' = [0%nat] ∧
  snd (Optimized.websocket_iter p' e' "cam1" 0) = Optimized.Finished.
Proof.
  intros w.
  assert (Ha : Optimized.active_connections (fst w) !! "cam1" = Some {[0%nat]})
    by (vm_compute; reflexivity).
  assert (Hc : closing (snd w) = []) by (vm_compute; reflexivity).
  assert (Hl : running_loop (snd w) = true) by (vm_compute; reflexivity).
  pose proof (X22_remove_stream_notifies_consumers (fst w) (snd w) "cam1" {[0%nat]} Ha) as HX.
  destruct (Optimized.remove_stream (fst w) (snd w) "cam1") as [[p' e'] ok].
  destruct HX as (Hok & Hcl & _ & _ & _ & _ & Hloop).
  rewrite Hl in Hok. simpl in Hok. subst ok.
  split; [exact Ha|]. split; [reflexivity|]. split.
  - rewrite Hcl, Hc, elements_singleton. reflexivity.
  - specialize (Hloop 0%nat e').
    destruct (Optimized.websocket_iter p' e' "cam1" 0) as [[p'' e3] h]. tauto.
Defined.

(** ** The address a stream is opened with *)

(** X23: the add endpoint opens and stores the percent-decoded address, and
    every later reconnection opens that same decoded address.  For an id
    that is not registered, [POST /add_stream] opens one capture, on
    [unquote(rtsp_url)], stores that decoded address for the stream, and
    replies success exactly when the capture opened (400 otherwise, with no
    capture registered); whenever the stream is reconnected afterwards the
    capture opened is again one on the decoded address. *)
Theorem X23_stream_is_opened_with_decoded_address `{Lib} (p : Optimized.StreamProcessor)
    (e : Env) (stream_id rtsp_url : string) :
  stream_id ∉ dom (Optimized.streams p) →
  let decoded := unquote rtsp_url in
  let '(p1, e1, reply) := Optimized.Api.add_stream p e stream_id rtsp_url in
  Optimized.stream_urls p1 !! stream_id = Some decoded ∧
  caps e1 = caps e ++ [camera e (length (caps e)) decoded] ∧
  (if isOpened (camera e (length (caps e)) decoded)
   then reply = JsonResult true "Stream added successfully" ∧
        Optimized.streams p1 !! stream_id = Some (length (caps e))
   else reply = HTTPException 400 "Failed to add stream" ∧
        Optimized.streams p1 !! stream_id = None) ∧
  ∀ e2 : Env,
    let '(_, e3, _) := Optimized._reconnect_stream p1 e2 stream_id in
    caps e3 !! length (caps e2) = Some (camera e2 (length (caps e2)) decoded).
Proof.
  intros Hout decoded. apply not_elem_of_dom in Hout.
  unfold Optimized.Api.add_stream. fold decoded.
  pose proof (add_stream_spec p e stream_id decoded Hout) as Hadd.
  destruct (Optimized.add_stream p e stream_id decoded) as [[p1 e1] ok].
  destruct Hadd as (Eok & Es & Eu & _ & _ & _ & _ & _ & _ & _ & _ & _ & _ & Ecaps & _).
  split; [by rewrite Eu, lookup_insert_eq|]. split; [done|]. split.
  - rewrite <- Eok. destruct ok; rewrite Es; [by rewrite lookup_insert_eq|done].
  - intros e2. unfold Optimized._reconnect_stream. rewrite Eu, lookup_insert_eq.
    assert (Hnew : ∀ e0 : Env, length (caps e0) = length (caps e2) → camera e0 = camera e2 →
              (caps e0 ++ [camera e0 (length (caps e0)) decoded]) !! length (caps e2)
              = Some (camera e2 (length (caps e2)) decoded)).
    { intros e0 Hl Hc. rewrite <- Hl, Hc. rewrite lookup_app_r by lia.
      by rewrite Nat.sub_diag. }
    destruct (Optimized.streams p1 !! stream_id) as [old|]; simpl;
      (destruct (negb _); simpl; apply Hnew;
       first [by rewrite ?caps_cap_release_length|by rewrite ?camera_cap_release]).
Qed.

(** A client sends the address with its colon percent-encoded; the stream
    is opened, stored and reconnected under the plain address. *)
Lemma X23_stream_is_opened_with_decoded_address_witness :
  let '(p1, e1, reply) :=
    Optimized.Api.add_stream (H := Runs.decoding_lib) Optimized.init Scenario.env
      "cam1" Runs.encoded_url in
  reply = JsonResult true "Stream added successfully" ∧
  Optimized.stream_urls p1 !! "cam1" = Some Scenario.url ∧
  ∀ e2 : Env,
    let '(_, e3, _) := Optimized._reconnect_stream p1 e2 "cam1" in
    caps e3 !! length (caps e2) = Some (camera e2 (length (caps e2)) Scenario.url).
Proof.
  assert (Hout : "cam1" ∉ dom (Optimized.streams Optimized.init)).
  { simpl. rewrite dom_empty_L. apply not_elem_of_empty. }
  pose proof (X23_stream_is_opened_with_decoded_address (H := Runs.decoding_lib)
                Optimized.init Scenario.env "cam1" Runs.encoded_url Hout) as HX.
  cbv zeta in HX.
  change (@unquote Runs.decoding_lib Runs.encoded_url) with Scenario.url in HX.
  destruct (Optimized.Api.add_stream Optimized.init Scenario.env "cam1" Runs.encoded_url)
    as [[p1 e1] reply].
  destruct HX as (Hu & _ & Hr & Hrec).
  change (isOpened (camera Scenario.env (length (caps Scenario.env)) Scenario.url))
    with true in Hr.
  destruct Hr as [Hr _]. split; [exact Hr|]. split; [exact Hu|exact Hrec].
Defined.

(** ** Detection and its metrics *)

Lemma detection_of_stamp `{Inference.Yolo} b e :
  match Inference.detection_of b e with
  | (Some d, e') =>
      ticks e' = S (ticks e) ∧ clock e' = clock e ∧
      Inference.timestamp d = clock e (ticks e)
  | (None, e') => e' = e
  end.
Proof.
  unfold Inference.detection_of.
  destruct (int_of_float (Inference.cls b)); [|done].
  destruct (Inference.names _); [|done].
  destruct (int_of_float (Inference.x1 b)); [|done].
  destruct (int_of_float (Inference.y1 b)); [|done].
  destruct (int_of_float (Inference.x2 b)); [|done].
  by destruct (int_of_float (Inference.y2 b)).
Qed.

Lemma boxes_detections_stamps `{Inference.Yolo} boxes :
  ∀ e, match Inference.boxes_detections boxes e with
       | (Some ds, e') =>
           ticks e' = (ticks e + length ds)%nat ∧ clock e' = clock e ∧
           Inference.timestamp <$> ds = clock e <$> seq (ticks e) (length ds)
       | (None, e') => clock e' = clock e
       end.
Proof.
  induction boxes as [|b rest IH]; intros e; simpl; [split; [lia|done]|].
  pose proof (detection_of_stamp b e) as Hd.
  destruct (Inference.detection_of b e) as [[d|] e1]; [|by subst].
  destruct Hd as (Ht & Hc & Hs). specialize (IH e1).
  destruct (Inference.boxes_detections rest e1) as [[ds|] e2]; [|congruence].
  destruct IH as (Ht2 & Hc2 & Hs2).
  split; [simpl; lia|]. split; [congruence|].
  rewrite fmap_cons, Hs2, Hs, Hc, Ht. done.
Qed.

Lemma results_detections_stamps `{Inference.Yolo} results :
  ∀ e, match Inference.results_detections results e with
       | (Some ds, e') =>
           ticks e' = (ticks e + length ds)%nat ∧ clock e' = clock e ∧
           Inference.timestamp <$> ds = clock e <$> seq (ticks e) (length ds)
       | (None, e') => clock e' = clock e
       end.
Proof.
  induction results as [|[boxes|] rest IH]; intros e; simpl; [split; [lia|done]| |apply IH].
  pose proof (boxes_detections_stamps boxes e) as Hb.
  destruct (Inference.boxes_detections boxes e) as [[ds|] e1]; [|done].
  destruct Hb as (Ht & Hc & Hs). specialize (IH e1).
  destruct (Inference.results_detections rest e1) as [[ds'|] e2]; [|congruence].
  destruct IH as (Ht2 & Hc2 & Hs2).
  rewrite length_app, fmap_app, seq_app, fmap_app. split; [lia|]. split; [congruence|].
  by rewrite Hs, Hs2, Hc, Ht.
Qed.

Lemma record_inference_window (s : Inference.AIProcessor) (t : float) :
  Z.of_nat (length (Inference.inference_times s)) = Z.min (Inference.total_inferences s) 100 →
  let s' := Inference.record_inference s t in
  Z.of_nat (length (Inference.inference_times s')) = Z.min (Inference.total_inferences s') 100 ∧
  last (Inference.inference_times s') = Some t.
Proof.
  intros Hinv. unfold Inference.record_inference. simpl.
  rewrite length_app. simpl.
  destruct (Nat.ltb_spec 100 (length (Inference.inference_times s) + 1)) as [Hlt|Hge].
  - split; [rewrite length_drop, length_app; simpl; lia|].
    rewrite drop_app_le by lia. apply last_snoc.
  - split; [rewrite length_app; simpl; lia|apply last_snoc].
Qed.

(** A call of [detect_objects] either leaves the processor as it is and
    returns nothing, or it went through. *)
Lemma detect_objects_outcome `{Lib} `{Inference.Yolo} s e frame confidence_threshold :
  let '(ds, s', e') := Inference.detect_objects s e frame confidence_threshold in
  (ds = [] ∧ s' = s ∧ clock e' = clock e ∧
   (Inference.model_loaded s = false ∨ frame = None ∨
    (∃ f, frame = Some f ∧ Inference.empty_frame f = true) → e' = e)) ∨
  (Inference.model_loaded s = true ∧
   (∃ f, frame = Some f ∧ Inference.empty_frame f = false) ∧
   ticks e' = (ticks e + 2 + length ds)%nat ∧ clock e' = clock e ∧
   Inference.timestamp <$> ds = clock e <$> seq (S (ticks e)) (length ds) ∧
   s' = Inference.record_inference s
          (PrimFloat.sub (clock e (ticks e + 1 + length ds)%nat) (clock e (ticks e)))).
Proof.
  unfold Inference.detect_objects.
  destruct (Inference.model_loaded s) eqn:Hm; simpl; [|left; by auto 10].
  destruct frame as [f|]; [|left; by auto 10].
  destruct (Inference.empty_frame f) eqn:Hempty; [left; by auto 10|].
  assert (Hno : ¬ (true = false ∨ Some f = None ∨
                   ∃ f0, Some f = Some f0 ∧ Inference.empty_frame f0 = true)).
  { intros [?|[?|(f0 & [= <-] & ?)]]; congruence. }
  destruct (AIProcessor.preprocess_frame f) as [processed|]; [|left; by auto 10].
  destruct (Inference.model processed confidence_threshold) as [results|]; [|left; by auto 10].
  pose proof (results_detections_stamps results (set_ticks e (S (ticks e)))) as Hr.
  destruct (Inference.results_detections results _) as [[ds|] e1]; simpl in Hr.
  - destruct Hr as (Ht & Hc & Hs). right. simpl.
    split; [done|]. split; [by eauto|]. split; [lia|]. split; [done|]. split; [done|].
    rewrite Hc, Ht. do 3 f_equal. lia.
  - left. split; [done|]. split; [done|]. split; [done|]. intros Hx. by destruct Hno.
Qed.

(** X24: the inference times are a rolling window of the last hundred.
    Through any sequence of [load_model] and [detect_objects] calls on a new
    processor, [inference_times] holds [min(total_inferences, 100)] entries:
    one per detection that went through until there are a hundred, and a
    hundred from then on. *)
Theorem X24_inference_times_window `{Lib} `{Inference.Yolo}
    (calls : list Inference.Call) (e : Env) :
  let s := fst (foldl (λ w c, Inference.call c w) (Inference.init, e) calls) in
  Z.of_nat (length (Inference.inference_times s)) = Z.min (Inference.total_inferences s) 100 ∧
  (length (Inference.inference_times s) ≤ 100)%nat.
Proof.
  assert (Hinv : ∀ calls w,
            Z.of_nat (length (Inference.inference_times (fst w)))
            = Z.min (Inference.total_inferences (fst w)) 100 →
            let s := fst (foldl (λ w c, Inference.call c w) w calls) in
            Z.of_nat (length (Inference.inference_times s))
            = Z.min (Inference.total_inferences s) 100).
  { clear calls e. induction calls as [|c rest IH]; intros w Hw; [done|].
    simpl. apply IH. destruct c as [loaded|frame conf]; simpl.
    - unfold Inference.load_model. by destruct loaded.
    - pose proof (detect_objects_outcome (fst w) (snd w) frame conf) as Ho.
      destruct (Inference.detect_objects (fst w) (snd w) frame conf) as [[ds s'] e'].
      simpl. destruct Ho as [(_ & -> & _)|(_ & _ & _ & _ & _ & ->)]; [done|].
      by apply record_inference_window. }
  intros s. pose proof (Hinv calls (Inference.init, e) eq_refl) as Hs.
  cbv zeta in Hs. fold s in Hs. split; [exact Hs|lia].
Qed.

(** X25: what a call of [detect_objects] does to the metrics.  A call on a
    processor without a model, without a frame or with an empty frame
    returns the empty list and changes nothing, the clock is not even read.
    Any other call either raised inside, and then it returns the empty list
    and leaves the metrics as they were, or it went through: it read the
    clock once at the start, once for each detection it returns, in order,
    as that detection's timestamp, and once at the end; it counted one more
    inference and appended the difference of the last and the first reading
    as the newest inference time. *)
Theorem X25_detect_objects_metrics `{Lib} `{Inference.Yolo} (s : Inference.AIProcessor)
    (e : Env) (frame : option ndarray) (confidence_threshold : float) :
  let '(ds, s', e') := Inference.detect_objects s e frame confidence_threshold in
  (ds = [] ∧ s' = s ∧
   (Inference.model_loaded s = false ∨ frame = None ∨
    (∃ f, frame = Some f ∧ Inference.empty_frame f = true) → e' = e)) ∨
  (Inference.model_loaded s = true ∧
   ticks e' = (ticks e + 2 + length ds)%nat ∧
   Inference.timestamp <$> ds = clock e <$> seq (S (ticks e)) (length ds) ∧
   Inference.total_inferences s' = Inference.total_inferences s + 1 ∧
   last (Inference.inference_times s')
   = Some (PrimFloat.sub (clock e (ticks e + 1 + length ds)%nat) (clock e (ticks e)))).
Proof.
  pose proof (detect_objects_outcome s e frame confidence_threshold) as Ho.
  destruct (Inference.detect_objects s e frame confidence_threshold) as [[ds s'] e'].
  destruct Ho as [(-> & -> & _ & He)|(Hm & _ & Ht & _ & Hs & ->)]; [left; by auto|].
  right. split; [done|]. split; [done|]. split; [done|]. split; [done|].
  unfold Inference.record_inference. simpl.
  destruct (Nat.ltb _ _); [|apply last_snoc].
  rewrite length_app. simpl. rewrite drop_app_le by lia. apply last_snoc.
Qed.

(** A run: with the model loaded, a frame yields the car and the person,
    with truncated boxes and the clock readings 1 and 2 as timestamps; the
    inference time is the reading 3 minus the reading 0. *)
Example detect_objects_run :
  let s := fst (Inference.load_model Inference.init true) in
  let '(ds, s', e') :=
    Inference.detect_objects (H := Scenario.lib) (H0 := Runs.yolo) s Scenario.env
      (Some Scenario.small) 0.5 in
  (Inference.bbox <$> ds) = [(10, 20, 110, 220); (1, 2, 3, 4)] ∧
  (Inference.class_name <$> ds) = ["car"; "person"]%string ∧
  (Inference.timestamp <$> ds) = [clock Scenario.env 1; clock Scenario.env 2] ∧
  Inference.total_inferences s' = 1 ∧
  Inference.inference_times s'
  = [PrimFloat.sub (clock Scenario.env 3) (clock Scenario.env 0)] ∧
  ticks e' = 4%nat.
Proof. vm_compute. repeat split; reflexivity. Qed.
